(** * Forest-fire cellular automaton: a shallow embedding of FF.py and
      FFGamePlots.py, and the properties of its transition rule, of the
      firefighter's movement and of the statistics counters.

    Python integers are [Z]; a numpy [int] array of shape (n, n) is a list of
    rows, each a list of [Z]; an [IndexError], [ValueError] or [MemoryError]
    raised by numpy is [None].  The floats that the source only ever compares
    with [<] ([random.random()], [p_tree], [p_fire]) are modelled as
    rationals, and the global generator of module [random] as an explicit
    stream of draws threaded through the code.  The floats that the source
    computes, the two percentages of [step], are binary64 floats with the
    rounding of the machine.  The memory that numpy may allocate for one array
    is a parameter [mem], in bytes, of the constructors; [np.copy] of an
    array that exists asks for no more than that array was granted. *)

From Stdlib Require Import ZArith QArith List Lia Permutation.
From Stdlib Require PrimFloat Uint63.
From stdpp Require Import base option list numbers strings gmap sorting.

Local Open Scope Z_scope.

(** ** The random generator *)

Record Rng := mkRng { draws : nat → Q; pos : nat }.

(** [random.random()]: the next draw, and the generator advanced by one. *)
Definition random (rng : Rng) : Q * Rng :=
  (draws rng (pos rng), mkRng (draws rng) (S (pos rng))).

(** The generator after [k] further draws, and the draw [k] places ahead. *)
Definition skip (k : nat) (rng : Rng) : Rng := mkRng (draws rng) (k + pos rng).
Definition peek (k : nat) (rng : Rng) : Q := draws rng (k + pos rng).

(** A generator that answers [q] at every draw. *)
Definition const_rng (q : Q) : Rng := mkRng (λ _, q) 0.

(** [a < b] on the modelled floats. *)
Definition Qltb (a b : Q) : bool := negb (Qle_bool b a).

(** ** numpy arrays of shape (n, n) *)

Abbreviation Grid := (list (list Z)).

(** The size in bytes of an element of a numpy [int] array, and the largest
    size in bytes of an array, on a 64-bit platform. *)
Definition np_itemsize : Z := 8.
Definition np_intp_max : Z := 2 ^ 63 - 1.

(** [np.zeros((n, n), dtype=int)], where the allocator grants at most [mem]
    bytes to an array.  A negative dimension raises ValueError (negative
    dimensions are not allowed), a size in bytes above [np_intp_max] raises
    ValueError (array is too big), and a size that the allocator refuses
    raises MemoryError. *)
Definition np_zeros (mem : Z) (n : Z) : option Grid :=
  if n <? 0 then None
  else if np_intp_max <? n * n * np_itemsize then None
  else if mem <? n * n * np_itemsize then None
  else Some (replicate (Z.to_nat n) (replicate (Z.to_nat n) 0)).

(** A gibibyte, the memory of the examples. *)
Definition gibibyte : Z := 2 ^ 30.

(** The conversion of a numpy [int64], or of a Python [int] in the range of
    one, to [float64], rounded to the nearest. *)
Definition np_float64 (z : Z) : PrimFloat.float :=
  PrimFloat.of_uint63 (Uint63.of_Z z).

(** An index into an axis of length [len]: negative indices count from the
    end, anything else out of range raises IndexError. *)
Definition np_index (len : nat) (i : Z) : option nat :=
  if (0 <=? i) && (i <? Z.of_nat len) then Some (Z.to_nat i)
  else if (- Z.of_nat len <=? i) && (i <? 0) then Some (Z.to_nat (Z.of_nat len + i))
  else None.

(** [a[i, j]] *)
Definition np_get (a : Grid) (i j : Z) : option Z :=
  i' ← np_index (length a) i;
  row ← a !! i';
  j' ← np_index (length row) j;
  row !! j'.

(** [a[i, j] = v] *)
Definition np_set (a : Grid) (i j : Z) (v : Z) : option Grid :=
  i' ← np_index (length a) i;
  row ← a !! i';
  j' ← np_index (length row) j;
  Some (<[i' := <[j' := v]> row]> a).

(** [np.sum(a == v)] *)
Definition np_count (a : Grid) (v : Z) : Z :=
  Z.of_nat (length (filter (λ c, c = v) (concat a))).

(** [a[a > 0] -= 1] *)
Definition np_decay (a : Grid) : Grid :=
  map (map (λ c, if c >? 0 then c - 1 else c)) a.

(** [range(n)] and [range(a, a + 3)] are [seqZ 0 n] and [seqZ a 3]. *)
Definition range (n : Z) : list Z := seqZ 0 n.

(** A [for] loop whose body may raise. *)
Fixpoint for_each {A S : Type} (l : list A) (body : A → S → option S) (s : S)
  : option S :=
  match l with
  | [] => Some s
  | a :: l' => s' ← body a s; for_each l' body s'
  end.

(** ** The neighbourhoods *)

(** The offsets listed at FF.py line 32. *)
Definition von_neumann : list (Z * Z) := [(-1, 0); (1, 0); (0, -1); (0, 1)].

(** The offsets listed at FFGamePlots.py lines 54-58. *)
Definition moore : list (Z * Z) :=
  [(-1, -1); (-1, 0); (-1, 1); (0, -1); (0, 1); (1, -1); (1, 0); (1, 1)].

(** The inner loop of [step], the same in both classes up to the list of
    offsets it runs over: the first in-bounds neighbour found on fire in
    [grid] sets [new_grid[x, y] = 2] and breaks. *)
Fixpoint spread (grid : Grid) (grid_size : Z) (x y : Z) (offsets : list (Z * Z))
    (new_grid : Grid) : option Grid :=
  match offsets with
  | [] => Some new_grid
  | (dx, dy) :: rest =>
      let nx := x + dx in
      let ny := y + dy in
      if (0 <=? nx) && (nx <? grid_size) && (0 <=? ny) && (ny <? grid_size) then
        c ← np_get grid nx ny;
        if c =? 2 then np_set new_grid x y 2
        else spread grid grid_size x y rest new_grid
      else spread grid grid_size x y rest new_grid
  end.

(** ** FF.py: class ForestFireModel *)

Module FF.

Record ForestFireModel := mk {
  grid_size : Z;
  p_tree : Q;
  p_fire : Q;
  grid : Grid
}.

(** [__init__] *)
Definition init (mem : Z) (grid_size : Z) (p_tree p_fire : Q)
  : option ForestFireModel :=
  grid ← np_zeros mem grid_size;
  Some (mk grid_size p_tree p_fire grid).

(** The body of the two nested loops of [step], at cell [(x, y)]. *)
Definition visit (self : ForestFireModel) (x y : Z) (st : Grid * Rng)
  : option (Grid * Rng) :=
  let '(new_grid, rng) := st in
  c ← np_get (grid self) x y;
  if c =? 0 then
    let '(r, rng) := random rng in
    if Qltb r (p_tree self) then
      new_grid ← np_set new_grid x y 1; Some (new_grid, rng)
    else Some (new_grid, rng)
  else if c =? 1 then
    let '(r, rng) := random rng in
    if Qltb r (p_fire self) then
      new_grid ← np_set new_grid x y 2; Some (new_grid, rng)
    else
      new_grid ← spread (grid self) (grid_size self) x y von_neumann new_grid;
      Some (new_grid, rng)
  else if c =? 2 then
    new_grid ← np_set new_grid x y 0; Some (new_grid, rng)
  else Some (new_grid, rng).

(** [step] *)
Definition step (self : ForestFireModel) (rng : Rng)
  : option (ForestFireModel * Rng) :=
  let new_grid := grid self in
  '(new_grid, rng) ←
    for_each (range (grid_size self))
      (λ x, for_each (range (grid_size self)) (λ y, visit self x y))
      (new_grid, rng);
  Some (mk (grid_size self) (p_tree self) (p_fire self) new_grid, rng).

End FF.

(** ** FFGamePlots.py: class ForestFireGame and the game loop *)

Module FFGame.

Record ForestFireGame := mk {
  grid_size : Z;
  p_tree : Q;
  p_fire : Q;
  grid : Grid;
  player_pos : Z * Z;
  extinguished : Z;
  burned : Z;
  extinguish_overlay : Grid;
  time_step : Z;
  burned_history : list Z;
  extinguished_history : list Z;
  trees_history : list Z;
  fire_percent_history : list PrimFloat.float;
  tree_percent_history : list PrimFloat.float
}.

(** [__init__]; [//] is floor division. *)
Definition init (mem : Z) (grid_size : Z) (p_tree p_fire : Q)
  : option ForestFireGame :=
  grid ← np_zeros mem grid_size;
  extinguish_overlay ← np_zeros mem grid_size;
  Some (mk grid_size p_tree p_fire grid
           (grid_size `div` 2, grid_size `div` 2) 0 0 extinguish_overlay
           0 [] [] [] [] []).

(** The body of the two nested loops of [step], at cell [(x, y)]; the state
    is [new_grid], [self.burned] and the generator. *)
Definition visit (self : ForestFireGame) (x y : Z) (st : Grid * Z * Rng)
  : option (Grid * Z * Rng) :=
  let '(new_grid, burned, rng) := st in
  c ← np_get (grid self) x y;
  if c =? 0 then
    let '(r, rng) := random rng in
    if Qltb r (p_tree self) then
      new_grid ← np_set new_grid x y 1; Some (new_grid, burned, rng)
    else Some (new_grid, burned, rng)
  else if c =? 1 then
    let '(r, rng) := random rng in
    if Qltb r (p_fire self) then
      new_grid ← np_set new_grid x y 2; Some (new_grid, burned, rng)
    else
      new_grid ← spread (grid self) (grid_size self) x y moore new_grid;
      Some (new_grid, burned, rng)
  else if c =? 2 then
    new_grid ← np_set new_grid x y 0; Some (new_grid, burned + 1, rng)
  else Some (new_grid, burned, rng).

(** [(np.sum(a == v) / total_cells) * 100]: the count, an [int64], is divided
    as a [float64] by [total_cells] and the quotient multiplied by 100, each
    operation rounded to the nearest; numpy answers nan when [total_cells]
    is zero. *)
Definition percent (a : Grid) (v : Z) (total_cells : Z) : PrimFloat.float :=
  PrimFloat.mul
    (PrimFloat.div (np_float64 (np_count a v)) (np_float64 total_cells))
    (np_float64 100).

(** What [step] does once the scan has produced [new_grid] and [burned]. *)
Definition finish_step (self : ForestFireGame) (new_grid : Grid) (burned : Z)
  : ForestFireGame :=
  let total_cells := grid_size self * grid_size self in
  mk (grid_size self) (p_tree self) (p_fire self) new_grid
     (player_pos self) (extinguished self) burned
     (np_decay (extinguish_overlay self))
     (time_step self + 1)
     (burned_history self ++ [burned])
     (extinguished_history self ++ [extinguished self])
     (trees_history self ++ [np_count new_grid 1])
     (fire_percent_history self ++ [percent new_grid 2 total_cells])
     (tree_percent_history self ++ [percent new_grid 1 total_cells]).

(** [step] *)
Definition step (self : ForestFireGame) (rng : Rng)
  : option (ForestFireGame * Rng) :=
  let new_grid := grid self in
  '(new_grid, burned, rng) ←
    for_each (range (grid_size self))
      (λ x, for_each (range (grid_size self)) (λ y, visit self x y))
      (new_grid, burned self, rng);
  Some (finish_step self new_grid burned, rng).

(** The body of the two nested loops of [move_player], at cell [(i, j)]; the
    state is [self.grid], [self.extinguished] and [self.extinguish_overlay]. *)
Definition douse (grid_size : Z) (i j : Z) (st : Grid * Z * Grid)
  : option (Grid * Z * Grid) :=
  let '(grid, extinguished, overlay) := st in
  if (0 <=? i) && (i <? grid_size) && (0 <=? j) && (j <? grid_size) then
    c ← np_get grid i j;
    if c =? 2 then
      grid ← np_set grid i j 0;
      overlay ← np_set overlay i j 2;
      Some (grid, extinguished + 1, overlay)
    else Some (grid, extinguished, overlay)
  else Some (grid, extinguished, overlay).

(** The new anchor computed by lines 86-94 of [move_player]. *)
Definition reposition (self : ForestFireGame) (direction : gset string) : Z * Z :=
  let '(x, y) := player_pos self in
  let x := if bool_decide ("UP" ∈ direction) && (x >? 0) then x - 1 else x in
  let x := if bool_decide ("DOWN" ∈ direction) && (x <? grid_size self - 3)
           then x + 1 else x in
  let y := if bool_decide ("LEFT" ∈ direction) && (y >? 0) then y - 1 else y in
  let y := if bool_decide ("RIGHT" ∈ direction) && (y <? grid_size self - 3)
           then y + 1 else y in
  (x, y).

(** [move_player] *)
Definition move_player (self : ForestFireGame) (direction : gset string)
  : option ForestFireGame :=
  let '(x, y) := reposition self direction in
  '(grid, extinguished, overlay) ←
    for_each (seqZ x 3)
      (λ i, for_each (seqZ y 3) (λ j, douse (grid_size self) i j))
      (grid self, extinguished self, extinguish_overlay self);
  Some (mk (grid_size self) (p_tree self) (p_fire self) grid
           (x, y) extinguished (burned self) overlay
           (time_step self) (burned_history self) (extinguished_history self)
           (trees_history self) (fire_percent_history self)
           (tree_percent_history self)).

(** [get_stats] *)
Definition get_stats (self : ForestFireGame) : Z * Z * Z :=
  (burned self, extinguished self, np_count (grid self) 1).

(** One iteration of the loop of [main], lines 191-199: [directions] is the
    set of keys held down once the events of the frame are handled. *)
Definition simulation_step_interval : Z := 5.

Definition frame (directions : gset string) (st : ForestFireGame * Z * Rng)
  : option (ForestFireGame * Z * Rng) :=
  let '(game, simulation_counter, rng) := st in
  game ← (if bool_decide (directions ≠ ∅) then move_player game directions
          else Some game);
  '(game, rng) ← (if simulation_counter `mod` simulation_step_interval =? 0
                  then step game rng else Some (game, rng));
  Some (game, simulation_counter + 1, rng).

(** The keys and the events that [main] tells apart; every other key and
    event type is [K_other] and [OTHER]. *)
Inductive Key := K_UP | K_DOWN | K_LEFT | K_RIGHT | K_other.

Inductive Event :=
  | QUIT
  | KEYDOWN (key : Key)
  | KEYUP (key : Key)
  | OTHER.

(** The body of the loop over [pygame.event.get()], lines 170-189: the state
    is [running] and [directions]. *)
Definition handle_event (event : Event) (st : bool * gset string)
  : bool * gset string :=
  let '(running, directions) := st in
  match event with
  | QUIT => (false, directions)
  | KEYDOWN key =>
      match key with
      | K_UP => (running, directions ∪ {["UP"]})
      | K_DOWN => (running, directions ∪ {["DOWN"]})
      | K_LEFT => (running, directions ∪ {["LEFT"]})
      | K_RIGHT => (running, directions ∪ {["RIGHT"]})
      | K_other => (running, directions)
      end
  | KEYUP key =>
      match key with
      | K_UP => (running, directions ∖ {["UP"]})
      | K_DOWN => (running, directions ∖ {["DOWN"]})
      | K_LEFT => (running, directions ∖ {["LEFT"]})
      | K_RIGHT => (running, directions ∖ {["RIGHT"]})
      | K_other => (running, directions)
      end
  | OTHER => (running, directions)
  end.

(** The state of [main]: [running], [directions], [game],
    [simulation_counter], and the generator. *)
Record Session := mkSession {
  running : bool;
  directions : gset string;
  game : ForestFireGame;
  simulation_counter : Z;
  session_rng : Rng
}.

(** One iteration of [while running], lines 166-238, on the events that
    [pygame.event.get()] returns; drawing reads the state and is left out. *)
Definition iteration (events : list Event) (s : Session) : option Session :=
  let '(running, directions) :=
    fold_left (λ st event, handle_event event st) events (running s, directions s) in
  st ← frame directions (game s, simulation_counter s, session_rng s);
  Some (mkSession running directions st.1.1 st.1.2 st.2).

(** The loop [while running], fed with the events of successive frames; it
    ends when [running] is false at the head of the loop, or with the feed. *)
Fixpoint main_loop (feed : list (list Event)) (s : Session) : option Session :=
  match feed with
  | [] => Some s
  | events :: feed' =>
      if running s then s' ← iteration events s; main_loop feed' s'
      else Some s
  end.

(** The session that [main] starts from, for a game just built. *)
Definition start (g : ForestFireGame) (rng : Rng) : Session :=
  mkSession true ∅ g 0 rng.

End FFGame.

(** * The vocabulary of the statements and of the proofs *)

(** ** Arrays *)

(** An array of shape (n, n). *)
Definition wf_grid (n : Z) (a : Grid) : Prop :=
  length a = Z.to_nat n ∧ Forall (λ row, length row = Z.to_nat n) a.

(** A cell of the (n, n) grid. *)
Definition inb (n : Z) (c : Z * Z) : Prop := (0 ≤ c.1 < n) ∧ (0 ≤ c.2 < n).

(** [a] with [v] at cell [c], and [a] itself when the write is refused. *)
Definition upd (a : Grid) (c : Z * Z) (v : Z) : Grid :=
  default a (np_set a c.1 c.2 v).

(** [a] after the optional write [o] at cell [c]. *)
Definition write (a : Grid) (c : Z * Z) (o : option Z) : Grid :=
  match o with Some v => upd a c v | None => a end.

(** ** Loops *)

(** The cells of the grid in the order in which [step] visits them. *)
Definition cells (n : Z) : list (Z * Z) := list_prod (range n) (range n).

(** ** The transition rule of one cell *)

Section Rule.
(** The list of offsets of the class, the pre-tick [self.grid],
    [self.grid_size], [self.p_tree] and [self.p_fire]. *)
Variable offsets : list (Z * Z).
Variable grid : Grid.
Variable n : Z.
Variables pt pf : Q.

(** The bounds test [0 <= i < grid_size and 0 <= j < grid_size]. *)
Definition inbb (i j : Z) : bool :=
  (0 <=? i) && (i <? n) && (0 <=? j) && (j <? n).

(** Some offset of [offs] leads from [(x, y)] to a cell of the grid that is
    on fire in the snapshot. *)
Definition fire_among (offs : list (Z * Z)) (x y : Z) : bool :=
  existsb (λ d, inbb (x + d.1) (y + d.2)
                && bool_decide (np_get grid (x + d.1) (y + d.2) = Some 2)) offs.

(** The same, for the offsets of the class. *)
Definition fire_near : Z → Z → bool := fire_among offsets.

(** What the body of the loops writes into [new_grid[x, y]], if anything,
    for a cell holding [c0] in the snapshot and the draw [r]. *)
Definition outcome (c0 x y : Z) (r : Q) : option Z :=
  if c0 =? 0 then (if Qltb r pt then Some 1 else None)
  else if c0 =? 1 then
    (if Qltb r pf then Some 2 else if fire_near x y then Some 2 else None)
  else if c0 =? 2 then Some 0
  else None.

(** The number of draws the body takes, and of burnt trees it counts. *)
Definition uses (c0 : Z) : nat := if (c0 =? 0) || (c0 =? 1) then 1%nat else 0%nat.
Definition burns (c0 : Z) : Z := if c0 =? 2 then 1 else 0.

(** The content of the snapshot at a cell of the grid. *)
Definition snap (c : Z * Z) : Z := default 0 (np_get grid c.1 c.2).

(** The pure counterpart of the body of the loops: the draw offered to the
    cell is chosen by [pick], the generator moved on by [adv]. *)
Section Sweep.
Variable pick : Z * Z → Rng → Q.
Variable adv : Z * Z → Rng → Rng.

Definition sweep_cell (c : Z * Z) (st : Grid * Rng) : Grid * Rng :=
  (write st.1 c (outcome (snap c) c.1 c.2 (pick c st.2)), adv c st.2).

Fixpoint sweep (l : list (Z * Z)) (st : Grid * Rng) : Grid * Rng :=
  match l with
  | [] => st
  | c :: l' => sweep l' (sweep_cell c st)
  end.

End Sweep.
End Rule.

(** ** The scan of [step] *)

(** In [step] each cell is offered the next draw of the generator, and the
    generator moves on when the cell is empty or a tree. *)
Definition pick_next : Z * Z → Rng → Q := λ _ rng, peek 0 rng.
Definition adv_next (grid : Grid) : Z * Z → Rng → Rng :=
  λ c rng, skip (uses (snap grid c)) rng.

(** The draws taken and the burnt trees counted along a list of cells. *)
Definition draws_taken (grid : Grid) (l : list (Z * Z)) : nat :=
  sum_list ((λ c, uses (snap grid c)) <$> l).
Definition burnt (grid : Grid) (l : list (Z * Z)) : Z :=
  foldr Z.add 0 ((λ c, burns (snap grid c)) <$> l).

(** The cells that [step] visits before it reaches [(x, y)]. *)
Definition before (n x y : Z) : list (Z * Z) :=
  list_prod (range x) (range n) ++ map (λ j, (x, j)) (range y).

(** The rank, among the draws of a tick, of the draw taken at [(x, y)]. *)
Definition draw_index (grid : Grid) (n x y : Z) : nat :=
  draws_taken grid (before n x y).

(** A cell on fire in [grid]. *)
Definition on_fire (grid : Grid) (c : Z * Z) : Prop := np_get grid c.1 c.2 = Some 2.

#[local] Instance on_fire_dec grid c : Decision (on_fire grid c).
Proof. unfold on_fire. apply _. Defined.

(** The value a cell of the grid takes in the next grid, for the draw [r]. *)
Definition next_state (offsets : list (Z * Z)) (grid : Grid) (n : Z) (pt pf : Q)
    (c : Z * Z) (r : Q) : Z :=
  default (snap grid c) (outcome offsets grid n pt pf (snap grid c) c.1 c.2 r).

(** ** The tick with the draws assigned to the cells *)

(** [step] with two liberties taken: the cells are visited in the order of the
    list [order], and the cell [(x, y)] is offered the draw [assign x y]
    whatever the other cells took.  The body of the loops is the one of
    [step], run on a generator that answers [assign x y]. *)
Definition FF_visit_assigned (self : FF.ForestFireModel) (assign : Z → Z → Q)
    (c : Z * Z) (new_grid : Grid) : option Grid :=
  st ← FF.visit self c.1 c.2 (new_grid, const_rng (assign c.1 c.2));
  Some st.1.

Definition FF_step_in_order (self : FF.ForestFireModel) (assign : Z → Z → Q)
    (order : list (Z * Z)) : option FF.ForestFireModel :=
  new_grid ← for_each order (FF_visit_assigned self assign) (FF.grid self);
  Some (FF.mk (FF.grid_size self) (FF.p_tree self) (FF.p_fire self) new_grid).

Definition FFGame_visit_assigned (self : FFGame.ForestFireGame)
    (assign : Z → Z → Q) (c : Z * Z) (st : Grid * Z) : option (Grid * Z) :=
  st' ← FFGame.visit self c.1 c.2 (st.1, st.2, const_rng (assign c.1 c.2));
  Some (st'.1.1, st'.1.2).

Definition FFGame_step_in_order (self : FFGame.ForestFireGame)
    (assign : Z → Z → Q) (order : list (Z * Z)) : option FFGame.ForestFireGame :=
  st ← for_each order (FFGame_visit_assigned self assign)
         (FFGame.grid self, FFGame.burned self);
  Some (FFGame.finish_step self st.1 st.2).

(** ** The two variants of the engine *)

(** An engine is a [ForestFireModel] or a [ForestFireGame]; the projections
    below read the fields the two classes share. *)
Inductive Engine :=
  | Model (m : FF.ForestFireModel)
  | Game (g : FFGame.ForestFireGame).

Definition engine_grid (e : Engine) : Grid :=
  match e with Model m => FF.grid m | Game g => FFGame.grid g end.

Definition engine_size (e : Engine) : Z :=
  match e with Model m => FF.grid_size m | Game g => FFGame.grid_size g end.

Definition engine_p_tree (e : Engine) : Q :=
  match e with Model m => FF.p_tree m | Game g => FFGame.p_tree g end.

Definition engine_p_fire (e : Engine) : Q :=
  match e with Model m => FF.p_fire m | Game g => FFGame.p_fire g end.

(** The statistics variant has a counter of burnt trees, the other none. *)
Definition engine_burned (e : Engine) : option Z :=
  match e with Model _ => None | Game g => Some (FFGame.burned g) end.

(** The neighbourhood written in the [step] of each class. *)
Definition neighbourhood (e : Engine) : list (Z * Z) :=
  match e with Model _ => von_neumann | Game _ => moore end.

(** The [step] of the class of the engine, and its tick with assigned draws. *)
Definition engine_step (e : Engine) (rng : Rng) : option (Engine * Rng) :=
  match e with
  | Model m => st ← FF.step m rng; Some (Model st.1, st.2)
  | Game g => st ← FFGame.step g rng; Some (Game st.1, st.2)
  end.

Definition engine_step_in_order (e : Engine) (assign : Z → Z → Q)
    (order : list (Z * Z)) : option Engine :=
  match e with
  | Model m => Model <$> FF_step_in_order m assign order
  | Game g => Game <$> FFGame_step_in_order g assign order
  end.

(** The grids of the engine have the shape its [grid_size] announces. *)
Definition wf_game (g : FFGame.ForestFireGame) : Prop :=
  wf_grid (FFGame.grid_size g) (FFGame.grid g)
  ∧ wf_grid (FFGame.grid_size g) (FFGame.extinguish_overlay g).

Definition wf_engine (e : Engine) : Prop :=
  match e with
  | Model m => wf_grid (FF.grid_size m) (FF.grid m)
  | Game g => wf_game g
  end.

(** Some neighbour of [(x, y)] under [offsets], inside the grid, is on fire. *)
Definition fire_neighbour (offsets : list (Z * Z)) (grid : Grid) (n x y : Z) : Prop :=
  ∃ dx dy, (dx, dy) ∈ offsets ∧ inb n (x + dx, y + dy)
           ∧ np_get grid (x + dx) (y + dy) = Some 2.

(** The draw that [step], started on the generator [rng], takes at [(x, y)]. *)
Definition draw_at (grid : Grid) (n : Z) (rng : Rng) (x y : Z) : Q :=
  peek (draw_index grid n x y) rng.

(** With assigned draws each cell is offered its own draw, and the generator
    is left alone. *)
Definition pick_assigned (assign : Z → Z → Q) : Z * Z → Rng → Q :=
  λ c _, assign c.1 c.2.
Definition adv_none : Z * Z → Rng → Rng := λ _ rng, rng.

(** The grid that a tick builds, cell by cell, from the snapshot [grid] and
    the draws [assign]. *)
Definition next_grid (offsets : list (Z * Z)) (grid : Grid) (n : Z) (pt pf : Q)
    (assign : Z → Z → Q) : Grid :=
  (sweep offsets grid n pt pf (pick_assigned assign) adv_none
     (cells n) (grid, const_rng 0)).1.

(** ** What a tick computes *)

(** A model on a 3x3 grid: a fire in the corner, a tree below it and a tree at
    the centre. *)
Definition tree_example : Engine :=
  Model (FF.mk 3 (1 # 2) (1 # 4) [[2; 0; 0]; [1; 1; 0]; [0; 0; 0]]).

(** The cells on fire in the grid of an engine. *)
Definition fires (e : Engine) : list (Z * Z) :=
  filter (on_fire (engine_grid e)) (cells (engine_size e)).

(** A game on a 3x3 grid with two fires, seven trees already burnt. *)
Definition fire_example : Engine :=
  Game (FFGame.mk 3 (1 # 2) (1 # 4) [[2; 0; 0]; [1; 2; 0]; [0; 0; 0]] (1, 1) 0 7
          [[0; 0; 0]; [0; 0; 0]; [0; 0; 0]] 4 [] [] [] [] []).

(** ** The loops of [move_player] *)

(** [a] where each cell [c] of [l] with [f c = Some v] is set to [v]. *)
Fixpoint paint (f : Z * Z → option Z) (l : list (Z * Z)) (a : Grid) : Grid :=
  match l with
  | [] => a
  | c :: l' => paint f l' (write a c (f c))
  end.

(** The cells that [move_player] douses: those of the list it scans that lie
    in the grid and are on fire in [grid]. *)
Definition doused (n : Z) (grid : Grid) (c : Z * Z) : Prop :=
  inb n c ∧ on_fire grid c.

#[local] Instance doused_dec n grid c : Decision (doused n grid c).
Proof. unfold doused, inb. apply _. Defined.

(** What the dousing writes at a cell of the scanned list, in the grid and in
    the overlay. *)
Definition douse_grid (n : Z) (grid : Grid) (c : Z * Z) : option Z :=
  if decide (doused n grid c) then Some 0 else None.
Definition douse_overlay (n : Z) (grid : Grid) (c : Z * Z) : option Z :=
  if decide (doused n grid c) then Some 2 else None.

(** The 3x3 block of cells anchored at [p]: the pairs of [range(x, x + 3)] and
    [range(y, y + 3)], some of which may lie outside the grid. *)
Definition footprint (p : Z * Z) : list (Z * Z) := list_prod (seqZ p.1 3) (seqZ p.2 3).

(** The agent's cells that are cells of the grid and on fire. *)
Definition fires_under (self : FFGame.ForestFireGame) (p : Z * Z) : list (Z * Z) :=
  filter (doused (FFGame.grid_size self) (FFGame.grid self)) (footprint p).

(** A game on a 4x4 grid: the agent at (0, 0), a fire under it at (1, 1) and
    a fire out of its reach at (3, 3). *)
Definition agent_example : FFGame.ForestFireGame :=
  FFGame.mk 4 (1 # 2) (1 # 4)
    [[0; 1; 0; 0]; [0; 2; 0; 0]; [0; 0; 1; 0]; [0; 0; 0; 2]] (0, 0) 0 0
    [[0; 0; 0; 0]; [0; 0; 0; 0]; [0; 0; 0; 0]; [0; 0; 0; 0]] 0 [] [] [] [] [].

(** ** Sequences of ticks and moves *)

(** The operations on a game: a call of [step], a call of [move_player]. *)
Inductive Op :=
  | Tick
  | Move (direction : gset string).

Definition run_op (op : Op) (st : FFGame.ForestFireGame * Rng)
  : option (FFGame.ForestFireGame * Rng) :=
  match op with
  | Tick => FFGame.step st.1 st.2
  | Move direction => g ← FFGame.move_player st.1 direction; Some (g, st.2)
  end.

Definition run (ops : list Op) (st : FFGame.ForestFireGame * Rng)
  : option (FFGame.ForestFireGame * Rng) :=
  for_each ops run_op st.

(** The cells of the grid on fire in [grid] and no longer so in [grid']. *)
Definition left_fire (n : Z) (grid grid' : Grid) : list (Z * Z) :=
  filter (λ c, on_fire grid c ∧ ¬ on_fire grid' c) (cells n).

(** Along a run, the number of times a cell left the fire state during a
    tick, and during a move. *)
Fixpoint departures (ops : list Op) (st : FFGame.ForestFireGame * Rng) : Z * Z :=
  match ops with
  | [] => (0, 0)
  | op :: ops' =>
      match run_op op st with
      | None => (0, 0)
      | Some st' =>
          let k := Z.of_nat (length (left_fire (FFGame.grid_size st.1)
                                       (FFGame.grid st.1) (FFGame.grid st'.1))) in
          let rest := departures ops' st' in
          match op with
          | Tick => (k + rest.1, rest.2)
          | Move _ => (rest.1, k + rest.2)
          end
      end
  end.

(** ** The anchor of the agent *)

(** The anchors whose whole footprint lies in the grid. *)
Definition anchor_ok (n : Z) (p : Z * Z) : Prop :=
  (0 ≤ p.1 ≤ n - 3) ∧ (0 ≤ p.2 ≤ n - 3).

(** The movement as the specification words it: each intent present moves
    its coordinate by one step, clamped into [0, n - 3]. *)
Definition clamp (lo hi v : Z) : Z := Z.max lo (Z.min hi v).

Definition nudge (n : Z) (direction : gset string) (p : Z * Z) : Z * Z :=
  let x := p.1 in
  let y := p.2 in
  let x := if bool_decide ("UP" ∈ direction) then clamp 0 (n - 3) (x - 1) else x in
  let x := if bool_decide ("DOWN" ∈ direction) then clamp 0 (n - 3) (x + 1) else x in
  let y := if bool_decide ("LEFT" ∈ direction) then clamp 0 (n - 3) (y - 1) else y in
  let y := if bool_decide ("RIGHT" ∈ direction) then clamp 0 (n - 3) (y + 1) else y in
  (x, y).

(** A sequence of calls of [move_player]. *)
Definition run_moves (moves : list (gset string)) (g : FFGame.ForestFireGame)
  : option FFGame.ForestFireGame :=
  for_each moves (λ direction g, FFGame.move_player g direction) g.

(** A game on an empty 5x5 grid, the agent at the centre. *)
Definition roaming_example : FFGame.ForestFireGame :=
  FFGame.mk 5 (1 # 2) (1 # 4)
    [[0; 0; 0; 0; 0]; [0; 0; 0; 0; 0]; [0; 0; 0; 0; 0]; [0; 0; 0; 0; 0]; [0; 0; 0; 0; 0]]
    (2, 2) 0 0
    [[0; 0; 0; 0; 0]; [0; 0; 0; 0; 0]; [0; 0; 0; 0; 0]; [0; 0; 0; 0; 0]; [0; 0; 0; 0; 0]]
    0 [] [] [] [] [].

(** ** Construction *)

(** The configurations that the specification wants refused, as far as they
    are arguments of the constructors: the tick cadence and the decay
    duration are the constants 5 and 2 of the source, not arguments. *)
Definition invalid_configuration (n : Z) (pt pf : Q) : Prop :=
  n ≤ 0 ∨ ¬ (0 <= pt <= 1)%Q ∨ ¬ (0 <= pf <= 1)%Q.

(** ** The neighbourhood of each class *)

(** The cells that the [step] of each class looks at around [(x, y)]. *)
Definition adjacent (e : Engine) (x y i j : Z) : Prop :=
  match e with
  | Model _ => Z.abs (i - x) + Z.abs (j - y) = 1
  | Game _ => Z.max (Z.abs (i - x)) (Z.abs (j - y)) = 1
  end.

(** [k] ticks of a [ForestFireModel]. *)
Fixpoint FF_ticks (k : nat) (st : FF.ForestFireModel * Rng)
  : option (FF.ForestFireModel * Rng) :=
  match k with
  | O => Some st
  | S k' => st' ← FF.step st.1 st.2; FF_ticks k' st'
  end.

(** Draws under which, on a 3x3 grid with [p_tree = 1/2] and [p_fire = 1/4],
    trees grow at (0, 0) and (1, 1) at the first tick, and the tree at (0, 0)
    is struck at the second. *)
Definition corner_draws : Rng :=
  mkRng (λ k, if (k =? 0)%nat || (k =? 4)%nat || (k =? 9)%nat then 0 else 3 # 4)%Q 0.

(** A game on a 3x3 grid: a tree at the centre, a fire at the corner (0, 0). *)
Definition diagonal_example : Engine :=
  Game (FFGame.mk 3 (1 # 2) (1 # 4) [[2; 0; 0]; [0; 1; 0]; [0; 0; 0]] (0, 0) 0 0
          [[0; 0; 0]; [0; 0; 0]; [0; 0; 0]] 2 [0; 0] [0; 0] [1; 1] [] []).

(** ** The frames of the game loop *)

(** The loop of [main] run on the sets of keys held at successive frames. *)
Definition run_frames (keys : list (gset string))
    (st : FFGame.ForestFireGame * Z * Rng)
  : option (FFGame.ForestFireGame * Z * Rng) :=
  for_each keys FFGame.frame st.

(** Draws under which, on a 5x5 grid with [p_tree = p_fire = 1/10], a tree
    grows at (2, 2) at the first tick and is struck at the second. *)
Definition centre_draws : Rng :=
  mkRng (λ k, if (k =? 12)%nat || (k =? 37)%nat then 0 else 9 # 10)%Q 0.

(** The counter of the overlay at (2, 2) and the frame counter, after the
    frames [keys] of a game on a 5x5 grid. *)
Definition overlay_after (keys : list (gset string)) : option (option Z * Z) :=
  g ← FFGame.init gibibyte 5 (1 # 10) (1 # 10);
  st ← run_frames keys (g, 0, centre_draws);
  Some (np_get (FFGame.extinguish_overlay st.1.1) 2 2, st.1.2).

(** ** The scenarios of the specification *)

(** A 5x5 grid of trees around the cell [centre]. *)
Definition forest (centre : Z) : Grid :=
  [[1; 1; 1; 1; 1]; [1; 1; 1; 1; 1]; [1; 1; centre; 1; 1]; [1; 1; 1; 1; 1];
   [1; 1; 1; 1; 1]].

(** * Further vocabulary *)

(** ** Ticks of an engine *)

(** [k] ticks of an engine. *)
Fixpoint engine_ticks (k : nat) (st : Engine * Rng) : option (Engine * Rng) :=
  match k with
  | O => Some st
  | S k' => st' ← engine_step st.1 st.2; engine_ticks k' st'
  end.

(** The cells within [k] steps of [(x, y)] for the neighbourhood of the class. *)
Definition within (e : Engine) (k : Z) (x y i j : Z) : Prop :=
  match e with
  | Model _ => Z.abs (i - x) + Z.abs (j - y) ≤ k
  | Game _ => Z.max (Z.abs (i - x)) (Z.abs (j - y)) ≤ k
  end.

(** No draw of the generator is below [p]: lightning never strikes. *)
Definition never_below (rng : Rng) (p : Q) : Prop :=
  ∀ k, ¬ (draws rng k < p)%Q.

(** ** Invariants of a game *)

(** Every cell of the (n, n) array [a] holds a value between [lo] and [hi]. *)
Definition in_range (lo hi n : Z) (a : Grid) : Prop :=
  ∀ c, inb n c → ∃ v, np_get a c.1 c.2 = Some v ∧ lo ≤ v ≤ hi.

(** The grids have their shape, every cell is empty, a tree or on fire, and
    every counter of the overlay is 0, 1 or 2. *)
Definition sound_game (g : FFGame.ForestFireGame) : Prop :=
  wf_game g
  ∧ in_range 0 2 (FFGame.grid_size g) (FFGame.grid g)
  ∧ in_range 0 2 (FFGame.grid_size g) (FFGame.extinguish_overlay g).

Definition sound_engine (e : Engine) : Prop :=
  wf_engine e ∧ in_range 0 2 (engine_size e) (engine_grid e).

(** The number of ticks among the operations [ops]. *)
Fixpoint count_ticks (ops : list Op) : Z :=
  match ops with
  | [] => 0
  | Tick :: ops' => 1 + count_ticks ops'
  | Move _ :: ops' => count_ticks ops'
  end.

(** The two histories of counters never decrease, and no recorded value
    exceeds the counter it was read from. *)
Definition ledger_ok (g : FFGame.ForestFireGame) : Prop :=
  StronglySorted Z.le (FFGame.burned_history g)
  ∧ Forall (λ b, b ≤ FFGame.burned g) (FFGame.burned_history g)
  ∧ StronglySorted Z.le (FFGame.extinguished_history g)
  ∧ Forall (λ x, x ≤ FFGame.extinguished g) (FFGame.extinguished_history g).

(** ** Counting cells *)

(** The content of a cell of [a], 0 outside the array. *)
Definition cell (a : Grid) (c : Z * Z) : Z := default 0 (np_get a c.1 c.2).

(** The cells of the grid that hold [v] in [a]. *)
Definition cells_with (n : Z) (a : Grid) (v : Z) : list (Z * Z) :=
  filter (λ c, np_get a c.1 c.2 = Some v) (cells n).

(** ** Further examples *)

(** [agent_example] once the agent has doused the fire under it, without
    moving and after a step down. *)
Definition agent_after : FFGame.ForestFireGame :=
  FFGame.mk 4 (1 # 2) (1 # 4)
    [[0; 1; 0; 0]; [0; 0; 0; 0]; [0; 0; 1; 0]; [0; 0; 0; 2]] (0, 0) 1 0
    [[0; 0; 0; 0]; [0; 2; 0; 0]; [0; 0; 0; 0]; [0; 0; 0; 0]] 0 [] [] [] [] [].

Definition agent_lowered : FFGame.ForestFireGame :=
  FFGame.mk 4 (1 # 2) (1 # 4)
    [[0; 1; 0; 0]; [0; 0; 0; 0]; [0; 0; 1; 0]; [0; 0; 0; 2]] (1, 0) 1 0
    [[0; 0; 0; 0]; [0; 2; 0; 0]; [0; 0; 0; 0]; [0; 0; 0; 0]] 0 [] [] [] [] [].

(** ** The session of [main] *)

(** The four names that the event loop puts into [directions]. *)
Definition known_names : gset string := {["UP"; "DOWN"; "LEFT"; "RIGHT"]}.

(** The loop over the events of one frame. *)
Definition handle_events (events : list FFGame.Event) (st : bool * gset string)
  : bool * gset string :=
  fold_left (λ st event, FFGame.handle_event event st) events st.

#[global] Instance Key_eq_dec : EqDecision FFGame.Key.
Proof. solve_decision. Defined.

#[global] Instance Event_eq_dec : EqDecision FFGame.Event.
Proof. solve_decision. Defined.

(** The number of frames that [main] plays on the events [feed], one batch
    of events for each frame: every frame up to the first one with a QUIT
    among its events, that one included. *)
Fixpoint frames_played (feed : list (list FFGame.Event)) : nat :=
  match feed with
  | [] => 0%nat
  | events :: feed' =>
      S (if bool_decide (FFGame.QUIT ∈ events) then 0%nat else frames_played feed')
  end.

(** The model and the game on one grid, with a fire on the diagonal of the
    tree at the centre. *)
Definition diagonal_model : FF.ForestFireModel :=
  FF.mk 3 (1 # 2) (1 # 4) [[2; 0; 0]; [0; 1; 0]; [0; 0; 0]].
Definition diagonal_game : FFGame.ForestFireGame :=
  FFGame.mk 3 (1 # 2) (1 # 4) [[2; 0; 0]; [0; 1; 0]; [0; 0; 0]] (0, 0) 0 0
    [[0; 0; 0]; [0; 0; 0]; [0; 0; 0]] 2 [0; 0] [0; 0] [1; 1] [] [].

(** ** The trees on which the two classes differ *)

(** A cell of the grid next to [(x, y)] on its row or on its column is on
    fire; a cell of the grid next to [(x, y)] on a diagonal is on fire. *)
Definition burning_beside (grid : Grid) (n x y : Z) : Prop :=
  ∃ i j, inb n (i, j) ∧ Z.abs (i - x) + Z.abs (j - y) = 1
         ∧ np_get grid i j = Some 2.
Definition burning_diagonally (grid : Grid) (n x y : Z) : Prop :=
  ∃ i j, inb n (i, j) ∧ Z.abs (i - x) = 1 ∧ Z.abs (j - y) = 1
         ∧ np_get grid i j = Some 2.

(** The cell [(x, y)] holds a tree, its draw [r] is not below [pf], and the
    fire is next to it on a diagonal only. *)
Definition diagonal_only (grid : Grid) (n : Z) (pf : Q) (r : Q) (x y : Z) : Prop :=
  np_get grid x y = Some 1 ∧ ¬ (r < pf)%Q
  ∧ ¬ burning_beside grid n x y ∧ burning_diagonally grid n x y.

(** * Properties *)

(** ** Arrays *)

Lemma np_index_inb len i :
  0 ≤ i < Z.of_nat len → np_index len i = Some (Z.to_nat i).
Proof.
  intros H. unfold np_index.
  destruct (0 <=? i) eqn:E1; [|lia].
  destruct (i <? Z.of_nat len) eqn:E2; [done|lia].
Qed.

Lemma np_index_nonneg len i :
  0 ≤ i → np_index len i = if i <? Z.of_nat len then Some (Z.to_nat i) else None.
Proof.
  intros H. unfold np_index.
  destruct (0 <=? i) eqn:E1; [|lia].
  destruct (i <? Z.of_nat len) eqn:E2; [done|].
  destruct (i <? 0) eqn:E3; [lia|]. by destruct (- Z.of_nat len <=? i).
Qed.

Lemma np_index_lt len i k : np_index len i = Some k → (k < len)%nat.
Proof.
  unfold np_index. intros H.
  destruct (0 <=? i) eqn:E1, (i <? Z.of_nat len) eqn:E2; simpl in H;
    try (injection H as <-; lia);
    destruct (- Z.of_nat len <=? i) eqn:E3, (i <? 0) eqn:E4; simpl in H;
    try discriminate; injection H as <-; lia.
Qed.

Lemma np_get_nonneg (a : Grid) i j :
  0 ≤ i → 0 ≤ j → np_get a i j = (a !! Z.to_nat i) ≫= (λ row, row !! Z.to_nat j).
Proof.
  intros Hi Hj. unfold np_get. rewrite np_index_nonneg by done.
  destruct (i <? Z.of_nat (length a)) eqn:E.
  - change (Some (Z.to_nat i) ≫= _) with
      (a !! Z.to_nat i ≫= λ row, np_index (length row) j ≫= λ j', row !! j').
    destruct (a !! Z.to_nat i) as [row|]; [|done].
    change (np_index (length row) j ≫= (λ j', row !! j') = row !! Z.to_nat j).
    rewrite np_index_nonneg by done.
    destruct (j <? Z.of_nat (length row)) eqn:E'; [done|].
    symmetry. apply lookup_ge_None. lia.
  - assert (a !! Z.to_nat i = None) as -> by (apply lookup_ge_None; lia). done.
Qed.

Lemma wf_grid_row n (a : Grid) i row :
  wf_grid n a → a !! i = Some row → length row = Z.to_nat n.
Proof.
  intros [_ Hrows] Hrow. rewrite Forall_lookup in Hrows. by eapply Hrows.
Qed.

Lemma np_get_total n a c : wf_grid n a → inb n c → is_Some (np_get a c.1 c.2).
Proof.
  intros Hwf [Hi Hj]. rewrite np_get_nonneg by lia.
  destruct (lookup_lt_is_Some_2 a (Z.to_nat c.1)) as [row Hrow].
  { destruct Hwf as [-> _]. lia. }
  rewrite Hrow. simpl. apply lookup_lt_is_Some_2.
  rewrite (wf_grid_row _ _ _ _ Hwf Hrow). lia.
Qed.

Lemma np_set_total n a c v : wf_grid n a → inb n c → is_Some (np_set a c.1 c.2 v).
Proof.
  intros Hwf [Hi Hj]. unfold np_set.
  rewrite np_index_inb by (destruct Hwf as [-> _]; lia). simpl.
  destruct (lookup_lt_is_Some_2 a (Z.to_nat c.1)) as [row Hrow].
  { destruct Hwf as [-> _]. lia. }
  rewrite Hrow. simpl.
  rewrite np_index_inb by (rewrite (wf_grid_row _ _ _ _ Hwf Hrow); lia).
  done.
Qed.

Lemma np_set_wf n a i j v a' : np_set a i j v = Some a' → wf_grid n a → wf_grid n a'.
Proof.
  unfold np_set. intros H [Hlen Hrows].
  destruct (np_index (length a) i) as [i'|]; [|done]. simpl in H.
  destruct (a !! i') as [row|] eqn:Hrow; [|done]. simpl in H.
  destruct (np_index (length row) j) as [j'|]; [|done]. simpl in H.
  injection H as <-. split.
  - by rewrite length_insert.
  - apply Forall_insert; [done|]. rewrite length_insert.
    rewrite Forall_lookup in Hrows. by eapply Hrows.
Qed.

Lemma np_get_set_eq a i j v a' :
  np_set a i j v = Some a' → 0 ≤ i → 0 ≤ j → np_get a' i j = Some v.
Proof.
  unfold np_set. intros H Hi Hj. rewrite np_get_nonneg by done.
  rewrite !np_index_nonneg in H by done.
  destruct (i <? Z.of_nat (length a)) eqn:E; [|done]. simpl in H.
  destruct (a !! Z.to_nat i) as [row|] eqn:Hrow; [|done]. simpl in H.
  rewrite np_index_nonneg in H by done.
  destruct (j <? Z.of_nat (length row)) eqn:E'; [|done]. simpl in H.
  injection H as <-.
  rewrite list_lookup_insert_eq by lia. simpl.
  apply list_lookup_insert_eq. lia.
Qed.

Lemma np_get_set_ne a i j v a' i' j' :
  np_set a i j v = Some a' → 0 ≤ i → 0 ≤ j → 0 ≤ i' → 0 ≤ j' →
  (i', j') ≠ (i, j) → np_get a' i' j' = np_get a i' j'.
Proof.
  unfold np_set. intros H Hi Hj Hi' Hj' Hne. rewrite !np_get_nonneg by done.
  rewrite !np_index_nonneg in H by done.
  destruct (i <? Z.of_nat (length a)) eqn:E; [|done]. simpl in H.
  destruct (a !! Z.to_nat i) as [row|] eqn:Hrow; [|done]. simpl in H.
  rewrite np_index_nonneg in H by done.
  destruct (j <? Z.of_nat (length row)) eqn:E'; [|done]. simpl in H.
  injection H as <-.
  destruct (decide (i' = i)) as [->|Hii].
  - rewrite list_lookup_insert_eq by lia. rewrite Hrow. simpl.
    apply list_lookup_insert_ne. intros Heq. apply Hne. f_equal. lia.
  - rewrite list_lookup_insert_ne by lia. done.
Qed.

(** Two arrays of the same shape with the same cells are equal. *)
Lemma wf_grid_ext n a b :
  wf_grid n a → wf_grid n b →
  (∀ c, inb n c → np_get a c.1 c.2 = np_get b c.1 c.2) → a = b.
Proof.
  intros Ha Hb Hget. apply list_eq_same_length with (Z.to_nat n);
    [apply Hb | apply Ha |].
  intros i ra rb Hi Hra Hrb.
  apply list_eq_same_length with (Z.to_nat n);
    [exact (wf_grid_row _ _ _ _ Hb Hrb) | exact (wf_grid_row _ _ _ _ Ha Hra) |].
  intros j x y Hj Hx Hy.
  specialize (Hget (Z.of_nat i, Z.of_nat j)). simpl in Hget.
  rewrite !np_get_nonneg in Hget by lia. rewrite !Nat2Z.id in Hget.
  rewrite Hra, Hrb in Hget. simpl in Hget. rewrite Hx, Hy in Hget.
  assert (Some x = Some y) as [= ->]; [|done].
  apply Hget. split; simpl; lia.
Qed.

Lemma np_set_upd n a c v : wf_grid n a → inb n c → np_set a c.1 c.2 v = Some (upd a c v).
Proof.
  intros Hwf Hc. unfold upd.
  by destruct (np_set_total n a c v Hwf Hc) as [a' ->].
Qed.

Lemma upd_wf n a c v : wf_grid n a → wf_grid n (upd a c v).
Proof.
  intros Hwf. unfold upd. destruct (np_set a c.1 c.2 v) eqn:E; [|done].
  by eapply np_set_wf.
Qed.

Lemma write_wf n a c o : wf_grid n a → wf_grid n (write a c o).
Proof. destruct o; [apply upd_wf | done]. Qed.

Lemma get_upd_eq n a c v : wf_grid n a → inb n c → np_get (upd a c v) c.1 c.2 = Some v.
Proof.
  intros Hwf Hc. destruct (Hc) as [[? _] [? _]].
  eapply np_get_set_eq; [by eapply np_set_upd | done | done].
Qed.

Lemma get_upd_ne n a c v c' :
  inb n c → inb n c' → c' ≠ c → np_get (upd a c v) c'.1 c'.2 = np_get a c'.1 c'.2.
Proof.
  intros Hc Hc' Hne. unfold upd. destruct (np_set a c.1 c.2 v) eqn:E; [|done].
  destruct Hc as [[? _] [? _]], Hc' as [[? _] [? _]].
  simpl. eapply np_get_set_ne; [done..|]. by destruct c, c'.
Qed.

Lemma get_write_ne n a c o c' :
  inb n c → inb n c' → c' ≠ c → np_get (write a c o) c'.1 c'.2 = np_get a c'.1 c'.2.
Proof. destruct o; [apply get_upd_ne | done]. Qed.

Lemma get_write_eq n a c o c0 :
  wf_grid n a → inb n c → np_get a c.1 c.2 = Some c0 →
  np_get (write a c o) c.1 c.2 = Some (default c0 o).
Proof. intros Hwf Hc Hget. destruct o; [by eapply get_upd_eq | done]. Qed.

(** ** Loops *)

Lemma for_each_cons {A S} a (l : list A) (body : A → S → option S) s :
  for_each (a :: l) body s = body a s ≫= for_each l body.
Proof. reflexivity. Qed.

Lemma for_each_app {A S} (l1 l2 : list A) (body : A → S → option S) s :
  for_each (l1 ++ l2) body s = for_each l1 body s ≫= for_each l2 body.
Proof.
  revert s. induction l1 as [|a l1 IH]; intros s; simpl; [done|].
  destruct (body a s) as [s'|]; simpl; [apply IH | done].
Qed.

Lemma for_each_fmap {A B S} (f : A → B) (l : list A) (body : B → S → option S) s :
  for_each (map f l) body s = for_each l (λ a, body (f a)) s.
Proof.
  revert s. induction l as [|a l IH]; intros s; simpl; [done|].
  destruct (body (f a) s); simpl; [apply IH | done].
Qed.

(** Two nested loops visit the pairs of [list_prod] in order. *)
Lemma for_each_nested {A B S} (xs : list A) (ys : list B)
    (body : A → B → S → option S) s :
  for_each xs (λ x, for_each ys (body x)) s
  = for_each (list_prod xs ys) (λ c, body c.1 c.2) s.
Proof.
  revert s. induction xs as [|x xs IH]; intros s; simpl; [done|].
  rewrite for_each_app, for_each_fmap. simpl.
  destruct (for_each ys _ s); simpl; [apply IH | done].
Qed.

Lemma elem_of_list_prod {A B} (xs : list A) (ys : list B) c :
  c ∈ list_prod xs ys ↔ c.1 ∈ xs ∧ c.2 ∈ ys.
Proof.
  destruct c as [x y]. rewrite !list_elem_of_In. apply in_prod_iff.
Qed.

Lemma NoDup_list_prod {A B} (xs : list A) (ys : list B) :
  NoDup xs → NoDup ys → NoDup (list_prod xs ys).
Proof.
  intros Hxs Hys. induction Hxs as [|x xs Hx Hxs IH]; simpl; [constructor|].
  apply NoDup_app. split; [|split; [|done]].
  - apply NoDup_fmap_2; [|done]. by intros ?? [=].
  - intros c Hc Hc'. apply elem_of_list_prod in Hc'.
    apply list_elem_of_fmap in Hc as (y & -> & _). simpl in Hc'. tauto.
Qed.

Lemma elem_of_cells n c : c ∈ cells n ↔ inb n c.
Proof.
  unfold cells, range, inb. rewrite elem_of_list_prod, !elem_of_seqZ. lia.
Qed.

Lemma NoDup_cells n : NoDup (cells n).
Proof. apply NoDup_list_prod; apply NoDup_seqZ. Qed.

Lemma Forall_inb_cells n : Forall (inb n) (cells n).
Proof. apply Forall_forall. intros c. apply elem_of_cells. Qed.

(** ** The transition rule of one cell *)

Lemma inbb_inb n i j : inbb n i j = true ↔ inb n (i, j).
Proof. unfold inbb, inb. simpl. rewrite !andb_true_iff. lia. Qed.

Lemma snap_get grid n c :
  wf_grid n grid → inb n c → np_get grid c.1 c.2 = Some (snap grid c).
Proof.
  intros Hwf Hc. unfold snap.
  by destruct (np_get_total n grid c Hwf Hc) as [c0 ->].
Qed.

Lemma fire_among_spec grid n offs x y :
  fire_among grid n offs x y = true ↔
  ∃ dx dy, (dx, dy) ∈ offs ∧ inb n (x + dx, y + dy)
           ∧ np_get grid (x + dx) (y + dy) = Some 2.
Proof.
  unfold fire_among. rewrite existsb_exists. split.
  - intros ([dx dy] & Hin & H). simpl in H.
    apply andb_true_iff in H as [Hb Hf].
    exists dx, dy. rewrite list_elem_of_In.
    split; [done|]. split; [by apply inbb_inb | by apply bool_decide_eq_true in Hf].
  - intros (dx & dy & Hin & Hb & Hf). exists (dx, dy). simpl.
    rewrite <- list_elem_of_In. split; [done|].
    apply andb_true_iff. split; [by apply inbb_inb | by apply bool_decide_eq_true].
Qed.

Lemma spread_spec grid n offs x y new_grid :
  wf_grid n grid → wf_grid n new_grid → inb n (x, y) →
  spread grid n x y offs new_grid
  = Some (if fire_among grid n offs x y then upd new_grid (x, y) 2 else new_grid).
Proof.
  intros Hwf Hng Hc. induction offs as [|[dx dy] rest IH]; [done|].
  simpl. fold (inbb n (x + dx) (y + dy)).
  destruct (inbb n (x + dx) (y + dy)) eqn:G; simpl; [|exact IH].
  apply inbb_inb in G.
  pose proof (snap_get grid n (x + dx, y + dy) Hwf G) as Hget. simpl in Hget.
  rewrite Hget. simpl.
  destruct (snap grid (x + dx, y + dy) =? 2) eqn:E.
  - apply Z.eqb_eq in E. rewrite E, bool_decide_eq_true_2 by done. simpl.
    by apply (np_set_upd n new_grid (x, y)).
  - apply Z.eqb_neq in E. rewrite bool_decide_eq_false_2 by congruence.
    exact IH.
Qed.

Lemma sweep_app offsets grid n pt pf pick adv l1 l2 st :
  sweep offsets grid n pt pf pick adv (l1 ++ l2) st
  = sweep offsets grid n pt pf pick adv l2 (sweep offsets grid n pt pf pick adv l1 st).
Proof. revert st. induction l1 as [|c l1 IH]; intros st; simpl; [done|apply IH]. Qed.

Lemma sweep_wf offsets grid n pt pf pick adv l st :
  wf_grid n st.1 → wf_grid n (sweep offsets grid n pt pf pick adv l st).1.
Proof.
  revert st. induction l as [|c l IH]; intros st Hwf; simpl; [done|].
  apply IH. simpl. by apply write_wf.
Qed.

(** A cell that is not visited keeps its content. *)
Lemma sweep_notin offsets grid n pt pf pick adv l st c :
  Forall (inb n) l → inb n c → c ∉ l →
  np_get (sweep offsets grid n pt pf pick adv l st).1 c.1 c.2 = np_get st.1 c.1 c.2.
Proof.
  revert st. induction l as [|c' l IH]; intros st Hl Hc Hnotin; simpl; [done|].
  apply Forall_cons in Hl as [Hc' Hl]. apply not_elem_of_cons in Hnotin as [Hne Hnotin].
  rewrite IH by done. simpl. by eapply get_write_ne.
Qed.

(** A cell visited once holds what the rule gives it, for the draw offered
    when the scan reaches it. *)
Lemma sweep_at offsets grid n pt pf pick adv pre post st c :
  Forall (inb n) (pre ++ c :: post) → wf_grid n st.1 →
  c ∉ pre → c ∉ post →
  np_get (sweep offsets grid n pt pf pick adv (pre ++ c :: post) st).1 c.1 c.2
  = Some (default (default 0 (np_get st.1 c.1 c.2))
            (outcome offsets grid n pt pf (snap grid c) c.1 c.2
               (pick c (sweep offsets grid n pt pf pick adv pre st).2))).
Proof.
  intros Hall Hwf Hpre Hpost.
  apply Forall_app in Hall as [Hall1 Hall2].
  apply Forall_cons in Hall2 as [Hc Hall2].
  rewrite sweep_app. simpl. rewrite sweep_notin by done. simpl.
  pose proof (sweep_wf offsets grid n pt pf pick adv pre st Hwf) as Hwf1.
  destruct (np_get_total n _ c Hwf1 Hc) as [v Hv].
  rewrite (get_write_eq n _ c _ v Hwf1 Hc Hv).
  rewrite sweep_notin in Hv by done. by rewrite Hv.
Qed.

(** ** The scan of [step] *)

Lemma skip_skip a b rng : skip a (skip b rng) = skip (b + a) rng.
Proof. unfold skip. simpl. f_equal. lia. Qed.

Lemma skip_0 rng : skip 0 rng = rng.
Proof. by destruct rng. Qed.

Lemma sweep_next_rng offsets grid n pt pf l st :
  (sweep offsets grid n pt pf pick_next (adv_next grid) l st).2
  = skip (draws_taken grid l) st.2.
Proof.
  revert st. induction l as [|c l IH]; intros st; simpl.
  - by rewrite skip_0.
  - rewrite IH. simpl. unfold adv_next. apply skip_skip.
Qed.

Lemma list_prod_app {A B} (l1 l2 : list A) (ys : list B) :
  list_prod (l1 ++ l2) ys = list_prod l1 ys ++ list_prod l2 ys.
Proof.
  induction l1 as [|x l1 IH]; simpl; [done|]. by rewrite IH, app_assoc.
Qed.

Lemma range_split n x :
  0 ≤ x < n → range n = range x ++ x :: seqZ (x + 1) (n - x - 1).
Proof.
  intros Hx. unfold range.
  replace n with (x + (n - x)) at 1 by lia.
  rewrite seqZ_app by lia. f_equal.
  rewrite seqZ_cons, Z.add_0_l by lia.
  by replace (Z.succ x) with (x + 1) by lia;
     replace (Z.pred (n - x)) with (n - x - 1) by lia.
Qed.

Lemma cells_split n x y :
  inb n (x, y) → ∃ post, cells n = before n x y ++ (x, y) :: post.
Proof.
  intros [Hx Hy]. simpl in *. unfold cells, before.
  assert (Hrow : map (λ j, (x, j)) (range n)
                 = map (λ j, (x, j)) (range y)
                   ++ (x, y) :: map (λ j, (x, j)) (seqZ (y + 1) (n - y - 1))).
  { rewrite (range_split n y Hy) at 1. by rewrite map_app. }
  exists (map (λ j, (x, j)) (seqZ (y + 1) (n - y - 1))
          ++ list_prod (seqZ (x + 1) (n - x - 1)) (range n)).
  rewrite (range_split n x Hx) at 1. rewrite list_prod_app. simpl.
  rewrite Hrow. by rewrite <- !app_assoc.
Qed.

Lemma burnt_cons grid c l : burnt grid (c :: l) = burns (snap grid c) + burnt grid l.
Proof. reflexivity. Qed.

Lemma burnt_app grid l1 l2 : burnt grid (l1 ++ l2) = burnt grid l1 + burnt grid l2.
Proof.
  induction l1 as [|c l1 IH]; [done|].
  rewrite <- app_comm_cons, !burnt_cons, IH. lia.
Qed.

Lemma burnt_filter n grid l :
  wf_grid n grid → Forall (inb n) l →
  burnt grid l = Z.of_nat (length (filter (on_fire grid) l)).
Proof.
  intros Hwf Hl. induction Hl as [|c l Hc Hl IH]; [done|].
  rewrite burnt_cons, IH, filter_cons.
  pose proof (snap_get grid n c Hwf Hc) as Hget. unfold burns.
  destruct (decide (on_fire grid c)) as [Hf|Hf]; unfold on_fire in Hf;
    rewrite Hget in Hf.
  - injection Hf as ->. simpl. lia.
  - destruct (snap grid c =? 2) eqn:E; [apply Z.eqb_eq in E; congruence | lia].
Qed.

Lemma burnt_perm grid l1 l2 : l1 ≡ₚ l2 → burnt grid l1 = burnt grid l2.
Proof.
  induction 1 as [|c l1 l2 _ IH|c c' l|l1 l2 l3 _ IH1 _ IH2];
    rewrite ?burnt_cons; [done | by rewrite IH | lia | congruence].
Qed.

#[local] Arguments spread : simpl never.
#[local] Arguments fire_among : simpl never.

(** The body of the loops, on a cell of the grid, never raises and does what
    [sweep_cell] says. *)
Ltac visit_cases n new_grid x y :=
  repeat match goal with
  | |- context [ ?c =? ?k ] => destruct (c =? k) eqn:?; simpl
  | |- context [ Qltb ?r ?p ] => destruct (Qltb r p) eqn:?; simpl
  | |- context [ np_set new_grid x y ?v ] =>
      let E := fresh in
      assert (E := np_set_upd n new_grid (x, y) v ltac:(assumption) ltac:(assumption));
      simpl in E; rewrite E; clear E; simpl
  | |- context [ spread _ _ _ _ _ _ ] => rewrite spread_spec by done; simpl
  | |- context [ fire_among ?o ?g ?m ?i ?j ] =>
      destruct (fire_among o g m i j) eqn:?; simpl
  end.

Lemma FF_visit_spec self c new_grid rng :
  let n := FF.grid_size self in
  wf_grid n (FF.grid self) → wf_grid n new_grid → inb n c →
  FF.visit self c.1 c.2 (new_grid, rng)
  = Some (sweep_cell von_neumann (FF.grid self) n (FF.p_tree self) (FF.p_fire self)
            pick_next (adv_next (FF.grid self)) c (new_grid, rng)).
Proof.
  intros n Hwf Hng Hc. destruct c as [x y], rng as [d p].
  unfold FF.visit. rewrite (snap_get _ n (x, y) Hwf Hc). simpl.
  unfold sweep_cell, outcome, adv_next, uses, pick_next, fire_near, peek, skip.
  simpl. fold n.
  visit_cases n new_grid x y; reflexivity.
Qed.

Lemma FFGame_visit_spec self c new_grid burned rng :
  let n := FFGame.grid_size self in
  let st := sweep_cell moore (FFGame.grid self) n (FFGame.p_tree self)
              (FFGame.p_fire self) pick_next (adv_next (FFGame.grid self)) c
              (new_grid, rng) in
  wf_grid n (FFGame.grid self) → wf_grid n new_grid → inb n c →
  FFGame.visit self c.1 c.2 (new_grid, burned, rng)
  = Some (st.1, burned + burns (snap (FFGame.grid self) c), st.2).
Proof.
  intros n st Hwf Hng Hc. subst st. destruct c as [x y], rng as [d p].
  unfold FFGame.visit. rewrite (snap_get _ n (x, y) Hwf Hc). simpl.
  unfold sweep_cell, outcome, adv_next, uses, burns, pick_next, fire_near, peek, skip.
  simpl. fold n.
  visit_cases n new_grid x y; rewrite ?Z.add_0_r; first [reflexivity | lia].
Qed.

Lemma FF_scan_spec self l st :
  let n := FF.grid_size self in
  wf_grid n (FF.grid self) → wf_grid n st.1 → Forall (inb n) l →
  for_each l (λ c, FF.visit self c.1 c.2) st
  = Some (sweep von_neumann (FF.grid self) n (FF.p_tree self) (FF.p_fire self)
            pick_next (adv_next (FF.grid self)) l st).
Proof.
  intros n Hwf Hst Hl. revert st Hst.
  induction Hl as [|c l Hc Hl IH]; intros [new_grid rng] Hst; [done|].
  rewrite for_each_cons. cbv beta.
  rewrite (FF_visit_spec self c new_grid rng Hwf Hst Hc). simpl.
  apply IH. simpl. by apply write_wf.
Qed.

Lemma FFGame_scan_spec self l new_grid burned rng :
  let n := FFGame.grid_size self in
  let st := sweep moore (FFGame.grid self) n (FFGame.p_tree self)
              (FFGame.p_fire self) pick_next (adv_next (FFGame.grid self)) l
              (new_grid, rng) in
  wf_grid n (FFGame.grid self) → wf_grid n new_grid → Forall (inb n) l →
  for_each l (λ c, FFGame.visit self c.1 c.2) (new_grid, burned, rng)
  = Some (st.1, burned + burnt (FFGame.grid self) l, st.2).
Proof.
  intros n st Hwf Hng Hl. subst st. revert new_grid burned rng Hng.
  induction Hl as [|c l Hc Hl IH]; intros new_grid burned rng Hng.
  - simpl. unfold burnt. simpl. by rewrite Z.add_0_r.
  - rewrite for_each_cons. cbv beta.
    rewrite (FFGame_visit_spec self c new_grid burned rng Hwf Hng Hc). simpl.
    rewrite IH by (by apply write_wf). rewrite burnt_cons. do 3 f_equal. lia.
Qed.

(** In a scan that visits [c] once, after the cells of [pre]. *)
Lemma sweep_visit_once offsets grid n pt pf pick adv pre post c rng :
  wf_grid n grid → Forall (inb n) (pre ++ c :: post) → NoDup (pre ++ c :: post) →
  np_get (sweep offsets grid n pt pf pick adv (pre ++ c :: post) (grid, rng)).1 c.1 c.2
  = Some (next_state offsets grid n pt pf c
            (pick c (sweep offsets grid n pt pf pick adv pre (grid, rng)).2)).
Proof.
  intros Hwf Hall Hnd. apply NoDup_app in Hnd as (_ & Hpre & Hnd).
  apply NoDup_cons in Hnd as [Hpost _].
  rewrite (sweep_at offsets grid n) by first [done | set_solver].
  reflexivity.
Qed.

(** ** What a tick computes *)

Lemma Forall_inb_perm n (order : list (Z * Z)) :
  order ≡ₚ cells n → Forall (inb n) order.
Proof. intros ->. apply Forall_inb_cells. Qed.

(** Whatever the order, a scan with assigned draws gives each cell what the
    rule says for its own draw. *)
Lemma sweep_assigned_get offsets grid n pt pf assign order rng c :
  wf_grid n grid → order ≡ₚ cells n → inb n c →
  np_get (sweep offsets grid n pt pf (pick_assigned assign) adv_none order
            (grid, rng)).1 c.1 c.2
  = Some (next_state offsets grid n pt pf c (assign c.1 c.2)).
Proof.
  intros Hwf Hperm Hc.
  assert (Hin : c ∈ order) by (rewrite Hperm; by apply elem_of_cells).
  apply list_elem_of_split in Hin as (pre & post & ->).
  rewrite (sweep_visit_once offsets grid n); [done | done | |].
  - by apply Forall_inb_perm.
  - rewrite Hperm. apply NoDup_cells.
Qed.

Lemma sweep_assigned_grid offsets grid n pt pf assign order rng :
  wf_grid n grid → order ≡ₚ cells n →
  (sweep offsets grid n pt pf (pick_assigned assign) adv_none order (grid, rng)).1
  = next_grid offsets grid n pt pf assign.
Proof.
  intros Hwf Hperm. apply (wf_grid_ext n).
  - by apply sweep_wf.
  - by apply sweep_wf.
  - intros c Hc. unfold next_grid. by rewrite !sweep_assigned_get.
Qed.

Lemma next_grid_wf offsets grid n pt pf assign :
  wf_grid n grid → wf_grid n (next_grid offsets grid n pt pf assign).
Proof. intros Hwf. by apply sweep_wf. Qed.

Lemma next_grid_get offsets grid n pt pf assign c :
  wf_grid n grid → inb n c →
  np_get (next_grid offsets grid n pt pf assign) c.1 c.2
  = Some (next_state offsets grid n pt pf c (assign c.1 c.2)).
Proof. intros Hwf Hc. by apply sweep_assigned_get. Qed.

(** The scan of [step] gives each cell what the rule says for the draw that
    the scan takes there. *)
Lemma sweep_next_grid offsets grid n pt pf rng :
  wf_grid n grid →
  (sweep offsets grid n pt pf pick_next (adv_next grid) (cells n) (grid, rng)).1
  = next_grid offsets grid n pt pf (draw_at grid n rng).
Proof.
  intros Hwf. apply (wf_grid_ext n).
  - by apply sweep_wf.
  - by apply next_grid_wf.
  - intros [x y] Hc. rewrite next_grid_get by done.
    destruct (cells_split n x y Hc) as [post Hsplit]. rewrite Hsplit.
    rewrite (sweep_visit_once offsets grid n); [| done | |].
    + by rewrite sweep_next_rng.
    + rewrite <- Hsplit. apply Forall_inb_cells.
    + rewrite <- Hsplit. apply NoDup_cells.
Qed.

Lemma FF_step_spec self rng :
  let n := FF.grid_size self in
  wf_grid n (FF.grid self) →
  FF.step self rng
  = Some (FF.mk n (FF.p_tree self) (FF.p_fire self)
            (next_grid von_neumann (FF.grid self) n (FF.p_tree self)
               (FF.p_fire self) (draw_at (FF.grid self) n rng)),
          skip (draws_taken (FF.grid self) (cells n)) rng).
Proof.
  intros n Hwf. unfold FF.step.
  rewrite (for_each_nested _ _ (FF.visit self)). fold n. fold (cells n).
  rewrite FF_scan_spec by (done || apply Forall_inb_cells). fold n.
  pose proof (sweep_next_grid von_neumann (FF.grid self) n (FF.p_tree self)
                (FF.p_fire self) rng Hwf) as Hg.
  pose proof (sweep_next_rng von_neumann (FF.grid self) n (FF.p_tree self)
                (FF.p_fire self) (cells n) (FF.grid self, rng)) as Hr.
  destruct (sweep _ _ _ _ _ _ _ _ _) as [new_grid rng']. simpl in *.
  by subst.
Qed.

Lemma FFGame_step_spec self rng :
  let n := FFGame.grid_size self in
  wf_grid n (FFGame.grid self) →
  FFGame.step self rng
  = Some (FFGame.finish_step self
            (next_grid moore (FFGame.grid self) n (FFGame.p_tree self)
               (FFGame.p_fire self) (draw_at (FFGame.grid self) n rng))
            (FFGame.burned self + burnt (FFGame.grid self) (cells n)),
          skip (draws_taken (FFGame.grid self) (cells n)) rng).
Proof.
  intros n Hwf. unfold FFGame.step.
  rewrite (for_each_nested _ _ (FFGame.visit self)). fold n. fold (cells n).
  rewrite FFGame_scan_spec by (done || apply Forall_inb_cells). fold n.
  pose proof (sweep_next_grid moore (FFGame.grid self) n (FFGame.p_tree self)
                (FFGame.p_fire self) rng Hwf) as Hg.
  pose proof (sweep_next_rng moore (FFGame.grid self) n (FFGame.p_tree self)
                (FFGame.p_fire self) (cells n) (FFGame.grid self, rng)) as Hr.
  destruct (sweep _ _ _ _ _ _ _ _ _) as [new_grid rng']. simpl in *.
  by subst.
Qed.

Lemma FF_visit_assigned_spec self assign c new_grid rng :
  let n := FF.grid_size self in
  wf_grid n (FF.grid self) → wf_grid n new_grid → inb n c →
  FF_visit_assigned self assign c new_grid
  = Some (sweep_cell von_neumann (FF.grid self) n (FF.p_tree self) (FF.p_fire self)
            (pick_assigned assign) adv_none c (new_grid, rng)).1.
Proof.
  intros n Hwf Hng Hc. unfold FF_visit_assigned.
  by rewrite (FF_visit_spec self c new_grid _ Hwf Hng Hc).
Qed.

Lemma FFGame_visit_assigned_spec self assign c new_grid burned rng :
  let n := FFGame.grid_size self in
  wf_grid n (FFGame.grid self) → wf_grid n new_grid → inb n c →
  FFGame_visit_assigned self assign c (new_grid, burned)
  = Some ((sweep_cell moore (FFGame.grid self) n (FFGame.p_tree self)
             (FFGame.p_fire self) (pick_assigned assign) adv_none c
             (new_grid, rng)).1,
          burned + burns (snap (FFGame.grid self) c)).
Proof.
  intros n Hwf Hng Hc. unfold FFGame_visit_assigned. cbn [fst snd].
  by rewrite (FFGame_visit_spec self c new_grid burned _ Hwf Hng Hc).
Qed.

Lemma FF_assigned_scan self assign l new_grid rng :
  let n := FF.grid_size self in
  wf_grid n (FF.grid self) → wf_grid n new_grid → Forall (inb n) l →
  for_each l (FF_visit_assigned self assign) new_grid
  = Some (sweep von_neumann (FF.grid self) n (FF.p_tree self) (FF.p_fire self)
            (pick_assigned assign) adv_none l (new_grid, rng)).1.
Proof.
  intros n Hwf Hng Hl. revert new_grid Hng.
  induction Hl as [|c l Hc Hl IH]; intros new_grid Hng; [done|].
  rewrite for_each_cons.
  rewrite (FF_visit_assigned_spec self assign c new_grid rng Hwf Hng Hc). simpl.
  apply IH. by apply write_wf.
Qed.

Lemma FFGame_assigned_scan self assign l new_grid burned rng :
  let n := FFGame.grid_size self in
  wf_grid n (FFGame.grid self) → wf_grid n new_grid → Forall (inb n) l →
  for_each l (FFGame_visit_assigned self assign) (new_grid, burned)
  = Some ((sweep moore (FFGame.grid self) n (FFGame.p_tree self)
             (FFGame.p_fire self) (pick_assigned assign) adv_none l
             (new_grid, rng)).1,
          burned + burnt (FFGame.grid self) l).
Proof.
  intros n Hwf Hng Hl. revert new_grid burned Hng.
  induction Hl as [|c l Hc Hl IH]; intros new_grid burned Hng.
  - simpl. unfold burnt. simpl. by rewrite Z.add_0_r.
  - rewrite for_each_cons.
    rewrite (FFGame_visit_assigned_spec self assign c new_grid burned rng Hwf Hng Hc).
    simpl.
    rewrite IH by (by apply write_wf). rewrite burnt_cons. do 2 f_equal. lia.
Qed.

Lemma FF_step_in_order_spec self assign order :
  let n := FF.grid_size self in
  wf_grid n (FF.grid self) → order ≡ₚ cells n →
  FF_step_in_order self assign order
  = Some (FF.mk n (FF.p_tree self) (FF.p_fire self)
            (next_grid von_neumann (FF.grid self) n (FF.p_tree self)
               (FF.p_fire self) assign)).
Proof.
  intros n Hwf Hperm. unfold FF_step_in_order.
  rewrite (FF_assigned_scan self assign order _ (const_rng 0))
    by (done || by apply Forall_inb_perm).
  simpl. fold n. by rewrite sweep_assigned_grid.
Qed.

Lemma FFGame_step_in_order_spec self assign order :
  let n := FFGame.grid_size self in
  wf_grid n (FFGame.grid self) → order ≡ₚ cells n →
  FFGame_step_in_order self assign order
  = Some (FFGame.finish_step self
            (next_grid moore (FFGame.grid self) n (FFGame.p_tree self)
               (FFGame.p_fire self) assign)
            (FFGame.burned self + burnt (FFGame.grid self) (cells n))).
Proof.
  intros n Hwf Hperm. unfold FFGame_step_in_order.
  rewrite (FFGame_assigned_scan self assign order _ _ (const_rng 0))
    by (done || by apply Forall_inb_perm).
  simpl. fold n. by rewrite sweep_assigned_grid, (burnt_perm _ _ _ Hperm).
Qed.

Lemma Qltb_lt a b : Qltb a b = true ↔ (a < b)%Q.
Proof.
  unfold Qltb. rewrite negb_true_iff, <- not_true_iff_false, Qle_bool_iff.
  split; [apply Qnot_le_lt | apply Qlt_not_le].
Qed.

Lemma Qltb_ge a b : Qltb a b = false ↔ ¬ (a < b)%Q.
Proof. rewrite <- Qltb_lt. by destruct (Qltb a b). Qed.

(** A tick of either variant never raises on well-formed grids: it takes one
    draw per empty cell and per tree, and builds [next_grid]. *)
Lemma engine_step_spec e rng :
  let n := engine_size e in
  wf_engine e →
  ∃ e', engine_step e rng
        = Some (e', skip (draws_taken (engine_grid e) (cells n)) rng)
    ∧ engine_grid e'
      = next_grid (neighbourhood e) (engine_grid e) n (engine_p_tree e)
          (engine_p_fire e) (draw_at (engine_grid e) n rng)
    ∧ engine_size e' = n
    ∧ engine_burned e'
      = (λ b, b + burnt (engine_grid e) (cells n)) <$> engine_burned e.
Proof.
  intros n Hwf. destruct e as [m|g]; simpl in *.
  - eexists. rewrite FF_step_spec by done. simpl. done.
  - destruct Hwf as [Hwf _]. eexists. rewrite FFGame_step_spec by done. simpl. done.
Qed.

Lemma engine_step_in_order_spec e assign order :
  let n := engine_size e in
  wf_engine e → order ≡ₚ cells n →
  ∃ e', engine_step_in_order e assign order = Some e'
    ∧ engine_step_in_order e assign (cells n) = Some e'
    ∧ engine_grid e'
      = next_grid (neighbourhood e) (engine_grid e) n (engine_p_tree e)
          (engine_p_fire e) assign.
Proof.
  intros n Hwf Hperm. destruct e as [m|g]; simpl in *.
  - eexists. rewrite !FF_step_in_order_spec by done. simpl. done.
  - destruct Hwf as [Hwf _]. eexists.
    rewrite !FFGame_step_in_order_spec by done. simpl. done.
Qed.

(** The real tick is the tick in any order, with the draws assigned to the
    cells as the scan of [step] hands them out. *)
Lemma engine_step_as_in_order e rng order :
  let n := engine_size e in
  wf_engine e → order ≡ₚ cells n →
  ∃ e' rng', engine_step e rng = Some (e', rng')
    ∧ engine_step_in_order e (draw_at (engine_grid e) n rng) order = Some e'.
Proof.
  intros n Hwf Hperm. destruct e as [m|g]; simpl in *.
  - eexists _, _. rewrite FF_step_spec, FF_step_in_order_spec by done. simpl. done.
  - destruct Hwf as [Hwf _]. eexists _, _.
    rewrite FFGame_step_spec, FFGame_step_in_order_spec by done. simpl. done.
Qed.

Lemma wf_engine_grid e : wf_engine e → wf_grid (engine_size e) (engine_grid e).
Proof. destruct e; [done | by intros [? _]]. Qed.

(** What a tick makes of a tree. *)
Lemma tree_cell_next e rng x y :
  let n := engine_size e in
  wf_engine e → inb n (x, y) → np_get (engine_grid e) x y = Some 1 →
  ∃ e' rng', engine_step e rng = Some (e', rng')
    ∧ np_get (engine_grid e') x y
      = Some (if Qltb (draw_at (engine_grid e) n rng x y) (engine_p_fire e) then 2
              else if fire_among (engine_grid e) n (neighbourhood e) x y then 2
              else 1).
Proof.
  intros n Hwf Hc Htree. subst n.
  destruct (engine_step_spec e rng Hwf) as (e' & Hstep & Hgrid & _).
  eexists e', _. split; [exact Hstep|].
  pose proof (wf_engine_grid e Hwf) as Hwfg.
  pose proof (next_grid_get (neighbourhood e) (engine_grid e) (engine_size e)
                (engine_p_tree e) (engine_p_fire e)
                (draw_at (engine_grid e) (engine_size e) rng) (x, y) Hwfg Hc) as Hget.
  rewrite <- Hgrid in Hget. simpl in Hget. rewrite Hget. clear Hget.
  pose proof (snap_get _ _ (x, y) Hwfg Hc) as Hsnap. simpl in Hsnap.
  rewrite Htree in Hsnap. injection Hsnap as Hsnap.
  unfold next_state, outcome, fire_near. rewrite <- Hsnap. simpl.
  by repeat destruct (_ : bool).
Qed.

(** *** C1 *)

(** C1: a cell that is a tree at the start of a tick is on fire in the next
    grid when its draw is below [p_fire]; otherwise it is on fire exactly when
    a neighbour, under the neighbourhood of the variant and inside the grid,
    was on fire in the pre-tick grid, and else it stays a tree. *)
Theorem tree_ignites_or_stays (e : Engine) (rng : Rng) (x y : Z) :
  wf_engine e →
  inb (engine_size e) (x, y) →
  np_get (engine_grid e) x y = Some 1 →
  ∃ e' rng', engine_step e rng = Some (e', rng') ∧
    let r := draw_at (engine_grid e) (engine_size e) rng x y in
    let burning :=
      fire_neighbour (neighbourhood e) (engine_grid e) (engine_size e) x y in
    ((r < engine_p_fire e)%Q → np_get (engine_grid e') x y = Some 2) ∧
    (¬ (r < engine_p_fire e)%Q → burning → np_get (engine_grid e') x y = Some 2) ∧
    (¬ (r < engine_p_fire e)%Q → ¬ burning → np_get (engine_grid e') x y = Some 1).
Proof.
  intros Hwf Hc Htree.
  destruct (tree_cell_next e rng x y Hwf Hc Htree) as (e' & rng' & Hstep & Hget).
  exists e', rng'. split; [exact Hstep|]. simpl. rewrite Hget.
  pose proof (fire_among_spec (engine_grid e) (engine_size e) (neighbourhood e) x y)
    as Hnear.
  fold (fire_neighbour (neighbourhood e) (engine_grid e) (engine_size e) x y) in Hnear.
  destruct (Qltb _ _) eqn:Hdraw.
  - apply Qltb_lt in Hdraw. tauto.
  - apply Qltb_ge in Hdraw.
    destruct (fire_among _ _ _ _ _) eqn:Hfire.
    + tauto.
    + split; [tauto|]. split; [|done]. intros _ Hb. apply Hnear in Hb. done.
Qed.

Lemma tree_ignites_or_stays_witness :
  ∃ e' rng', engine_step tree_example (const_rng (1 # 2)) = Some (e', rng') ∧
    let r := draw_at (engine_grid tree_example) 3 (const_rng (1 # 2)) 1 0 in
    let burning := fire_neighbour von_neumann (engine_grid tree_example) 3 1 0 in
    ((r < 1 # 4)%Q → np_get (engine_grid e') 1 0 = Some 2) ∧
    (¬ (r < 1 # 4)%Q → burning → np_get (engine_grid e') 1 0 = Some 2) ∧
    (¬ (r < 1 # 4)%Q → ¬ burning → np_get (engine_grid e') 1 0 = Some 1).
Proof.
  apply (tree_ignites_or_stays tree_example (const_rng (1 # 2)) 1 0).
  - split; [reflexivity | repeat constructor].
  - unfold inb. simpl. lia.
  - reflexivity.
Defined.

(** *** C2 *)

(** C2: a cell on fire at the start of a tick is empty in the next grid,
    whatever the draws; in the statistics variant the tick adds to [burned]
    one for each cell that was on fire. *)
Theorem fire_burns_out (e : Engine) (rng : Rng) (x y : Z) :
  wf_engine e →
  inb (engine_size e) (x, y) →
  np_get (engine_grid e) x y = Some 2 →
  ∃ e' rng', engine_step e rng = Some (e', rng')
    ∧ np_get (engine_grid e') x y = Some 0
    ∧ engine_burned e'
      = (λ b, b + Z.of_nat (length (fires e))) <$> engine_burned e.
Proof.
  intros Hwf Hc Hfire.
  destruct (engine_step_spec e rng Hwf) as (e' & Hstep & Hgrid & _ & Hburned).
  eexists e', _. split; [exact Hstep|].
  assert (Hwfg : wf_grid (engine_size e) (engine_grid e))
    by (destruct e; [done | apply Hwf]).
  split.
  - pose proof (next_grid_get (neighbourhood e) (engine_grid e) (engine_size e)
                  (engine_p_tree e) (engine_p_fire e)
                  (draw_at (engine_grid e) (engine_size e) rng) (x, y) Hwfg Hc) as Hget.
    rewrite <- Hgrid in Hget. simpl in Hget. rewrite Hget.
    pose proof (snap_get _ _ (x, y) Hwfg Hc) as Hsnap. simpl in Hsnap.
    rewrite Hfire in Hsnap. injection Hsnap as Hsnap.
    unfold next_state, outcome. by rewrite <- Hsnap.
  - rewrite Hburned. unfold fires.
    by rewrite (burnt_filter (engine_size e)) by (done || apply Forall_inb_cells).
Qed.

Lemma fire_burns_out_witness :
  ∃ e' rng', engine_step fire_example (const_rng 0) = Some (e', rng')
    ∧ np_get (engine_grid e') 1 1 = Some 0
    ∧ engine_burned e' = Some (7 + 2).
Proof.
  apply (fire_burns_out fire_example (const_rng 0) 1 1).
  - split; (split; [reflexivity | repeat constructor]).
  - unfold inb. simpl. lia.
  - reflexivity.
Defined.

(** *** C3 *)

(** C3: with the draws assigned to the cells, visiting the cells in any order
    gives the result of visiting them in the order of [step], and each cell of
    that result is what the rule gives from the pre-tick grid alone; the tick
    of the source is this tick for the draws its scan hands out. *)
Theorem tick_order_independent (e : Engine) (rng : Rng) (assign : Z → Z → Q)
    (order : list (Z * Z)) :
  wf_engine e →
  order ≡ₚ cells (engine_size e) →
  (∃ e', engine_step_in_order e assign order = Some e'
     ∧ engine_step_in_order e assign (cells (engine_size e)) = Some e'
     ∧ ∀ c, inb (engine_size e) c →
         np_get (engine_grid e') c.1 c.2
         = Some (next_state (neighbourhood e) (engine_grid e) (engine_size e)
                   (engine_p_tree e) (engine_p_fire e) c (assign c.1 c.2)))
  ∧ (∃ e' rng', engine_step e rng = Some (e', rng')
       ∧ engine_step_in_order e
           (draw_at (engine_grid e) (engine_size e) rng) order = Some e').
Proof.
  intros Hwf Hperm. split.
  - destruct (engine_step_in_order_spec e assign order Hwf Hperm)
      as (e' & Horder & Hscan & Hgrid).
    exists e'. split; [done|]. split; [done|].
    intros c Hc. rewrite Hgrid. apply next_grid_get; [|done].
    destruct e; [done | apply Hwf].
  - by apply engine_step_as_in_order.
Qed.

Lemma tick_order_independent_witness :
  (∃ e', engine_step_in_order tree_example (λ _ _, 1 # 2)
           [(2, 2); (2, 1); (2, 0); (1, 2); (1, 1); (1, 0); (0, 2); (0, 1); (0, 0)]
         = Some e'
     ∧ engine_step_in_order tree_example (λ _ _, 1 # 2) (cells 3) = Some e'
     ∧ ∀ c, inb 3 c →
         np_get (engine_grid e') c.1 c.2
         = Some (next_state von_neumann (engine_grid tree_example) 3
                   (1 # 2) (1 # 4) c (1 # 2)))
  ∧ (∃ e' rng', engine_step tree_example (const_rng 0) = Some (e', rng')
       ∧ engine_step_in_order tree_example
           (draw_at (engine_grid tree_example) 3 (const_rng 0))
           [(2, 2); (2, 1); (2, 0); (1, 2); (1, 1); (1, 0); (0, 2); (0, 1); (0, 0)]
         = Some e').
Proof.
  apply (tick_order_independent tree_example (const_rng 0) (λ _ _, 1 # 2)
           [(2, 2); (2, 1); (2, 0); (1, 2); (1, 1); (1, 0); (0, 2); (0, 1); (0, 0)]).
  - split; [reflexivity | repeat constructor].
  - symmetry. apply (Permutation_rev (cells 3)).
Defined.

(** ** The loops of [move_player] *)

Section Paint.
Variable n : Z.
Variable f : Z * Z → option Z.
Hypothesis f_inb : ∀ c, is_Some (f c) → inb n c.

Lemma get_write_other a c c' :
  inb n c → c ≠ c' → np_get (write a c' (f c')) c.1 c.2 = np_get a c.1 c.2.
Proof.
  intros Hc Hne. destruct (f c') as [v|] eqn:Hf; [|done].
  apply (get_write_ne n); [|done..]. apply f_inb. by rewrite Hf.
Qed.

Lemma paint_wf l a : wf_grid n a → wf_grid n (paint f l a).
Proof.
  revert a. induction l as [|c l IH]; intros a Hwf; simpl; [done|].
  by apply IH, write_wf.
Qed.

Lemma paint_notin l a c :
  inb n c → c ∉ l → np_get (paint f l a) c.1 c.2 = np_get a c.1 c.2.
Proof.
  revert a. induction l as [|c' l IH]; intros a Hc Hnotin; simpl; [done|].
  apply not_elem_of_cons in Hnotin as [Hne Hnotin].
  rewrite IH by done. by apply get_write_other.
Qed.

Lemma paint_in l a c :
  wf_grid n a → inb n c → c ∈ l →
  np_get (paint f l a) c.1 c.2 = Some (default (default 0 (np_get a c.1 c.2)) (f c)).
Proof.
  revert a. induction l as [|c' l IH]; intros a Hwf Hc Hin; [by apply elem_of_nil in Hin|].
  simpl. destruct (np_get_total n a c Hwf Hc) as [v Hv].
  destruct (decide (c ∈ l)) as [Hl|Hl].
  - rewrite IH by (done || by apply write_wf).
    destruct (decide (c = c')) as [<-|Hne].
    + rewrite (get_write_eq n a c (f c) v) by done. rewrite Hv. simpl.
      by destruct (f c).
    + by rewrite get_write_other.
  - apply elem_of_cons in Hin as [<-|Hin]; [|done].
    rewrite paint_notin by done.
    rewrite (get_write_eq n a c (f c) v) by done. by rewrite Hv.
Qed.
End Paint.

Lemma douse_grid_inb n grid c : is_Some (douse_grid n grid c) → inb n c.
Proof. unfold douse_grid. destruct (decide _) as [[? _]|]; [done|]. by intros [? ?]. Qed.

Lemma douse_overlay_inb n grid c : is_Some (douse_overlay n grid c) → inb n c.
Proof. unfold douse_overlay. destruct (decide _) as [[? _]|]; [done|]. by intros [? ?]. Qed.

Lemma douse_spec n grid0 c grid extinguished overlay :
  wf_grid n grid → wf_grid n overlay →
  (inb n c → np_get grid c.1 c.2 = np_get grid0 c.1 c.2) →
  FFGame.douse n c.1 c.2 (grid, extinguished, overlay)
  = Some (write grid c (douse_grid n grid0 c),
          extinguished + (if decide (doused n grid0 c) then 1 else 0),
          write overlay c (douse_overlay n grid0 c)).
Proof.
  intros Hg Ho Hsame. unfold FFGame.douse, douse_grid, douse_overlay.
  fold (inbb n c.1 c.2). destruct (inbb n c.1 c.2) eqn:Hb.
  - apply inbb_inb in Hb. rewrite <- surjective_pairing in Hb.
    specialize (Hsame Hb).
    destruct (np_get_total n grid c Hg Hb) as [v Hv]. rewrite Hv. simpl.
    destruct (v =? 2) eqn:E.
    + apply Z.eqb_eq in E. subst v.
      destruct (decide (doused n grid0 c)) as [Hd|Hd].
      * rewrite (np_set_upd n grid c 0 Hg Hb). simpl.
        by rewrite (np_set_upd n overlay c 2 Ho Hb).
      * destruct Hd. split; [done|]. unfold on_fire. congruence.
    + apply Z.eqb_neq in E.
      destruct (decide (doused n grid0 c)) as [[_ Hf]|Hd].
      * unfold on_fire in Hf. congruence.
      * simpl. by rewrite Z.add_0_r.
  - destruct (decide (doused n grid0 c)) as [[Hc _]|Hd].
    + rewrite (surjective_pairing c) in Hc. apply inbb_inb in Hc. congruence.
    + simpl. by rewrite Z.add_0_r.
Qed.

Lemma douse_loop_spec n grid0 l :
  NoDup l → ∀ grid extinguished overlay,
  wf_grid n grid → wf_grid n overlay →
  (∀ c, c ∈ l → inb n c → np_get grid c.1 c.2 = np_get grid0 c.1 c.2) →
  for_each l (λ c, FFGame.douse n c.1 c.2) (grid, extinguished, overlay)
  = Some (paint (douse_grid n grid0) l grid,
          extinguished + Z.of_nat (length (filter (doused n grid0) l)),
          paint (douse_overlay n grid0) l overlay).
Proof.
  induction 1 as [|c l Hnotin Hnd IH]; intros grid extinguished overlay Hg Ho Hsame.
  - simpl. by rewrite Z.add_0_r.
  - rewrite for_each_cons. cbv beta.
    assert (Hhead : inb n c → np_get grid c.1 c.2 = np_get grid0 c.1 c.2)
      by (apply Hsame; left).
    rewrite (douse_spec n grid0 c grid extinguished overlay Hg Ho Hhead). simpl.
    rewrite IH.
    + rewrite filter_cons. do 3 f_equal.
      destruct (decide (doused n grid0 c)); simpl; lia.
    + by apply write_wf.
    + by apply write_wf.
    + intros c' Hin Hc'. rewrite <- Hsame by (done || set_solver).
      apply (get_write_other n); [apply douse_grid_inb | done | set_solver].
Qed.

Lemma elem_of_footprint p c :
  c ∈ footprint p ↔ (p.1 ≤ c.1 < p.1 + 3) ∧ (p.2 ≤ c.2 < p.2 + 3).
Proof. unfold footprint. by rewrite elem_of_list_prod, !elem_of_seqZ. Qed.

Lemma NoDup_footprint p : NoDup (footprint p).
Proof. apply NoDup_list_prod; apply NoDup_seqZ. Qed.

Lemma move_player_spec self direction :
  let n := FFGame.grid_size self in
  let p := FFGame.reposition self direction in
  wf_game self →
  FFGame.move_player self direction
  = Some (FFGame.mk n (FFGame.p_tree self) (FFGame.p_fire self)
            (paint (douse_grid n (FFGame.grid self)) (footprint p) (FFGame.grid self))
            p (FFGame.extinguished self + Z.of_nat (length (fires_under self p)))
            (FFGame.burned self)
            (paint (douse_overlay n (FFGame.grid self)) (footprint p)
               (FFGame.extinguish_overlay self))
            (FFGame.time_step self) (FFGame.burned_history self)
            (FFGame.extinguished_history self) (FFGame.trees_history self)
            (FFGame.fire_percent_history self) (FFGame.tree_percent_history self)).
Proof.
  intros n p [Hg Ho]. unfold FFGame.move_player. fold p.
  destruct p as [x y] eqn:Hp.
  rewrite (for_each_nested _ _ (FFGame.douse (FFGame.grid_size self))).
  change (list_prod (seqZ x 3) (seqZ y 3)) with (footprint (x, y)).
  by rewrite (douse_loop_spec n (FFGame.grid self) _ (NoDup_footprint (x, y))).
Qed.

(** The grid and the overlay once the footprint [fp] has been doused. *)
Lemma doused_grid_get n grid fp c :
  wf_grid n grid → inb n c →
  np_get (paint (douse_grid n grid) fp grid) c.1 c.2
  = if decide (c ∈ fp ∧ on_fire grid c) then Some 0 else np_get grid c.1 c.2.
Proof.
  intros Hwf Hc. destruct (np_get_total n _ c Hwf Hc) as [v Hv].
  destruct (decide (c ∈ fp)) as [Hin|Hout].
  - rewrite (paint_in n) by (done || apply douse_grid_inb).
    unfold douse_grid, doused. rewrite Hv.
    destruct (decide (inb n c ∧ on_fire grid c)) as [[_ Hf]|Hnf].
    + by rewrite decide_True.
    + rewrite decide_False; [done | tauto].
  - rewrite (paint_notin n) by (done || apply douse_grid_inb).
    rewrite decide_False; [done | tauto].
Qed.

Lemma doused_overlay_get n grid overlay fp c :
  wf_grid n overlay → inb n c →
  np_get (paint (douse_overlay n grid) fp overlay) c.1 c.2
  = if decide (c ∈ fp ∧ on_fire grid c) then Some 2 else np_get overlay c.1 c.2.
Proof.
  intros Hwf Hc. destruct (np_get_total n _ c Hwf Hc) as [v Hv].
  destruct (decide (c ∈ fp)) as [Hin|Hout].
  - rewrite (paint_in n) by (done || apply douse_overlay_inb).
    unfold douse_overlay, doused. rewrite Hv.
    destruct (decide (inb n c ∧ on_fire grid c)) as [[_ Hf]|Hnf].
    + by rewrite decide_True.
    + rewrite decide_False; [done | tauto].
  - rewrite (paint_notin n) by (done || apply douse_overlay_inb).
    rewrite decide_False; [done | tauto].
Qed.

(** *** C4 *)

(** C4: for every set of directions, the empty one included, [move_player]
    moves the anchor and then, at each cell of the grid under the 3x3
    footprint: a cell on fire becomes empty and its overlay counter becomes 2,
    any other cell and its counter are left as they were; [extinguished]
    grows by the number of cells that were on fire there.  Cells outside the
    footprint are untouched. *)
Theorem move_extinguishes (self : FFGame.ForestFireGame) (direction : gset string) :
  wf_game self →
  ∃ self', FFGame.move_player self direction = Some self'
    ∧ FFGame.player_pos self' = FFGame.reposition self direction
    ∧ (∀ c, inb (FFGame.grid_size self) c → c ∈ footprint (FFGame.player_pos self') →
         on_fire (FFGame.grid self) c →
         np_get (FFGame.grid self') c.1 c.2 = Some 0
         ∧ np_get (FFGame.extinguish_overlay self') c.1 c.2 = Some 2)
    ∧ (∀ c, inb (FFGame.grid_size self) c →
         ¬ (c ∈ footprint (FFGame.player_pos self') ∧ on_fire (FFGame.grid self) c) →
         np_get (FFGame.grid self') c.1 c.2 = np_get (FFGame.grid self) c.1 c.2
         ∧ np_get (FFGame.extinguish_overlay self') c.1 c.2
           = np_get (FFGame.extinguish_overlay self) c.1 c.2)
    ∧ FFGame.extinguished self'
      = FFGame.extinguished self
        + Z.of_nat (length (fires_under self (FFGame.player_pos self'))).
Proof.
  intros Hwf. eexists. rewrite move_player_spec by done. split; [done|].
  cbn [FFGame.grid FFGame.player_pos FFGame.extinguish_overlay FFGame.extinguished].
  destruct Hwf as [Hg Ho].
  set (n := FFGame.grid_size self) in *. set (p := FFGame.reposition self direction).
  split; [done|]. split; [|split; [|done]].
  - intros c Hc Hin Hfire.
    rewrite (doused_grid_get n), (doused_overlay_get n) by done.
    by rewrite !decide_True by done.
  - intros c Hc Hnot.
    rewrite (doused_grid_get n), (doused_overlay_get n) by done.
    by rewrite !decide_False by done.
Qed.

Lemma move_extinguishes_witness :
  ∃ self', FFGame.move_player agent_example ∅ = Some self'
    ∧ FFGame.player_pos self' = FFGame.reposition agent_example ∅
    ∧ (∀ c, inb 4 c → c ∈ footprint (FFGame.player_pos self') →
         on_fire (FFGame.grid agent_example) c →
         np_get (FFGame.grid self') c.1 c.2 = Some 0
         ∧ np_get (FFGame.extinguish_overlay self') c.1 c.2 = Some 2)
    ∧ (∀ c, inb 4 c →
         ¬ (c ∈ footprint (FFGame.player_pos self') ∧ on_fire (FFGame.grid agent_example) c) →
         np_get (FFGame.grid self') c.1 c.2 = np_get (FFGame.grid agent_example) c.1 c.2
         ∧ np_get (FFGame.extinguish_overlay self') c.1 c.2
           = np_get (FFGame.extinguish_overlay agent_example) c.1 c.2)
    ∧ FFGame.extinguished self'
      = 0 + Z.of_nat (length (fires_under agent_example (FFGame.player_pos self'))).
Proof.
  apply (move_extinguishes agent_example ∅).
  split; (split; [reflexivity | repeat constructor]).
Defined.

(** ** Sequences of ticks and moves *)

Lemma filter_ext_in {A} (P Q : A → Prop) `{∀ x, Decision (P x)} `{∀ x, Decision (Q x)}
    (l : list A) :
  (∀ x, x ∈ l → P x ↔ Q x) → filter P l = filter Q l.
Proof.
  induction l as [|a l IH]; intros HPQ; [done|].
  rewrite !filter_cons, IH by (intros; apply HPQ; by right).
  destruct (decide (P a)) as [HP|HP], (decide (Q a)) as [HQ|HQ]; try done;
    exfalso; apply (HPQ a) in HP || apply (HPQ a) in HQ; done || by left.
Qed.

Lemma np_decay_wf n a : wf_grid n a → wf_grid n (np_decay a).
Proof.
  intros [Hlen Hrows]. unfold np_decay. split.
  - by rewrite length_map.
  - apply Forall_map. eapply Forall_impl; [exact Hrows|].
    intros row Hrow. simpl. by rewrite length_map.
Qed.

(** A tick counts in [burned], and only there, each cell that was on fire:
    all of them leave the fire state. *)
Lemma tick_departures g rng :
  wf_game g →
  ∃ g' rng', FFGame.step g rng = Some (g', rng')
    ∧ wf_game g' ∧ FFGame.grid_size g' = FFGame.grid_size g
    ∧ FFGame.burned g'
      = FFGame.burned g
        + Z.of_nat (length (left_fire (FFGame.grid_size g) (FFGame.grid g) (FFGame.grid g')))
    ∧ FFGame.extinguished g' = FFGame.extinguished g.
Proof.
  intros [Hg Ho]. eexists _, _. rewrite FFGame_step_spec by done.
  split; [done|].
  cbn [FFGame.finish_step FFGame.grid FFGame.grid_size FFGame.burned
       FFGame.extinguished FFGame.extinguish_overlay].
  set (n := FFGame.grid_size g) in *.
  split; [|split; [done|split; [|done]]].
  - split; [by apply next_grid_wf | by apply np_decay_wf].
  - f_equal. rewrite (burnt_filter n) by (done || apply Forall_inb_cells).
    do 2 f_equal. unfold left_fire. apply filter_ext_in.
    intros c Hc. apply elem_of_cells in Hc. split; [|tauto].
    intros Hfire. split; [done|]. unfold on_fire in *.
    rewrite next_grid_get by done.
    pose proof (snap_get _ n c Hg Hc) as Hsnap. rewrite Hfire in Hsnap.
    injection Hsnap as Hsnap. unfold next_state, outcome. by rewrite <- Hsnap.
Qed.

(** A move counts in [extinguished], and only there, each cell that it takes
    out of the fire state. *)
Lemma move_departures g direction :
  wf_game g →
  ∃ g', FFGame.move_player g direction = Some g'
    ∧ wf_game g' ∧ FFGame.grid_size g' = FFGame.grid_size g
    ∧ FFGame.extinguished g'
      = FFGame.extinguished g
        + Z.of_nat (length (left_fire (FFGame.grid_size g) (FFGame.grid g) (FFGame.grid g')))
    ∧ FFGame.burned g' = FFGame.burned g.
Proof.
  intros [Hg Ho]. eexists. rewrite move_player_spec by done.
  split; [done|].
  cbn [FFGame.grid FFGame.grid_size FFGame.burned FFGame.extinguished
       FFGame.extinguish_overlay].
  set (n := FFGame.grid_size g) in *.
  set (p := FFGame.reposition g direction).
  split; [|split; [done|split; [|done]]].
  - split; apply (paint_wf n); done.
  - do 2 f_equal. apply Permutation_length, NoDup_Permutation.
    + apply NoDup_filter, NoDup_footprint.
    + apply NoDup_filter, NoDup_cells.
    + intros c. unfold fires_under, left_fire. fold n.
      rewrite !list_elem_of_filter, elem_of_cells. unfold doused.
      split.
      * intros [[Hc Hfire] Hin]. split; [|done]. split; [done|].
        unfold on_fire at 1. rewrite (doused_grid_get n) by done.
        by rewrite decide_True.
      * intros [[Hfire Hgone] Hc]. split; [done|].
        destruct (decide (c ∈ footprint p)) as [Hin|Hout]; [done|].
        destruct Hgone. unfold on_fire. rewrite (doused_grid_get n) by done.
        rewrite decide_False; [done | tauto].
Qed.

(** *** C5 *)

(** C5: along every sequence of ticks and moves, [burned] grows by exactly the
    number of times a cell left the fire state during a tick and
    [extinguished] by exactly the number of times a cell left it during a
    move: each departure is counted once, in one counter.  A cell doused by a
    move is empty when the next tick scans it, so that tick does not count it. *)
Theorem counters_exclusive (g : FFGame.ForestFireGame) (rng : Rng) (ops : list Op) :
  wf_game g →
  ∃ g' rng', run ops (g, rng) = Some (g', rng')
    ∧ FFGame.burned g' = FFGame.burned g + (departures ops (g, rng)).1
    ∧ FFGame.extinguished g' = FFGame.extinguished g + (departures ops (g, rng)).2.
Proof.
  revert g rng. induction ops as [|op ops IH]; intros g rng Hwf.
  - exists g, rng. simpl. split; [done|]. lia.
  - unfold run. rewrite for_each_cons. fold (run ops). destruct op as [|direction].
    + destruct (tick_departures g rng Hwf) as (g1 & rng1 & Hstep & Hwf1 & _ & Hb & He).
      destruct (IH g1 rng1 Hwf1) as (g' & rng' & Hrun & Hb' & He').
      exists g', rng'. simpl. rewrite Hstep. simpl.
      split; [done|]. rewrite Hb', He', Hb, He. split; lia.
    + destruct (move_departures g direction Hwf) as (g1 & Hmove & Hwf1 & _ & He & Hb).
      destruct (IH g1 rng Hwf1) as (g' & rng' & Hrun & Hb' & He').
      exists g', rng'. simpl. rewrite Hmove. simpl.
      split; [done|]. rewrite Hb', He', Hb, He. split; lia.
Qed.

Lemma counters_exclusive_witness :
  ∃ g' rng', run [Move ∅; Tick] (agent_example, const_rng (1 # 2)) = Some (g', rng')
    ∧ FFGame.burned g'
      = 0 + (departures [Move ∅; Tick] (agent_example, const_rng (1 # 2))).1
    ∧ FFGame.extinguished g'
      = 0 + (departures [Move ∅; Tick] (agent_example, const_rng (1 # 2))).2.
Proof.
  apply (counters_exclusive agent_example (const_rng (1 # 2)) [Move ∅; Tick]).
  split; (split; [reflexivity | repeat constructor]).
Defined.

(** The fire at (1, 1) is doused by the move and counted in [extinguished]
    alone; the fire at (3, 3) burns out at the tick and is counted in [burned]
    alone, after it has set the tree at (2, 2) alight. *)
Example doused_then_tick :
  (st ← run [Move ∅; Tick] (agent_example, const_rng (1 # 2));
   Some (FFGame.get_stats st.1, FFGame.grid st.1))
  = Some ((1, 1, 1), [[0; 1; 0; 0]; [0; 0; 0; 0]; [0; 0; 2; 0]; [0; 0; 0; 0]]).
Proof. vm_compute. reflexivity. Qed.

(** ** The anchor of the agent *)

Lemma reposition_nudge g direction :
  anchor_ok (FFGame.grid_size g) (FFGame.player_pos g) →
  FFGame.reposition g direction = nudge (FFGame.grid_size g) direction (FFGame.player_pos g).
Proof.
  unfold anchor_ok, FFGame.reposition, nudge, clamp.
  destruct (FFGame.player_pos g) as [x y]. simpl. intros [Hx Hy].
  destruct (bool_decide ("UP" ∈ direction)), (bool_decide ("DOWN" ∈ direction)),
    (bool_decide ("LEFT" ∈ direction)), (bool_decide ("RIGHT" ∈ direction)); simpl;
    repeat match goal with
    | |- context [ ?a >? ?b ] => destruct (Z.gtb_spec a b)
    | |- context [ ?a <? ?b ] => destruct (Z.ltb_spec a b)
    end; f_equal; lia.
Qed.

Lemma nudge_ok n direction p : anchor_ok n p → anchor_ok n (nudge n direction p).
Proof.
  unfold anchor_ok, nudge, clamp. destruct p as [x y]. simpl. intros [Hx Hy].
  destruct (bool_decide ("UP" ∈ direction)), (bool_decide ("DOWN" ∈ direction)),
    (bool_decide ("LEFT" ∈ direction)), (bool_decide ("RIGHT" ∈ direction));
    simpl; lia.
Qed.

Lemma anchor_ok_footprint n p c : anchor_ok n p → c ∈ footprint p → inb n c.
Proof.
  unfold anchor_ok, inb. rewrite elem_of_footprint. lia.
Qed.

(** *** C6 *)

(** C6, amended: when the anchor starts within [0, size - 3] on both axes,
    then along every sequence of calls of [move_player], with any sets of
    directions, each call moves the anchor as the clamped steps of the
    directions present say, the anchor stays within [0, size - 3], and every
    cell of the 3x3 footprint is a cell of the grid. *)
Theorem anchor_stays_clamped (g : FFGame.ForestFireGame) (moves : list (gset string)) :
  wf_game g →
  anchor_ok (FFGame.grid_size g) (FFGame.player_pos g) →
  ∃ g', run_moves moves g = Some g'
    ∧ FFGame.player_pos g'
      = foldl (λ p direction, nudge (FFGame.grid_size g) direction p)
          (FFGame.player_pos g) moves
    ∧ anchor_ok (FFGame.grid_size g) (FFGame.player_pos g')
    ∧ ∀ c, c ∈ footprint (FFGame.player_pos g') → inb (FFGame.grid_size g) c.
Proof.
  revert g. induction moves as [|direction moves IH]; intros g Hwf Hok.
  - exists g. split; [done|]. split; [done|]. split; [done|].
    intros c. by apply anchor_ok_footprint.
  - unfold run_moves. rewrite for_each_cons. fold (run_moves moves).
    destruct (move_departures g direction Hwf) as (g1 & Hmove & Hwf1 & Hsize & _).
    assert (Hpos : FFGame.player_pos g1
                   = nudge (FFGame.grid_size g) direction (FFGame.player_pos g)).
    { rewrite move_player_spec in Hmove by done. injection Hmove as <-.
      by apply reposition_nudge. }
    rewrite Hmove. simpl.
    destruct (IH g1 Hwf1) as (g' & Hrun & Hfinal & Hok' & Hfp).
    { rewrite Hsize, Hpos. by apply nudge_ok. }
    exists g'. rewrite Hsize, Hpos in *. done.
Qed.

Lemma anchor_stays_clamped_witness :
  ∃ g', run_moves [{["DOWN"]}; {["DOWN"; "RIGHT"]}; {["UP"; "DOWN"]}] roaming_example
        = Some g'
    ∧ FFGame.player_pos g'
      = foldl (λ p direction, nudge 5 direction p) (2, 2)
          [{["DOWN"]}; {["DOWN"; "RIGHT"]}; {["UP"; "DOWN"]}]
    ∧ anchor_ok 5 (FFGame.player_pos g')
    ∧ ∀ c, c ∈ footprint (FFGame.player_pos g') → inb 5 c.
Proof.
  apply (anchor_stays_clamped roaming_example
           [{["DOWN"]}; {["DOWN"; "RIGHT"]}; {["UP"; "DOWN"]}]).
  - split; (split; [reflexivity | repeat constructor]).
  - unfold anchor_ok. simpl. lia.
Defined.

(** On a grid of size 4 the agent starts at (2, 2); a step to the left takes
    it to (2, 1), and its footprint then covers row 4, outside the grid. *)
Lemma anchor_escapes_small_grid :
  ∃ g g', FFGame.init gibibyte 4 (1 # 2) (1 # 4) = Some g
    ∧ run_moves [{["LEFT"]}] g = Some g'
    ∧ FFGame.player_pos g' = (2, 1)
    ∧ ¬ anchor_ok 4 (FFGame.player_pos g')
    ∧ (4, 1) ∈ footprint (FFGame.player_pos g') ∧ ¬ inb 4 (4, 1).
Proof.
  eexists _, _. split; [reflexivity|]. split; [vm_compute; reflexivity|].
  split; [reflexivity|]. split; [|split].
  - unfold anchor_ok. simpl. lia.
  - apply elem_of_footprint. simpl. lia.
  - unfold inb. simpl. lia.
Qed.

(** ** Construction *)

Lemma np_zeros_spec mem n a :
  np_zeros mem n = Some a
  ↔ (0 ≤ n ∧ n * n * np_itemsize ≤ np_intp_max ∧ n * n * np_itemsize ≤ mem)
    ∧ a = replicate (Z.to_nat n) (replicate (Z.to_nat n) 0).
Proof.
  unfold np_zeros.
  destruct (Z.ltb_spec n 0); [split; [done | intros [[? _] _]; lia]|].
  destruct (Z.ltb_spec np_intp_max (n * n * np_itemsize));
    [split; [done | intros [(_ & ? & _) _]; lia]|].
  destruct (Z.ltb_spec mem (n * n * np_itemsize));
    [split; [done | intros [(_ & _ & ?) _]; lia]|].
  split; [by intros [= <-] | by intros [_ ->]].
Qed.

Lemma zeros_wf n : wf_grid n (replicate (Z.to_nat n) (replicate (Z.to_nat n) 0)).
Proof.
  split; [apply length_replicate|].
  apply Forall_replicate. apply length_replicate.
Qed.

Lemma zeros_get n c :
  inb n c →
  np_get (replicate (Z.to_nat n) (replicate (Z.to_nat n) 0)) c.1 c.2 = Some 0.
Proof.
  intros [Hi Hj]. rewrite np_get_nonneg by lia.
  rewrite lookup_replicate_2 by lia. simpl. apply lookup_replicate_2. lia.
Qed.

Lemma init_wf mem n pt pf g : FFGame.init mem n pt pf = Some g → wf_game g.
Proof.
  unfold FFGame.init. destruct (np_zeros mem n) as [a|] eqn:Ha; [|done]. simpl.
  apply np_zeros_spec in Ha as [_ ->]. intros [= <-].
  split; apply zeros_wf.
Qed.

(** From size 5 on, the agent starts with its footprint inside the grid. *)
Lemma init_anchor_ok mem n pt pf g :
  FFGame.init mem n pt pf = Some g → 5 ≤ n →
  anchor_ok (FFGame.grid_size g) (FFGame.player_pos g).
Proof.
  unfold FFGame.init. destruct (np_zeros mem n) as [a|]; [|done]. simpl.
  intros [= <-] Hn. unfold anchor_ok. simpl. Z.div_mod_to_equations. lia.
Qed.

(** *** C10 *)

(** C10: right after construction every cell of the grid is empty, every
    counter of the overlay is zero, [burned] and [extinguished] are zero, the
    five histories are empty, [time_step] is zero and the agent is anchored at
    (size // 2, size // 2), which is not within [0, size - 3] when size < 5.
    The grid of a [ForestFireModel] built with the same arguments is empty
    too. *)
Theorem fresh_game_is_blank (mem n : Z) (pt pf : Q) (g : FFGame.ForestFireGame) :
  FFGame.init mem n pt pf = Some g →
  wf_game g
  ∧ FFGame.grid_size g = n
  ∧ (∀ c, inb n c → np_get (FFGame.grid g) c.1 c.2 = Some 0)
  ∧ (∀ c, inb n c → np_get (FFGame.extinguish_overlay g) c.1 c.2 = Some 0)
  ∧ FFGame.burned g = 0 ∧ FFGame.extinguished g = 0
  ∧ FFGame.burned_history g = [] ∧ FFGame.extinguished_history g = []
  ∧ FFGame.trees_history g = [] ∧ FFGame.fire_percent_history g = []
  ∧ FFGame.tree_percent_history g = []
  ∧ FFGame.time_step g = 0
  ∧ FFGame.player_pos g = (n `div` 2, n `div` 2)
  ∧ (n < 5 → ¬ anchor_ok n (FFGame.player_pos g))
  ∧ ∃ m, FF.init mem n pt pf = Some m
      ∧ wf_grid n (FF.grid m)
      ∧ ∀ c, inb n c → np_get (FF.grid m) c.1 c.2 = Some 0.
Proof.
  intros Hinit. pose proof (init_wf mem n pt pf g Hinit) as Hwf.
  unfold FFGame.init, FF.init in *.
  destruct (np_zeros mem n) as [a|] eqn:Ha; [|done]. simpl in *.
  apply np_zeros_spec in Ha as [Hn ->]. injection Hinit as <-. simpl.
  repeat split; try done; try apply Hwf; try apply zeros_get.
  - intros Hsmall [Hx _]. simpl in Hx. Z.div_mod_to_equations. lia.
  - eexists. split; [done|]. simpl. split; [apply zeros_wf | apply zeros_get].
Qed.

Lemma fresh_game_is_blank_witness :
  ∃ g, FFGame.init gibibyte 4 (1 # 20) (1 # 10000) = Some g
    ∧ FFGame.player_pos g = (2, 2)
    ∧ ¬ anchor_ok 4 (FFGame.player_pos g)
    ∧ FFGame.burned g = 0 ∧ FFGame.extinguished g = 0 ∧ FFGame.time_step g = 0.
Proof.
  eexists. split; [reflexivity|].
  destruct (fresh_game_is_blank gibibyte 4 (1 # 20) (1 # 10000) _ eq_refl)
    as (_ & _ & _ & _ & Hb & He & _ & _ & _ & _ & _ & Ht & Hpos & Hanchor & _).
  split; [exact Hpos|]. split; [apply Hanchor; lia|]. done.
Defined.

(** *** C8 *)

(** A probability of 2, and a grid of size 0, are accepted; a gibibyte of
    memory is more than the arrays need. *)
Lemma invalid_configuration_accepted :
  invalid_configuration 50 2 (1 # 10000)
  ∧ is_Some (FFGame.init gibibyte 50 2 (1 # 10000))
  ∧ is_Some (FF.init gibibyte 50 2 (1 # 10000))
  ∧ invalid_configuration 0 (1 # 20) (1 # 10000)
  ∧ is_Some (FFGame.init gibibyte 0 (1 # 20) (1 # 10000))
  ∧ is_Some (FF.init gibibyte 0 (1 # 20) (1 # 10000)).
Proof.
  repeat split; try (by eexists).
  - right. left. intros [_ H]. by apply Qle_bool_iff in H.
  - left. lia.
Qed.

Lemma np_zeros_is_Some mem n :
  is_Some (np_zeros mem n)
  ↔ 0 ≤ n ∧ n * n * np_itemsize ≤ np_intp_max ∧ n * n * np_itemsize ≤ mem.
Proof.
  split.
  - intros [a Ha]. by apply np_zeros_spec in Ha as [? _].
  - intros H. eexists. by apply np_zeros_spec.
Qed.

(** C8, amended: the constructors check nothing and know no
    InvalidConfiguration error.  Whether they succeed depends on the grid
    size alone, never on the two probabilities: they succeed exactly when
    numpy builds the (size, size) arrays, that is when the size is not
    negative and the arrays are neither too big for the platform nor refused
    by the allocator.  So a size of 0 is accepted, any probabilities are
    stored as given, and a size from 2**30 on fails although it satisfies the
    constraints. *)
Theorem construction_unchecked (mem n : Z) (pt pf : Q) :
  (is_Some (FFGame.init mem n pt pf)
   ↔ 0 ≤ n ∧ n * n * np_itemsize ≤ np_intp_max ∧ n * n * np_itemsize ≤ mem)
  ∧ (is_Some (FF.init mem n pt pf)
     ↔ 0 ≤ n ∧ n * n * np_itemsize ≤ np_intp_max ∧ n * n * np_itemsize ≤ mem)
  ∧ (∀ g, FFGame.init mem n pt pf = Some g →
       FFGame.grid_size g = n ∧ FFGame.p_tree g = pt ∧ FFGame.p_fire g = pf)
  ∧ (∀ m, FF.init mem n pt pf = Some m →
       FF.grid_size m = n ∧ FF.p_tree m = pt ∧ FF.p_fire m = pf)
  ∧ (2 ^ 30 ≤ n → FFGame.init mem n pt pf = None ∧ FF.init mem n pt pf = None).
Proof.
  rewrite <- np_zeros_is_Some. unfold FFGame.init, FF.init.
  destruct (np_zeros mem n) as [a|] eqn:Ha; simpl.
  - split; [by split; eexists|]. split; [by split; eexists|].
    split; [by intros g [= <-]|]. split; [by intros m [= <-]|].
    intros Hn. apply np_zeros_spec in Ha as [(_ & Hbig & _) _].
    unfold np_itemsize, np_intp_max in Hbig. nia.
  - split; [by split; intros [? ?]|]. split; [by split; intros [? ?]|]. done.
Qed.

(** ** The neighbourhood of each class *)

Lemma von_neumann_geometry dx dy :
  (dx, dy) ∈ von_neumann ↔ Z.abs dx + Z.abs dy = 1.
Proof.
  unfold von_neumann. rewrite !elem_of_cons, elem_of_nil. split.
  - intros H. repeat (destruct H as [[= -> ->]|H]; [simpl; lia|]). done.
  - intros H.
    assert (dx = -1 ∧ dy = 0 ∨ dx = 1 ∧ dy = 0 ∨ dx = 0 ∧ dy = -1 ∨ dx = 0 ∧ dy = 1)
      as Hcases by lia.
    clear H. destruct Hcases as [[-> ->]|Hcases]; [tauto|].
    repeat (destruct Hcases as [[-> ->]|Hcases]; [tauto|]).
    destruct Hcases as [-> ->]. tauto.
Qed.

Lemma moore_geometry dx dy :
  (dx, dy) ∈ moore ↔ Z.max (Z.abs dx) (Z.abs dy) = 1.
Proof.
  unfold moore. rewrite !elem_of_cons, elem_of_nil. split.
  - intros H. repeat (destruct H as [[= -> ->]|H]; [simpl; lia|]). done.
  - intros H.
    assert (dx = -1 ∧ dy = -1 ∨ dx = -1 ∧ dy = 0 ∨ dx = -1 ∧ dy = 1
            ∨ dx = 0 ∧ dy = -1 ∨ dx = 0 ∧ dy = 1
            ∨ dx = 1 ∧ dy = -1 ∨ dx = 1 ∧ dy = 0 ∨ dx = 1 ∧ dy = 1)
      as Hcases by lia.
    clear H. destruct Hcases as [[-> ->]|Hcases]; [tauto|].
    repeat (destruct Hcases as [[-> ->]|Hcases]; [tauto|]).
    destruct Hcases as [-> ->]. tauto.
Qed.

Lemma neighbourhood_adjacent e x y i j :
  (i - x, j - y) ∈ neighbourhood e ↔ adjacent e x y i j.
Proof. destruct e; [apply von_neumann_geometry | apply moore_geometry]. Qed.

(** *** C9 *)

(** With the same arguments given to both constructors and the same draws,
    two ticks lead both classes to a fire at (0, 0) next to a tree at (1, 1);
    at the third tick the tree stands in a [ForestFireModel] and burns in a
    [ForestFireGame]: the arguments of the constructor do not choose the
    neighbourhood. *)
Lemma neighbourhood_not_an_argument :
  (m ← FF.init gibibyte 3 (1 # 2) (1 # 4); st ← FF_ticks 2 (m, corner_draws);
   Some (FF.grid st.1))
  = Some [[2; 0; 0]; [0; 1; 0]; [0; 0; 0]]
  ∧ (m ← FF.init gibibyte 3 (1 # 2) (1 # 4); st ← FF_ticks 3 (m, corner_draws);
     Some (FF.grid st.1))
    = Some [[0; 0; 0]; [0; 1; 0]; [0; 0; 0]]
  ∧ (g ← FFGame.init gibibyte 3 (1 # 2) (1 # 4); st ← run [Tick; Tick] (g, corner_draws);
     Some (FFGame.grid st.1))
    = Some [[2; 0; 0]; [0; 1; 0]; [0; 0; 0]]
  ∧ (g ← FFGame.init gibibyte 3 (1 # 2) (1 # 4); st ← run [Tick; Tick; Tick] (g, corner_draws);
     Some (FFGame.grid st.1))
    = Some [[0; 0; 0]; [0; 2; 0]; [0; 0; 0]].
Proof. repeat split; vm_compute; reflexivity. Qed.

(** C9, amended: the neighbourhood is fixed by the class and the constructors
    take no argument for it.  Whatever the size and the probabilities, a tree
    that loses its draw is set on fire by the [step] of [ForestFireModel]
    exactly when one of the four cells at distance one along an axis is in the
    grid and on fire, and by the [step] of [ForestFireGame] exactly when one
    of the eight surrounding cells is. *)
Theorem neighbourhood_fixed_by_class (e : Engine) (rng : Rng) (x y : Z) :
  wf_engine e →
  inb (engine_size e) (x, y) →
  np_get (engine_grid e) x y = Some 1 →
  ¬ (draw_at (engine_grid e) (engine_size e) rng x y < engine_p_fire e)%Q →
  ∃ e' rng', engine_step e rng = Some (e', rng')
    ∧ (np_get (engine_grid e') x y = Some 2
       ↔ ∃ i j, adjacent e x y i j ∧ inb (engine_size e) (i, j)
                ∧ np_get (engine_grid e) i j = Some 2).
Proof.
  intros Hwf Hc Htree Hdraw.
  destruct (tree_cell_next e rng x y Hwf Hc Htree) as (e' & rng' & Hstep & Hget).
  exists e', rng'. split; [exact Hstep|]. rewrite Hget.
  apply Qltb_ge in Hdraw. rewrite Hdraw.
  pose proof (fire_among_spec (engine_grid e) (engine_size e) (neighbourhood e) x y)
    as Hnear.
  destruct (fire_among _ _ _ _ _).
  - split; [intros _|done].
    destruct (proj1 Hnear eq_refl) as (dx & dy & Hin & Hb & Hfire).
    exists (x + dx), (y + dy). split; [|done].
    apply neighbourhood_adjacent.
    by replace (x + dx - x) with dx by lia; replace (y + dy - y) with dy by lia.
  - split; [done|]. intros (i & j & Hadj & Hb & Hfire).
    assert (false = true); [|done]. apply Hnear.
    exists (i - x), (j - y). split; [by apply neighbourhood_adjacent|].
    by replace (x + (i - x)) with i by lia; replace (y + (j - y)) with j by lia.
Qed.

Lemma neighbourhood_fixed_by_class_witness :
  ∃ e' rng', engine_step diagonal_example (const_rng (3 # 4)) = Some (e', rng')
    ∧ (np_get (engine_grid e') 1 1 = Some 2
       ↔ ∃ i j, adjacent diagonal_example 1 1 i j ∧ inb 3 (i, j)
                ∧ np_get (engine_grid diagonal_example) i j = Some 2).
Proof.
  apply (neighbourhood_fixed_by_class diagonal_example (const_rng (3 # 4)) 1 1).
  - split; (split; [reflexivity | repeat constructor]).
  - unfold inb. simpl. lia.
  - reflexivity.
  - intros H. by apply Qltb_lt in H.
Defined.

(** ** The frames of the game loop *)

Lemma np_decay_get n a c :
  wf_grid n a → inb n c →
  np_get (np_decay a) c.1 c.2
  = (λ v, if v >? 0 then v - 1 else v) <$> np_get a c.1 c.2.
Proof.
  intros Hwf [Hi Hj]. rewrite !np_get_nonneg by lia. unfold np_decay.
  rewrite list_lookup_fmap. destruct (a !! Z.to_nat c.1) as [row|]; [|done].
  simpl. by rewrite list_lookup_fmap.
Qed.

(** A tick lowers by one the counters of the overlay that are positive and
    leaves the others. *)
Lemma step_decays_overlay g rng c :
  wf_game g → inb (FFGame.grid_size g) c →
  ∃ g' rng', FFGame.step g rng = Some (g', rng')
    ∧ np_get (FFGame.extinguish_overlay g') c.1 c.2
      = (λ v, if v >? 0 then v - 1 else v)
          <$> np_get (FFGame.extinguish_overlay g) c.1 c.2.
Proof.
  intros [Hg Ho] Hc. eexists _, _. rewrite FFGame_step_spec by done.
  split; [done|]. cbn [FFGame.finish_step FFGame.extinguish_overlay].
  by apply (np_decay_get (FFGame.grid_size g)).
Qed.

(** A frame that is not a tick frame, with no key held, changes nothing in
    the game: the overlay keeps its counters. *)
Lemma idle_frame_changes_nothing g simulation_counter rng :
  simulation_counter `mod` 5 ≠ 0 →
  FFGame.frame ∅ (g, simulation_counter, rng) = Some (g, simulation_counter + 1, rng).
Proof.
  intros Hmod. unfold FFGame.frame, FFGame.simulation_step_interval.
  rewrite bool_decide_eq_false_2 by (by intros H; apply H). simpl.
  by destruct (Z.eqb_spec (simulation_counter `mod` 5) 0).
Qed.

(** *** C7 *)

(** C7 evaluated on the code: a fire at (2, 2) is doused at frame 6 and its
    overlay counter set to 2; the frames 7, 8 and 9, which are not tick
    frames, leave the counter at 2, and only the tick of frame 10 lowers it
    to 1.  The counter is lowered once per tick, not once per frame. *)
Theorem overlay_waits_for_tick :
  overlay_after [∅; ∅; ∅; ∅; ∅; ∅; {["UP"]}] = Some (Some 2, 7)
  ∧ overlay_after [∅; ∅; ∅; ∅; ∅; ∅; {["UP"]}; ∅] = Some (Some 2, 8)
  ∧ overlay_after [∅; ∅; ∅; ∅; ∅; ∅; {["UP"]}; ∅; ∅; ∅] = Some (Some 2, 10)
  ∧ overlay_after [∅; ∅; ∅; ∅; ∅; ∅; {["UP"]}; ∅; ∅; ∅; ∅] = Some (Some 1, 11).
Proof. repeat split; vm_compute; reflexivity. Qed.

(** ** The scenarios of the specification *)

(** A 5x5 forest with [p_tree = p_fire = 0] and a fire at the centre: after
    one tick of [ForestFireModel] the centre is empty and its four orthogonal
    neighbours burn. *)
Example von_neumann_scenario :
  (st ← FF.step (FF.mk 5 0 0 (forest 2)) (const_rng (1 # 2)); Some (FF.grid st.1))
  = Some [[1; 1; 1; 1; 1]; [1; 1; 2; 1; 1]; [1; 2; 0; 2; 1]; [1; 1; 2; 1; 1];
          [1; 1; 1; 1; 1]].
Proof. vm_compute. reflexivity. Qed.

(** The same forest in a [ForestFireGame]: the eight surrounding trees burn,
    and the burnt centre is counted. *)
Example moore_scenario :
  (st ← FFGame.step
          (FFGame.mk 5 0 0 (forest 2) (2, 2) 0 0 (forest 1) 0 [] [] [] [] [])
          (const_rng (1 # 2));
   Some (FFGame.grid st.1, FFGame.burned st.1, FFGame.trees_history st.1,
         FFGame.extinguish_overlay st.1))
  = Some ([[1; 1; 1; 1; 1]; [1; 2; 2; 2; 1]; [1; 2; 0; 2; 1]; [1; 2; 2; 2; 1];
           [1; 1; 1; 1; 1]], 1, [16],
          [[0; 0; 0; 0; 0]; [0; 0; 0; 0; 0]; [0; 0; 0; 0; 0]; [0; 0; 0; 0; 0];
           [0; 0; 0; 0; 0]]).
Proof. vm_compute. reflexivity. Qed.

(** The agent at (0, 0) with a fire at (1, 1): a call of [move_player] with no
    direction douses it. *)
Example empty_intent_scenario :
  (g ← FFGame.move_player agent_example ∅;
   Some (np_get (FFGame.grid g) 1 1, FFGame.extinguished g,
         np_get (FFGame.extinguish_overlay g) 1 1, np_get (FFGame.grid g) 3 3))
  = Some (Some 0, 1, Some 2, Some 2).
Proof. vm_compute. reflexivity. Qed.

(** * Further properties *)

(** ** One tick, cell by cell *)

(** A tick of either variant, in full: it never raises on well-formed grids,
    keeps the shape and the parameters, and gives each cell what the rule
    says for the draw taken there. *)
Lemma engine_step_full e rng :
  wf_engine e →
  ∃ e', engine_step e rng
        = Some (e', skip (draws_taken (engine_grid e) (cells (engine_size e))) rng)
    ∧ wf_engine e'
    ∧ engine_size e' = engine_size e
    ∧ engine_p_tree e' = engine_p_tree e
    ∧ engine_p_fire e' = engine_p_fire e
    ∧ (match e with Model _ => ∃ m, e' = Model m | Game _ => ∃ g, e' = Game g end)
    ∧ ∀ c, inb (engine_size e) c →
        np_get (engine_grid e') c.1 c.2
        = Some (next_state (neighbourhood e) (engine_grid e) (engine_size e)
                  (engine_p_tree e) (engine_p_fire e) c
                  (draw_at (engine_grid e) (engine_size e) rng c.1 c.2)).
Proof.
  intros Hwf. destruct e as [m|g]; simpl in *.
  - eexists. rewrite FF_step_spec by done. simpl.
    split; [done|]. split; [by apply next_grid_wf|].
    do 3 (split; [done|]). split; [by eexists|].
    intros c Hc. by apply next_grid_get.
  - destruct Hwf as [Hg Ho]. eexists. rewrite FFGame_step_spec by done. simpl.
    split; [done|]. split; [split; [by apply next_grid_wf | by apply np_decay_wf]|].
    do 3 (split; [done|]). split; [by eexists|].
    intros c Hc. by apply next_grid_get.
Qed.

(** X1: an empty cell becomes a tree when its draw is below [p_tree] and
    stays empty otherwise, whatever its neighbours. *)
Theorem empty_cell_grows_or_stays (e : Engine) (rng : Rng) (x y : Z) :
  wf_engine e →
  inb (engine_size e) (x, y) →
  np_get (engine_grid e) x y = Some 0 →
  ∃ e' rng', engine_step e rng = Some (e', rng') ∧
    let r := draw_at (engine_grid e) (engine_size e) rng x y in
    ((r < engine_p_tree e)%Q → np_get (engine_grid e') x y = Some 1) ∧
    (¬ (r < engine_p_tree e)%Q → np_get (engine_grid e') x y = Some 0).
Proof.
  intros Hwf Hc Hempty.
  destruct (engine_step_full e rng Hwf) as (e' & Hstep & _ & _ & _ & _ & _ & Hget).
  eexists e', _. split; [exact Hstep|]. simpl.
  specialize (Hget (x, y) Hc). simpl in Hget. rewrite Hget.
  pose proof (snap_get _ _ (x, y) (wf_engine_grid e Hwf) Hc) as Hsnap.
  simpl in Hsnap. rewrite Hempty in Hsnap. injection Hsnap as Hsnap.
  unfold next_state, outcome. rewrite <- Hsnap. simpl.
  destruct (Qltb _ _) eqn:Hdraw.
  - apply Qltb_lt in Hdraw. tauto.
  - apply Qltb_ge in Hdraw. tauto.
Qed.

Lemma empty_cell_grows_or_stays_witness :
  ∃ e' rng', engine_step tree_example (const_rng (1 # 4)) = Some (e', rng') ∧
    let r := draw_at (engine_grid tree_example) 3 (const_rng (1 # 4)) 2 2 in
    ((r < 1 # 2)%Q → np_get (engine_grid e') 2 2 = Some 1) ∧
    (¬ (r < 1 # 2)%Q → np_get (engine_grid e') 2 2 = Some 0).
Proof.
  apply (empty_cell_grows_or_stays tree_example (const_rng (1 # 4)) 2 2).
  - split; [reflexivity | repeat constructor].
  - unfold inb. simpl. lia.
  - reflexivity.
Defined.

(** What the rule can make of a cell. *)
Lemma next_state_cases offsets grid n pt pf c r :
  let v := next_state offsets grid n pt pf c r in
  (snap grid c = 0 ∧ (v = 0 ∨ v = 1))
  ∨ (snap grid c = 1 ∧ (v = 1 ∨ (v = 2 ∧ (Qltb r pf = true
                                         ∨ fire_among grid n offsets c.1 c.2 = true))))
  ∨ (snap grid c = 2 ∧ v = 0)
  ∨ (snap grid c ≠ 0 ∧ snap grid c ≠ 1 ∧ snap grid c ≠ 2 ∧ v = snap grid c).
Proof.
  unfold next_state, outcome, fire_near.
  destruct (Z.eqb_spec (snap grid c) 0) as [->|H0]; simpl.
  { left. destruct (Qltb r pt); simpl; tauto. }
  destruct (Z.eqb_spec (snap grid c) 1) as [E1|H1]; simpl.
  { right. left. rewrite E1.
    destruct (Qltb r pf); simpl; [tauto|].
    destruct (fire_among _ _ _ _ _); simpl; tauto. }
  destruct (Z.eqb_spec (snap grid c) 2) as [E2|H2]; simpl; tauto.
Qed.

(** A cell on fire after a tick held a tree, and its draw was below
    [p_fire] or the scan of the offsets found a fire. *)
Lemma step_fire_cause e e' rng rng' c :
  wf_engine e → inb (engine_size e) c →
  engine_step e rng = Some (e', rng') →
  np_get (engine_grid e') c.1 c.2 = Some 2 →
  snap (engine_grid e) c = 1
  ∧ (Qltb (draw_at (engine_grid e) (engine_size e) rng c.1 c.2) (engine_p_fire e) = true
     ∨ fire_among (engine_grid e) (engine_size e) (neighbourhood e) c.1 c.2 = true).
Proof.
  intros Hwf Hc Hstep Hfire.
  destruct (engine_step_full e rng Hwf) as (e1 & Hstep1 & _ & _ & _ & _ & _ & Hget).
  rewrite Hstep in Hstep1. injection Hstep1 as <- _.
  specialize (Hget c Hc). rewrite Hfire in Hget. injection Hget as Hget.
  pose proof (next_state_cases (neighbourhood e) (engine_grid e) (engine_size e)
                (engine_p_tree e) (engine_p_fire e) c
                (draw_at (engine_grid e) (engine_size e) rng c.1 c.2)) as Hcases.
  simpl in Hcases. rewrite <- Hget in Hcases.
  destruct Hcases as [[_ [?|?]]|[[Htree [?|[_ Hwhy]]]|[[_ ?]|(_ & _ & Hne & Heq)]]];
    try lia.
  done.
Qed.

(** X2: a cell on fire after a tick was a tree before it, and either its
    draw was below [p_fire] or a neighbour inside the grid was on fire in the
    pre-tick grid: nothing but a tree catches fire, and never without cause. *)
Theorem fire_has_a_cause (e e' : Engine) (rng rng' : Rng) (x y : Z) :
  wf_engine e →
  inb (engine_size e) (x, y) →
  engine_step e rng = Some (e', rng') →
  np_get (engine_grid e') x y = Some 2 →
  np_get (engine_grid e) x y = Some 1
  ∧ ((draw_at (engine_grid e) (engine_size e) rng x y < engine_p_fire e)%Q
     ∨ fire_neighbour (neighbourhood e) (engine_grid e) (engine_size e) x y).
Proof.
  intros Hwf Hc Hstep Hfire.
  destruct (step_fire_cause e e' rng rng' (x, y) Hwf Hc Hstep Hfire) as [Htree Hwhy].
  pose proof (snap_get _ _ (x, y) (wf_engine_grid e Hwf) Hc) as Hsnap.
  simpl in Hsnap. rewrite Hsnap, Htree. split; [done|].
  destruct Hwhy as [Hdraw|Hnear].
  - left. by apply Qltb_lt.
  - right. by apply fire_among_spec.
Qed.

Lemma fire_has_a_cause_witness :
  np_get (engine_grid diagonal_example) 1 1 = Some 1
  ∧ ((draw_at (engine_grid diagonal_example) 3 (const_rng (3 # 4)) 1 1 < 1 # 4)%Q
     ∨ fire_neighbour moore (engine_grid diagonal_example) 3 1 1).
Proof.
  eapply (fire_has_a_cause diagonal_example _ (const_rng (3 # 4)) _ 1 1).
  - split; (split; [reflexivity | repeat constructor]).
  - unfold inb. simpl. lia.
  - vm_compute. reflexivity.
  - vm_compute. reflexivity.
Defined.

(** ** Invariants along runs *)

Lemma next_state_range offsets grid n pt pf c r :
  0 ≤ snap grid c ≤ 2 → 0 ≤ next_state offsets grid n pt pf c r ≤ 2.
Proof.
  intros Hsnap.
  pose proof (next_state_cases offsets grid n pt pf c r) as Hcases. simpl in Hcases.
  lia.
Qed.

Lemma next_grid_range offsets grid n pt pf assign :
  wf_grid n grid → in_range 0 2 n grid →
  in_range 0 2 n (next_grid offsets grid n pt pf assign).
Proof.
  intros Hwf Hrange c Hc. rewrite next_grid_get by done. eexists. split; [done|].
  apply next_state_range. destruct (Hrange c Hc) as (v & Hv & Hbounds).
  rewrite (snap_get grid n c Hwf Hc) in Hv. by injection Hv as ->.
Qed.

Lemma zeros_range n : in_range 0 2 n (replicate (Z.to_nat n) (replicate (Z.to_nat n) 0)).
Proof. intros c Hc. exists 0. split; [by apply zeros_get | lia]. Qed.

Lemma init_sound mem n pt pf g : FFGame.init mem n pt pf = Some g → sound_game g.
Proof.
  intros Hinit. split; [by eapply init_wf|].
  unfold FFGame.init in Hinit. destruct (np_zeros mem n) as [a|] eqn:Ha; [|done].
  simpl in Hinit. apply np_zeros_spec in Ha as [_ ->]. injection Hinit as <-.
  simpl. split; apply zeros_range.
Qed.

Lemma init_size mem n pt pf g : FFGame.init mem n pt pf = Some g → FFGame.grid_size g = n.
Proof.
  unfold FFGame.init. destruct (np_zeros mem n) as [a|]; [|done]. simpl.
  by intros [= <-].
Qed.

Lemma step_keeps_sound g rng :
  sound_game g →
  ∃ g' rng', FFGame.step g rng = Some (g', rng')
    ∧ sound_game g' ∧ FFGame.grid_size g' = FFGame.grid_size g.
Proof.
  intros ([Hg Ho] & Hgrid & Hover). eexists _, _.
  rewrite FFGame_step_spec by done. split; [done|]. split; [|done].
  unfold sound_game, wf_game.
  cbn [FFGame.finish_step FFGame.grid FFGame.grid_size FFGame.extinguish_overlay].
  split; [split; [by apply next_grid_wf | by apply np_decay_wf]|].
  split; [by apply next_grid_range|].
  intros c Hc. destruct (Hover c Hc) as (v & Hv & Hbounds).
  rewrite (np_decay_get (FFGame.grid_size g)) by done. rewrite Hv. simpl.
  eexists. split; [done|]. destruct (Z.gtb_spec v 0); lia.
Qed.

Lemma move_keeps_sound g direction :
  sound_game g →
  ∃ g', FFGame.move_player g direction = Some g'
    ∧ sound_game g' ∧ FFGame.grid_size g' = FFGame.grid_size g.
Proof.
  intros ([Hg Ho] & Hgrid & Hover). eexists.
  rewrite move_player_spec by done. split; [done|]. split; [|done].
  unfold sound_game, wf_game.
  cbn [FFGame.grid FFGame.grid_size FFGame.extinguish_overlay].
  set (n := FFGame.grid_size g) in *.
  split; [split; by apply (paint_wf n)|]. split.
  - intros c Hc. rewrite (doused_grid_get n) by done.
    destruct (decide _); [exists 0; split; [done|lia] | by apply Hgrid].
  - intros c Hc. rewrite (doused_overlay_get n) by done.
    destruct (decide _); [exists 2; split; [done|lia] | by apply Hover].
Qed.

Lemma run_keeps_sound ops g rng :
  sound_game g →
  ∃ g' rng', run ops (g, rng) = Some (g', rng')
    ∧ sound_game g' ∧ FFGame.grid_size g' = FFGame.grid_size g.
Proof.
  revert g rng. induction ops as [|op ops IH]; intros g rng Hsound.
  - by exists g, rng.
  - unfold run. rewrite for_each_cons. fold (run ops). destruct op as [|direction].
    + destruct (step_keeps_sound g rng Hsound) as (g1 & rng1 & Hstep & Hsound1 & Hsize).
      destruct (IH g1 rng1 Hsound1) as (g' & rng' & Hrun & Hsound' & Hsize').
      exists g', rng'. simpl. rewrite Hstep. simpl. split; [done|].
      split; [done | congruence].
    + destruct (move_keeps_sound g direction Hsound) as (g1 & Hmove & Hsound1 & Hsize).
      destruct (IH g1 rng Hsound1) as (g' & rng' & Hrun & Hsound' & Hsize').
      exists g', rng'. simpl. rewrite Hmove. simpl. split; [done|].
      split; [done | congruence].
Qed.

(** X3: from a game just built, every sequence of ticks and moves runs to its
    end without an index error, and leaves a grid of the announced shape whose
    cells are all 0, 1 or 2 and an overlay whose counters are all 0, 1 or 2. *)
Theorem reachable_games_are_sound (mem n : Z) (pt pf : Q) (g : FFGame.ForestFireGame)
    (ops : list Op) (rng : Rng) :
  FFGame.init mem n pt pf = Some g →
  ∃ g' rng', run ops (g, rng) = Some (g', rng')
    ∧ sound_game g' ∧ FFGame.grid_size g' = n.
Proof.
  intros Hinit.
  destruct (run_keeps_sound ops g rng (init_sound mem n pt pf g Hinit))
    as (g' & rng' & Hrun & Hsound & Hsize).
  exists g', rng'. split; [done|]. split; [done|]. rewrite Hsize.
  by eapply init_size.
Qed.

Lemma reachable_games_are_sound_witness :
  ∃ g' rng',
    run [Tick; Move {["UP"]}; Tick; Tick; Move {["LEFT"]}]
      (roaming_example, corner_draws) = Some (g', rng')
    ∧ sound_game g' ∧ FFGame.grid_size g' = 5.
Proof.
  apply (reachable_games_are_sound gibibyte 5 (1 # 2) (1 # 4) roaming_example
           [Tick; Move {["UP"]}; Tick; Tick; Move {["LEFT"]}] corner_draws).
  reflexivity.
Defined.

Lemma FF_ticks_keep_sound k m rng :
  wf_grid (FF.grid_size m) (FF.grid m) →
  in_range 0 2 (FF.grid_size m) (FF.grid m) →
  ∃ m' rng', FF_ticks k (m, rng) = Some (m', rng')
    ∧ wf_grid (FF.grid_size m) (FF.grid m')
    ∧ in_range 0 2 (FF.grid_size m) (FF.grid m')
    ∧ FF.grid_size m' = FF.grid_size m
    ∧ FF.p_tree m' = FF.p_tree m ∧ FF.p_fire m' = FF.p_fire m.
Proof.
  revert m rng. induction k as [|k IH]; intros m rng Hwf Hrange.
  - by exists m, rng.
  - simpl. rewrite FF_step_spec by done. simpl.
    set (m1 := FF.mk _ _ _ _).
    destruct (IH m1 (skip (draws_taken (FF.grid m) (cells (FF.grid_size m))) rng))
      as (m' & rng' & Hticks & Hwf' & Hrange' & Hsize & Hpt & Hpf).
    { by apply next_grid_wf. }
    { by apply next_grid_range. }
    by exists m', rng'.
Qed.

(** X4: from a model just built, any number of ticks runs without an index
    error, keeps the shape, the size and the two probabilities, and leaves
    every cell at 0, 1 or 2. *)
Theorem model_ticks_are_sound (mem n : Z) (pt pf : Q) (m : FF.ForestFireModel)
    (k : nat) (rng : Rng) :
  FF.init mem n pt pf = Some m →
  ∃ m' rng', FF_ticks k (m, rng) = Some (m', rng')
    ∧ wf_grid n (FF.grid m') ∧ in_range 0 2 n (FF.grid m')
    ∧ FF.grid_size m' = n ∧ FF.p_tree m' = pt ∧ FF.p_fire m' = pf.
Proof.
  unfold FF.init. destruct (np_zeros mem n) as [a|] eqn:Ha; [|done]. simpl.
  apply np_zeros_spec in Ha as [_ ->]. intros [= <-].
  apply (FF_ticks_keep_sound k (FF.mk n pt pf _) rng); simpl.
  - apply zeros_wf.
  - apply zeros_range.
Qed.

Lemma model_ticks_are_sound_witness :
  ∃ m' rng',
    FF_ticks 3 (FF.mk 3 (1 # 2) (1 # 4) [[0; 0; 0]; [0; 0; 0]; [0; 0; 0]], corner_draws)
    = Some (m', rng')
    ∧ wf_grid 3 (FF.grid m') ∧ in_range 0 2 3 (FF.grid m')
    ∧ FF.grid_size m' = 3 ∧ FF.p_tree m' = 1 # 2 ∧ FF.p_fire m' = 1 # 4.
Proof.
  apply (model_ticks_are_sound gibibyte 3 (1 # 2) (1 # 4) _ 3 corner_draws). reflexivity.
Defined.

(** ** The statistics *)

Lemma count_ticks_nonneg ops : 0 ≤ count_ticks ops.
Proof. induction ops as [|[|d] ops IH]; simpl; lia. Qed.

(** X5: along every sequence of ticks and moves [time_step] grows by the
    number of ticks, and each of the five histories by as many entries: a
    tick records exactly one sample in each, a move none. *)
Theorem histories_follow_ticks (g : FFGame.ForestFireGame) (rng : Rng) (ops : list Op) :
  wf_game g →
  ∃ g' rng', run ops (g, rng) = Some (g', rng')
    ∧ FFGame.time_step g' = FFGame.time_step g + count_ticks ops
    ∧ Z.of_nat (length (FFGame.burned_history g'))
      = Z.of_nat (length (FFGame.burned_history g)) + count_ticks ops
    ∧ Z.of_nat (length (FFGame.extinguished_history g'))
      = Z.of_nat (length (FFGame.extinguished_history g)) + count_ticks ops
    ∧ Z.of_nat (length (FFGame.trees_history g'))
      = Z.of_nat (length (FFGame.trees_history g)) + count_ticks ops
    ∧ Z.of_nat (length (FFGame.fire_percent_history g'))
      = Z.of_nat (length (FFGame.fire_percent_history g)) + count_ticks ops
    ∧ Z.of_nat (length (FFGame.tree_percent_history g'))
      = Z.of_nat (length (FFGame.tree_percent_history g)) + count_ticks ops.
Proof.
  revert g rng. induction ops as [|op ops IH]; intros g rng Hwf.
  - exists g, rng. simpl. split; [done|]. repeat split; lia.
  - unfold run. rewrite for_each_cons. fold (run ops). destruct op as [|direction].
    + destruct (tick_departures g rng Hwf) as (g1 & rng1 & Hstep & Hwf1 & _).
      destruct (IH g1 rng1 Hwf1) as (g' & rng' & Hrun & Ht & H1 & H2 & H3 & H4 & H5).
      exists g', rng'. simpl. rewrite Hstep. simpl. split; [done|].
      rewrite Ht, H1, H2, H3, H4, H5.
      rewrite FFGame_step_spec in Hstep by apply Hwf. injection Hstep as <- _.
      simpl. rewrite !length_app. simpl. repeat split; lia.
    + destruct (move_departures g direction Hwf) as (g1 & Hmove & Hwf1 & _).
      destruct (IH g1 rng Hwf1) as (g' & rng' & Hrun & Ht & H1 & H2 & H3 & H4 & H5).
      exists g', rng'. simpl. rewrite Hmove. simpl. split; [done|].
      rewrite Ht, H1, H2, H3, H4, H5.
      rewrite move_player_spec in Hmove by done. injection Hmove as <-.
      simpl. done.
Qed.

Lemma histories_follow_ticks_witness :
  ∃ g' rng', run [Tick; Move ∅; Tick] (agent_example, const_rng (1 # 2)) = Some (g', rng')
    ∧ FFGame.time_step g' = 0 + 2
    ∧ Z.of_nat (length (FFGame.burned_history g')) = 0 + 2
    ∧ Z.of_nat (length (FFGame.extinguished_history g')) = 0 + 2
    ∧ Z.of_nat (length (FFGame.trees_history g')) = 0 + 2
    ∧ Z.of_nat (length (FFGame.fire_percent_history g')) = 0 + 2
    ∧ Z.of_nat (length (FFGame.tree_percent_history g')) = 0 + 2.
Proof.
  apply (histories_follow_ticks agent_example (const_rng (1 # 2)) [Tick; Move ∅; Tick]).
  split; (split; [reflexivity | repeat constructor]).
Defined.

Lemma ledger_after_tick g g' rng rng' :
  wf_game g → ledger_ok g → FFGame.step g rng = Some (g', rng') → ledger_ok g'.
Proof.
  intros Hwf (Hbs & Hbb & Hes & Heb) Hstep.
  rewrite FFGame_step_spec in Hstep by apply Hwf. injection Hstep as <- _.
  unfold ledger_ok. simpl.
  set (b' := FFGame.burned g + burnt _ _).
  assert (Hle : FFGame.burned g ≤ b').
  { subst b'. rewrite (burnt_filter (FFGame.grid_size g))
      by (apply Hwf || apply Forall_inb_cells). lia. }
  split; [|split; [|split]].
  - apply StronglySorted_app_2; [|done|repeat constructor].
    intros x1 x2 Hx1 Hx2. apply list_elem_of_singleton in Hx2 as ->.
    rewrite Forall_forall in Hbb. specialize (Hbb x1 Hx1). lia.
  - apply Forall_app. split; [|by repeat constructor].
    eapply Forall_impl; [exact Hbb|]. simpl. lia.
  - apply StronglySorted_app_2; [|done|repeat constructor].
    intros x1 x2 Hx1 Hx2. apply list_elem_of_singleton in Hx2 as ->.
    rewrite Forall_forall in Heb. by apply Heb.
  - apply Forall_app. split; [done | by repeat constructor].
Qed.

Lemma ledger_after_move g g' direction :
  wf_game g → ledger_ok g → FFGame.move_player g direction = Some g' → ledger_ok g'.
Proof.
  intros Hwf (Hbs & Hbb & Hes & Heb) Hmove.
  rewrite move_player_spec in Hmove by done. injection Hmove as <-.
  unfold ledger_ok. simpl. do 3 (split; [done|]).
  eapply Forall_impl; [exact Heb|]. simpl. lia.
Qed.

(** X6: along every sequence of ticks and moves from a game just built, the
    recorded values of [burned] and of [extinguished] never decrease from one
    sample to the next, none exceeds the current counter, and both counters
    are non-negative. *)
Theorem ledger_never_decreases (mem n : Z) (pt pf : Q) (g : FFGame.ForestFireGame)
    (ops : list Op) (rng : Rng) :
  FFGame.init mem n pt pf = Some g →
  ∃ g' rng', run ops (g, rng) = Some (g', rng')
    ∧ ledger_ok g' ∧ 0 ≤ FFGame.burned g' ∧ 0 ≤ FFGame.extinguished g'.
Proof.
  intros Hinit.
  assert (Hstart : wf_game g ∧ ledger_ok g ∧ 0 ≤ FFGame.burned g
                   ∧ 0 ≤ FFGame.extinguished g).
  { split; [by eapply init_wf|]. unfold FFGame.init in Hinit.
    destruct (np_zeros mem n); [|done]. simpl in Hinit. injection Hinit as <-.
    unfold ledger_ok. simpl. split; [|lia]. split; [|split; [|split]]; constructor. }
  clear Hinit. revert g rng Hstart.
  induction ops as [|op ops IH]; intros g rng (Hwf & Hledger & Hb & He).
  - by exists g, rng.
  - unfold run. rewrite for_each_cons. fold (run ops). destruct op as [|direction].
    + destruct (tick_departures g rng Hwf) as (g1 & rng1 & Hstep & Hwf1 & _ & Hb1 & He1).
      destruct (IH g1 rng1) as (g' & rng' & Hrun & Hrest).
      { split; [done|]. split; [|lia].
        exact (ledger_after_tick g g1 rng rng1 Hwf Hledger Hstep). }
      exists g', rng'. simpl. rewrite Hstep. done.
    + destruct (move_departures g direction Hwf) as (g1 & Hmove & Hwf1 & _ & He1 & Hb1).
      destruct (IH g1 rng) as (g' & rng' & Hrun & Hrest).
      { split; [done|]. split; [|lia].
        exact (ledger_after_move g g1 direction Hwf Hledger Hmove). }
      exists g', rng'. simpl. rewrite Hmove. done.
Qed.

Lemma ledger_never_decreases_witness :
  ∃ g' rng',
    run [Tick; Move {["UP"]}; Tick; Tick; Move {["LEFT"]}]
      (roaming_example, corner_draws) = Some (g', rng')
    ∧ ledger_ok g' ∧ 0 ≤ FFGame.burned g' ∧ 0 ≤ FFGame.extinguished g'.
Proof.
  apply (ledger_never_decreases gibibyte 5 (1 # 2) (1 # 4) roaming_example
           [Tick; Move {["UP"]}; Tick; Tick; Move {["LEFT"]}] corner_draws).
  reflexivity.
Defined.

(** ** [np.sum(a == v)] counts cells *)

Lemma list_as_seqZ (l : list Z) :
  l = (λ j, default 0 (l !! Z.to_nat j)) <$> seqZ 0 (Z.of_nat (length l)).
Proof.
  apply list_eq. intros i. rewrite list_lookup_fmap.
  destruct (decide (i < length l)%nat) as [Hlt|Hge].
  - rewrite lookup_seqZ_lt by lia. cbn [fmap option_fmap option_map].
    replace (Z.to_nat (0 + Z.of_nat i)) with i by lia.
    by destruct (lookup_lt_is_Some_2 l i Hlt) as [x ->].
  - rewrite lookup_seqZ_ge by lia. simpl. apply lookup_ge_None. lia.
Qed.

Lemma length_filter_fmap {A B} (f : A → B) (P : B → Prop) `{∀ b, Decision (P b)}
    (l : list A) :
  length (filter P (f <$> l)) = length (filter (λ a, P (f a)) l).
Proof.
  induction l as [|a l IH]; [done|].
  rewrite fmap_cons, !filter_cons. destruct (decide (P (f a))); simpl; by rewrite IH.
Qed.

(** The rows of [a] from row [s] on, laid end to end, are the cells of those
    rows in the order of the scan. *)
Lemma concat_rows (a : Grid) (m : Z) (rows : Grid) (s : Z) :
  0 ≤ s → 0 ≤ m →
  Forall (λ row, length row = Z.to_nat m) rows →
  (∀ i row, rows !! i = Some row → a !! (Z.to_nat s + i)%nat = Some row) →
  concat rows = cell a <$> list_prod (seqZ s (Z.of_nat (length rows))) (seqZ 0 m).
Proof.
  intros Hs Hm Hrows. revert s Hs.
  induction Hrows as [|row rows Hrow Hrows IH]; intros s Hs Hat; [done|].
  rewrite seqZ_cons by (simpl; lia). simpl concat.
  change (list_prod (s :: ?xs) ?ys) with (map (λ y, (s, y)) ys ++ list_prod xs ys).
  rewrite fmap_app. f_equal.
  - rewrite <- list_fmap_compose.
    rewrite (list_as_seqZ row) at 1. rewrite Hrow, Z2Nat.id by lia.
    apply Forall_fmap_ext_1, Forall_forall. intros j Hj.
    apply elem_of_seqZ in Hj. unfold cell, compose. simpl.
    rewrite np_get_nonneg by lia.
    specialize (Hat 0%nat row eq_refl). rewrite Nat.add_0_r in Hat.
    by rewrite Hat.
  - replace (Z.pred (Z.of_nat (length (row :: rows)))) with (Z.of_nat (length rows))
      by (simpl; lia).
    apply IH; [lia|]. intros i r Hr.
    specialize (Hat (S i) r Hr).
    by replace (Z.to_nat (Z.succ s) + i)%nat with (Z.to_nat s + S i)%nat by lia.
Qed.

Lemma concat_cells n a : wf_grid n a → concat a = cell a <$> cells n.
Proof.
  intros [Hlen Hrows]. destruct (Z.le_gt_cases 0 n) as [Hn|Hn].
  - unfold cells, range.
    replace n with (Z.of_nat (length a)) at 1 by lia.
    apply concat_rows; [lia | done | done |]. by intros i row Hrow.
  - unfold cells, range. rewrite seqZ_nil by lia.
    assert (length a = 0%nat) as Hnil by lia.
    by apply nil_length_inv in Hnil as ->.
Qed.

(** [np.sum(a == v)] is the number of cells of the grid that hold [v]. *)
Lemma np_count_cells n a v :
  wf_grid n a → np_count a v = Z.of_nat (length (cells_with n a v)).
Proof.
  intros Hwf. unfold np_count, cells_with.
  rewrite (concat_cells n a Hwf), length_filter_fmap. do 2 f_equal.
  apply filter_ext_in. intros c Hc. apply elem_of_cells in Hc.
  unfold cell. destruct (np_get_total n a c Hwf Hc) as [w ->]. simpl.
  split; [by intros -> | by intros [= ->]].
Qed.

Lemma length_filter_split {A} (P Q R : A → Prop) `{∀ x, Decision (P x)}
    `{∀ x, Decision (Q x)} `{∀ x, Decision (R x)} (l : list A) :
  (∀ x, x ∈ l → (R x ↔ P x ∨ Q x) ∧ ¬ (P x ∧ Q x)) →
  length (filter R l) = (length (filter P l) + length (filter Q l))%nat.
Proof.
  induction l as [|a l IH]; intros Hsplit; [done|].
  specialize (IH (λ x Hx, Hsplit x (list_elem_of_further _ _ _ Hx))).
  rewrite !filter_cons.
  destruct (Hsplit a) as [Hiff Hdisj]; [by left|].
  destruct (decide (R a)), (decide (P a)), (decide (Q a)); simpl; try lia; tauto.
Qed.

Lemma length_filter_le {A} (P Q : A → Prop) `{∀ x, Decision (P x)}
    `{∀ x, Decision (Q x)} (l : list A) :
  (∀ x, x ∈ l → P x → Q x) → (length (filter P l) ≤ length (filter Q l))%nat.
Proof.
  induction l as [|a l IH]; intros Himp; [done|].
  rewrite !filter_cons. specialize (IH (λ x Hx, Himp x (list_elem_of_further _ _ _ Hx))).
  destruct (decide (P a)) as [HP|HP], (decide (Q a)) as [HQ|HQ]; simpl; try lia.
  destruct HQ. apply Himp; [by left | done].
Qed.

Lemma length_cells n : 0 ≤ n → Z.of_nat (length (cells n)) = n * n.
Proof.
  intros Hn. unfold cells, range.
  rewrite length_prod, !length_seqZ. nia.
Qed.

(** X7: in an array of the announced shape whose cells are all 0, 1 or 2, the
    three counts [np.sum(a == 0)], [np.sum(a == 1)] and [np.sum(a == 2)] add
    up to [grid_size * grid_size], the [total_cells] of the percentages. *)
Theorem census_is_complete (n : Z) (a : Grid) :
  0 ≤ n → wf_grid n a → in_range 0 2 n a →
  np_count a 0 + np_count a 1 + np_count a 2 = n * n.
Proof.
  intros Hn Hwf Hrange. rewrite !(np_count_cells n) by done.
  rewrite <- (length_cells n Hn). unfold cells_with.
  assert (Hall : length (filter (λ _, True) (cells n)) = length (cells n)).
  { f_equal. induction (cells n) as [|c l IH]; [done|].
    by rewrite filter_cons_True, IH. }
  rewrite <- Hall.
  rewrite (length_filter_split
             (λ c, np_get a c.1 c.2 = Some 0 ∨ np_get a c.1 c.2 = Some 1)
             (λ c, np_get a c.1 c.2 = Some 2) (λ _, True)).
  - rewrite (length_filter_split (λ c, np_get a c.1 c.2 = Some 0)
               (λ c, np_get a c.1 c.2 = Some 1)
               (λ c, np_get a c.1 c.2 = Some 0 ∨ np_get a c.1 c.2 = Some 1)).
    + by rewrite !Nat2Z.inj_add.
    + intros c _. split; [done|]. intros [H0 H1]. congruence.
  - intros c Hc. apply elem_of_cells in Hc.
    destruct (Hrange c Hc) as (v & -> & Hv). split.
    + split; [intros _|done].
      assert (v = 0 ∨ v = 1 ∨ v = 2) as [-> | [-> | ->]] by lia; tauto.
    + intros [[H0|H1] H2]; congruence.
Qed.

Lemma census_is_complete_witness :
  np_count (forest 2) 0 + np_count (forest 2) 1 + np_count (forest 2) 2 = 5 * 5.
Proof.
  apply (census_is_complete 5 (forest 2)).
  - lia.
  - split; [reflexivity | repeat constructor].
  - intros [i j] [Hi Hj]. simpl in *.
    assert (i = 0 ∨ i = 1 ∨ i = 2 ∨ i = 3 ∨ i = 4) as Hi' by lia.
    assert (j = 0 ∨ j = 1 ∨ j = 2 ∨ j = 3 ∨ j = 4) as Hj' by lia.
    destruct Hi' as [-> | [-> | [-> | [-> | ->]]]], Hj' as [-> | [-> | [-> | [-> | ->]]]];
      eexists; (split; [reflexivity | lia]).
Defined.

Lemma draws_taken_count n grid l :
  wf_grid n grid → Forall (inb n) l →
  draws_taken grid l
  = Nat.add (length (filter (λ c, np_get grid c.1 c.2 = Some 0) l))
            (length (filter (λ c, np_get grid c.1 c.2 = Some 1) l)).
Proof.
  intros Hwf Hl. induction Hl as [|c l Hc Hl IH]; [done|].
  unfold draws_taken in *. rewrite fmap_cons. simpl sum_list. rewrite IH.
  rewrite !filter_cons. rewrite (snap_get grid n c Hwf Hc). unfold uses.
  destruct (Z.eqb_spec (snap grid c) 0) as [E0|E0];
    destruct (Z.eqb_spec (snap grid c) 1) as [E1|E1]; try lia;
    destruct (decide (Some (snap grid c) = Some 0)) as [D0|D0];
    destruct (decide (Some (snap grid c) = Some 1)) as [D1|D1];
    simpl; try lia; try congruence.
Qed.

(** X8: a tick takes from the generator one draw for each empty cell and one
    for each tree, none for a cell on fire: the generator moves on by
    [np.sum(grid == 0) + np.sum(grid == 1)] places, and its stream of draws is
    the same afterwards. *)
Theorem tick_takes_one_draw_per_cell (e : Engine) (rng : Rng) :
  wf_engine e →
  ∃ e' rng', engine_step e rng = Some (e', rng')
    ∧ draws rng' = draws rng
    ∧ Z.of_nat (pos rng')
      = Z.of_nat (pos rng) + np_count (engine_grid e) 0 + np_count (engine_grid e) 1.
Proof.
  intros Hwf.
  destruct (engine_step_full e rng Hwf) as (e' & Hstep & _).
  eexists e', _. split; [exact Hstep|]. split; [done|]. simpl.
  pose proof (wf_engine_grid e Hwf) as Hwfg.
  rewrite !(np_count_cells (engine_size e)) by done.
  rewrite (draws_taken_count (engine_size e)) by (done || apply Forall_inb_cells).
  unfold cells_with. lia.
Qed.

Lemma tick_takes_one_draw_per_cell_witness :
  ∃ e' rng', engine_step fire_example (const_rng 0) = Some (e', rng')
    ∧ draws rng' = draws (const_rng 0)
    ∧ Z.of_nat (pos rng')
      = 0 + np_count (engine_grid fire_example) 0 + np_count (engine_grid fire_example) 1.
Proof.
  apply (tick_takes_one_draw_per_cell fire_example (const_rng 0)).
  split; (split; [reflexivity | repeat constructor]).
Defined.

(** X9: across a tick no more cells are on fire afterwards than there were
    trees before, and at least as many cells are empty afterwards as were on
    fire before. *)
Theorem tick_bounds_the_fire (e : Engine) (rng : Rng) :
  wf_engine e →
  ∃ e' rng', engine_step e rng = Some (e', rng')
    ∧ np_count (engine_grid e') 2 ≤ np_count (engine_grid e) 1
    ∧ np_count (engine_grid e) 2 ≤ np_count (engine_grid e') 0.
Proof.
  intros Hwf.
  destruct (engine_step_full e rng Hwf) as (e' & Hstep & Hwf' & Hsize & _ & _ & _ & Hget).
  eexists e', _. split; [exact Hstep|].
  pose proof (wf_engine_grid e Hwf) as Hwfg.
  pose proof (wf_engine_grid e' Hwf') as Hwfg'. rewrite Hsize in Hwfg'.
  rewrite !(np_count_cells (engine_size e)) by done. unfold cells_with.
  assert (Hnext : ∀ c, inb (engine_size e) c →
            (np_get (engine_grid e') c.1 c.2 = Some 2 → np_get (engine_grid e) c.1 c.2 = Some 1)
            ∧ (np_get (engine_grid e) c.1 c.2 = Some 2 → np_get (engine_grid e') c.1 c.2 = Some 0)).
  { intros c Hc. rewrite (Hget c Hc), (snap_get _ _ c Hwfg Hc).
    pose proof (next_state_cases (neighbourhood e) (engine_grid e) (engine_size e)
                  (engine_p_tree e) (engine_p_fire e) c
                  (draw_at (engine_grid e) (engine_size e) rng c.1 c.2)) as Hcases.
    simpl in Hcases. split; intros [= Heq]; f_equal; lia. }
  split; apply inj_le, length_filter_le; intros c Hc; apply elem_of_cells in Hc;
    by apply Hnext.
Qed.

Lemma tick_bounds_the_fire_witness :
  ∃ e' rng', engine_step fire_example (const_rng 0) = Some (e', rng')
    ∧ np_count (engine_grid e') 2 ≤ np_count (engine_grid fire_example) 1
    ∧ np_count (engine_grid fire_example) 2 ≤ np_count (engine_grid e') 0.
Proof.
  apply (tick_bounds_the_fire fire_example (const_rng 0)).
  split; (split; [reflexivity | repeat constructor]).
Defined.

(** X10: a tick of the game adds [np.sum(grid == 2)] of the pre-tick grid to
    [burned], and the statistics read right after it are the last entries of
    the histories: [get_stats] returns the last of [burned_history], of
    [extinguished_history] and of [trees_history]. *)
Theorem stats_after_tick (g : FFGame.ForestFireGame) (rng : Rng) :
  wf_game g →
  ∃ g' rng', FFGame.step g rng = Some (g', rng')
    ∧ FFGame.burned g' = FFGame.burned g + np_count (FFGame.grid g) 2
    ∧ ∃ b x t, last (FFGame.burned_history g') = Some b
        ∧ last (FFGame.extinguished_history g') = Some x
        ∧ last (FFGame.trees_history g') = Some t
        ∧ FFGame.get_stats g' = (b, x, t).
Proof.
  intros [Hg Ho]. eexists _, _. rewrite FFGame_step_spec by done.
  split; [done|]. simpl. split.
  - f_equal. rewrite (burnt_filter (FFGame.grid_size g)) by (done || apply Forall_inb_cells).
    by rewrite (np_count_cells (FFGame.grid_size g)).
  - eexists _, _, _. rewrite !last_snoc. done.
Qed.

Lemma stats_after_tick_witness :
  ∃ g' rng', FFGame.step agent_example (const_rng (1 # 2)) = Some (g', rng')
    ∧ FFGame.burned g' = 0 + np_count (FFGame.grid agent_example) 2
    ∧ ∃ b x t, last (FFGame.burned_history g') = Some b
        ∧ last (FFGame.extinguished_history g') = Some x
        ∧ last (FFGame.trees_history g') = Some t
        ∧ FFGame.get_stats g' = (b, x, t).
Proof.
  apply (stats_after_tick agent_example (const_rng (1 # 2))).
  split; (split; [reflexivity | repeat constructor]).
Defined.

(** The grid after a move, cell by cell. *)
Lemma move_player_grid g direction g' c :
  wf_game g → FFGame.move_player g direction = Some g' →
  inb (FFGame.grid_size g) c →
  np_get (FFGame.grid g') c.1 c.2
  = if decide (c ∈ footprint (FFGame.player_pos g') ∧ on_fire (FFGame.grid g) c)
    then Some 0 else np_get (FFGame.grid g) c.1 c.2.
Proof.
  intros Hwf Hmove Hc. rewrite move_player_spec in Hmove by done.
  apply (inj Some) in Hmove. rewrite <- Hmove.
  cbn [FFGame.grid FFGame.player_pos].
  apply (doused_grid_get (FFGame.grid_size g)); [apply Hwf | done].
Qed.

(** X11: a move turns each fire it douses into an empty cell and touches
    nothing else: [np.sum(grid == 1)], the remaining trees of [get_stats], is
    unchanged, [np.sum(grid == 2)] drops and [np.sum(grid == 0)] grows by the
    number added to [extinguished]. *)
Theorem move_conserves_trees (g : FFGame.ForestFireGame) (direction : gset string) :
  wf_game g →
  ∃ g', FFGame.move_player g direction = Some g'
    ∧ np_count (FFGame.grid g') 1 = np_count (FFGame.grid g) 1
    ∧ np_count (FFGame.grid g') 2
      = np_count (FFGame.grid g) 2 - (FFGame.extinguished g' - FFGame.extinguished g)
    ∧ np_count (FFGame.grid g') 0
      = np_count (FFGame.grid g) 0 + (FFGame.extinguished g' - FFGame.extinguished g).
Proof.
  intros Hwf.
  destruct (move_departures g direction Hwf) as (g' & Hmove & [Hg' _] & Hsize & Hext & _).
  exists g'. split; [done|]. destruct Hwf as [Hg Ho].
  rewrite Hsize in Hg'. set (n := FFGame.grid_size g) in *.
  rewrite !(np_count_cells n) by done. rewrite Hext.
  assert (Hcell : ∀ c, inb n c →
            np_get (FFGame.grid g') c.1 c.2
            = if decide (np_get (FFGame.grid g) c.1 c.2 = Some 2
                         ∧ np_get (FFGame.grid g') c.1 c.2 ≠ Some 2)
              then Some 0 else np_get (FFGame.grid g) c.1 c.2).
  { intros c Hc.
    pose proof (move_player_grid g direction g' c (conj Hg Ho) Hmove Hc) as Hnew.
    unfold on_fire in Hnew.
    destruct (decide (c ∈ _ ∧ _)) as [[Hin Hf]|Hno] in Hnew.
    - rewrite decide_True; [done|]. split; [done|]. by rewrite Hnew.
    - destruct (decide (_ ∧ _)) as [[Hf Hne]|]; [|done]. by rewrite Hnew in Hne. }
  assert (Htrees : cells_with n (FFGame.grid g') 1 = cells_with n (FFGame.grid g) 1).
  { unfold cells_with. apply filter_ext_in. intros c Hc. apply elem_of_cells in Hc.
    rewrite (Hcell c Hc). destruct (decide _) as [[Hf _]|]; [|done].
    rewrite Hf. split; intros [=]. }
  assert (Hfires : length (cells_with n (FFGame.grid g) 2)
                   = Nat.add (length (cells_with n (FFGame.grid g') 2))
                       (length (left_fire n (FFGame.grid g) (FFGame.grid g')))).
  { unfold cells_with, left_fire. apply length_filter_split.
    intros c Hc. apply elem_of_cells in Hc.
    unfold on_fire. pose proof (Hcell c Hc) as Hc'.
    destruct (decide _) as [[Hf Hne]|Hno] in Hc'.
    - split; [|tauto]. rewrite Hc', Hf. split; [auto|done].
    - rewrite Hc'. split; [|tauto]. split; [|tauto]. intros Hf. by left. }
  assert (Hempty : length (cells_with n (FFGame.grid g') 0)
                   = Nat.add (length (cells_with n (FFGame.grid g) 0))
                       (length (left_fire n (FFGame.grid g) (FFGame.grid g')))).
  { unfold cells_with, left_fire. apply length_filter_split.
    intros c Hc. apply elem_of_cells in Hc.
    unfold on_fire. pose proof (Hcell c Hc) as Hc'.
    destruct (decide _) as [[Hf Hne]|Hno] in Hc'.
    - rewrite Hc', Hf. split; [|intros [[=] _]]. split; [auto|done].
    - rewrite Hc'. split; [|tauto]. split; [|tauto]. auto. }
  rewrite Htrees, Hfires, Hempty. lia.
Qed.

Lemma move_conserves_trees_witness :
  ∃ g', FFGame.move_player agent_example ∅ = Some g'
    ∧ np_count (FFGame.grid g') 1 = np_count (FFGame.grid agent_example) 1
    ∧ np_count (FFGame.grid g') 2
      = np_count (FFGame.grid agent_example) 2 - (FFGame.extinguished g' - 0)
    ∧ np_count (FFGame.grid g') 0
      = np_count (FFGame.grid agent_example) 0 + (FFGame.extinguished g' - 0).
Proof.
  apply (move_conserves_trees agent_example ∅).
  split; (split; [reflexivity | repeat constructor]).
Defined.

(** ** The overlay *)

(** X12: left to the ticks alone, a counter of the overlay that holds
    [v > 0] holds [max 0 (v - k)] after [k] ticks, and a counter that is not
    positive keeps its value: the mark set by a dousing, 2, is gone after two
    ticks. *)
Theorem overlay_fades (g : FFGame.ForestFireGame) (rng : Rng) (k : nat)
    (c : Z * Z) (v : Z) :
  wf_game g →
  inb (FFGame.grid_size g) c →
  np_get (FFGame.extinguish_overlay g) c.1 c.2 = Some v →
  ∃ g' rng', run (replicate k Tick) (g, rng) = Some (g', rng')
    ∧ np_get (FFGame.extinguish_overlay g') c.1 c.2
      = Some (if v >? 0 then Z.max 0 (v - Z.of_nat k) else v).
Proof.
  revert g rng v. induction k as [|k IH]; intros g rng v Hwf Hc Hv.
  - exists g, rng. split; [done|]. rewrite Hv. f_equal.
    destruct (Z.gtb_spec v 0); lia.
  - destruct (tick_departures g rng Hwf) as (g1 & rng1 & Hstep & Hwf1 & Hsize & _).
    destruct (step_decays_overlay g rng c Hwf Hc) as (g2 & rng2 & Hstep2 & Hov).
    rewrite Hstep in Hstep2. injection Hstep2 as <- <-.
    rewrite Hv in Hov. simpl in Hov. rewrite <- Hsize in Hc.
    destruct (IH g1 rng1 _ Hwf1 Hc Hov) as (g' & rng' & Hrun & Hfinal).
    exists g', rng'. split.
    + unfold run in *. simpl replicate. rewrite for_each_cons. simpl.
      rewrite Hstep. simpl. exact Hrun.
    + rewrite Hfinal. f_equal.
      destruct (Z.gtb_spec v 0); [|by destruct (Z.gtb_spec v 0); lia].
      destruct (Z.gtb_spec (v - 1) 0); lia.
Qed.

Lemma overlay_fades_witness :
  ∃ g' rng',
    run (replicate 2 Tick)
      (FFGame.mk 3 (1 # 2) (1 # 4) [[0; 0; 0]; [0; 0; 0]; [0; 0; 0]] (0, 0) 1 0
         [[0; 0; 0]; [0; 2; 0]; [0; 0; 0]] 0 [] [] [] [] [], const_rng (3 # 4))
    = Some (g', rng')
    ∧ np_get (FFGame.extinguish_overlay g') 1 1
      = Some (if 2 >? 0 then Z.max 0 (2 - Z.of_nat 2) else 2).
Proof.
  apply (overlay_fades _ (const_rng (3 # 4)) 2 (1, 1) 2).
  - split; (split; [reflexivity | repeat constructor]).
  - unfold inb. simpl. lia.
  - reflexivity.
Defined.

(** ** Moves *)

Lemma paint_none f l a : (∀ c, c ∈ l → f c = None) → paint f l a = a.
Proof.
  revert a. induction l as [|c l IH]; intros a Hnone; [done|].
  simpl. rewrite (Hnone c) by (by left). simpl. apply IH.
  intros c' Hc'. apply Hnone. by right.
Qed.

Lemma filter_none {A} (P : A → Prop) `{∀ x, Decision (P x)} (l : list A) :
  (∀ x, x ∈ l → ¬ P x) → filter P l = [].
Proof.
  induction l as [|a l IH]; intros Hnone; [done|].
  rewrite filter_cons_False by (apply Hnone; by left).
  apply IH. intros x Hx. apply Hnone. by right.
Qed.

Lemma reposition_idle g : FFGame.reposition g ∅ = FFGame.player_pos g.
Proof.
  unfold FFGame.reposition. destruct (FFGame.player_pos g) as [x y].
  by rewrite !bool_decide_eq_false_2 by set_solver.
Qed.

(** X13: after a call of [move_player] no cell of the grid under the agent's
    footprint is on fire, and a further call with no direction changes
    nothing at all. *)
Theorem move_leaves_no_fire_under (g g' : FFGame.ForestFireGame)
    (direction : gset string) :
  wf_game g →
  FFGame.move_player g direction = Some g' →
  (∀ c, inb (FFGame.grid_size g') c → c ∈ footprint (FFGame.player_pos g') →
     ¬ on_fire (FFGame.grid g') c)
  ∧ FFGame.move_player g' ∅ = Some g'.
Proof.
  intros Hwf Hmove.
  destruct (move_departures g direction Hwf) as (g1 & Hmove1 & Hwf' & Hsize & _).
  rewrite Hmove in Hmove1. injection Hmove1 as <-.
  assert (Hclean : ∀ c, inb (FFGame.grid_size g') c →
            c ∈ footprint (FFGame.player_pos g') → ¬ on_fire (FFGame.grid g') c).
  { intros c Hc Hin Hfire. rewrite Hsize in Hc. unfold on_fire in Hfire.
    rewrite (move_player_grid g direction g' c Hwf Hmove Hc) in Hfire.
    destruct (decide _) as [|Hno]; [done|]. apply Hno. by split. }
  split; [exact Hclean|].
  rewrite move_player_spec by done. rewrite reposition_idle.
  assert (Hnone : ∀ c, c ∈ footprint (FFGame.player_pos g') →
            ¬ doused (FFGame.grid_size g') (FFGame.grid g') c).
  { intros c Hin [Hc Hfire]. by apply (Hclean c Hc Hin). }
  rewrite !paint_none.
  - unfold fires_under.
    assert (filter (doused (FFGame.grid_size g') (FFGame.grid g'))
              (footprint (FFGame.player_pos g')) = []) as ->.
    { by apply filter_none. }
    destruct g'. simpl. by rewrite Z.add_0_r.
  - intros c Hin. unfold douse_overlay. by rewrite decide_False by by apply Hnone.
  - intros c Hin. unfold douse_grid. by rewrite decide_False by by apply Hnone.
Qed.

Lemma move_leaves_no_fire_under_witness :
  (∀ c, inb (FFGame.grid_size agent_after) c →
     c ∈ footprint (FFGame.player_pos agent_after) →
     ¬ on_fire (FFGame.grid agent_after) c)
  ∧ FFGame.move_player agent_after ∅ = Some agent_after.
Proof.
  apply (move_leaves_no_fire_under agent_example agent_after ∅).
  - split; (split; [reflexivity | repeat constructor]).
  - vm_compute. reflexivity.
Defined.

(** X14: [move_player] looks only for the four names UP, DOWN, LEFT and
    RIGHT: two sets of directions that agree on these four give the same
    result, so any other string in the set is ignored. *)
Theorem move_reads_four_names (g : FFGame.ForestFireGame) (d d' : gset string) :
  (∀ s, s ∈ ["UP"; "DOWN"; "LEFT"; "RIGHT"] → s ∈ d ↔ s ∈ d') →
  FFGame.move_player g d = FFGame.move_player g d'.
Proof.
  intros Hsame. unfold FFGame.move_player.
  assert (Hpos : FFGame.reposition g d = FFGame.reposition g d'); [|by rewrite Hpos].
  unfold FFGame.reposition.
  rewrite (bool_decide_ext ("UP" ∈ d) ("UP" ∈ d')) by (apply Hsame; repeat first [apply list_elem_of_here | apply list_elem_of_further]).
  rewrite (bool_decide_ext ("DOWN" ∈ d) ("DOWN" ∈ d')) by (apply Hsame; repeat first [apply list_elem_of_here | apply list_elem_of_further]).
  rewrite (bool_decide_ext ("LEFT" ∈ d) ("LEFT" ∈ d')) by (apply Hsame; repeat first [apply list_elem_of_here | apply list_elem_of_further]).
  by rewrite (bool_decide_ext ("RIGHT" ∈ d) ("RIGHT" ∈ d')) by (apply Hsame; repeat first [apply list_elem_of_here | apply list_elem_of_further]).
Qed.

Lemma move_reads_four_names_witness :
  FFGame.move_player agent_example {["DOWN"; "JUMP"]}
  = FFGame.move_player agent_example {["DOWN"]}.
Proof.
  apply (move_reads_four_names agent_example {["DOWN"; "JUMP"]} {["DOWN"]}).
  intros s Hs.
  repeat (apply elem_of_cons in Hs as [->|Hs]; [set_solver|]).
  by apply elem_of_nil in Hs.
Defined.

(** X15: with two opposite directions held together the agent stays where
    it is, except on the top row or the left column, where UP (LEFT) has no
    effect and DOWN (RIGHT) still moves it one cell when there is room. *)
Theorem opposite_directions (g g' : FFGame.ForestFireGame) (direction : gset string) :
  wf_game g →
  anchor_ok (FFGame.grid_size g) (FFGame.player_pos g) →
  FFGame.move_player g direction = Some g' →
  ("UP" ∈ direction → "DOWN" ∈ direction →
     (FFGame.player_pos g').1
     = if (FFGame.player_pos g).1 =? 0 then Z.min 1 (FFGame.grid_size g - 3)
       else (FFGame.player_pos g).1)
  ∧ ("LEFT" ∈ direction → "RIGHT" ∈ direction →
       (FFGame.player_pos g').2
       = if (FFGame.player_pos g).2 =? 0 then Z.min 1 (FFGame.grid_size g - 3)
         else (FFGame.player_pos g).2).
Proof.
  intros Hwf [Hx Hy] Hmove. rewrite move_player_spec in Hmove by done.
  apply (inj Some) in Hmove. rewrite <- Hmove. cbn [FFGame.player_pos]. clear Hmove.
  unfold FFGame.reposition. destruct (FFGame.player_pos g) as [x y]. simpl in *.
  split.
  - intros Hup Hdown. rewrite !bool_decide_eq_true_2 by done. simpl.
    destruct (Z.eqb_spec x 0), (Z.gtb_spec x 0); try lia;
      repeat match goal with
      | |- context [ ?a <? ?b ] => destruct (Z.ltb_spec a b)
      end; simpl; lia.
  - intros Hleft Hright.
    rewrite (bool_decide_eq_true_2 ("LEFT" ∈ direction)) by done.
    rewrite (bool_decide_eq_true_2 ("RIGHT" ∈ direction)) by done.
    simpl. destruct (Z.eqb_spec y 0), (Z.gtb_spec y 0); try lia;
      repeat match goal with
      | |- context [ ?a <? ?b ] => destruct (Z.ltb_spec a b)
      end; simpl; lia.
Qed.

Lemma opposite_directions_witness :
  ("UP" ∈ ({["UP"; "DOWN"]} : gset string) → "DOWN" ∈ ({["UP"; "DOWN"]} : gset string) →
     (FFGame.player_pos agent_lowered).1
     = if (FFGame.player_pos agent_example).1 =? 0
       then Z.min 1 (FFGame.grid_size agent_example - 3)
       else (FFGame.player_pos agent_example).1)
  ∧ ("LEFT" ∈ ({["UP"; "DOWN"]} : gset string) → "RIGHT" ∈ ({["UP"; "DOWN"]} : gset string) →
       (FFGame.player_pos agent_lowered).2
       = if (FFGame.player_pos agent_example).2 =? 0
         then Z.min 1 (FFGame.grid_size agent_example - 3)
         else (FFGame.player_pos agent_example).2).
Proof.
  apply (opposite_directions agent_example agent_lowered {["UP"; "DOWN"]}).
  - split; (split; [reflexivity | repeat constructor]).
  - unfold anchor_ok. simpl. lia.
  - vm_compute. reflexivity.
Defined.

Lemma move_keeps_clock g direction g' :
  wf_game g → FFGame.move_player g direction = Some g' →
  FFGame.time_step g' = FFGame.time_step g
  ∧ FFGame.player_pos g' = FFGame.reposition g direction.
Proof.
  intros Hwf Hmove. rewrite move_player_spec in Hmove by done.
  apply (inj Some) in Hmove. by rewrite <- Hmove.
Qed.

(** A direction held for [k] calls moves the anchor [k] times by [f], when
    one call with that set of directions moves it by [f]. *)
Lemma run_moves_replicate direction (f : Z * Z → Z * Z) n :
  (∀ g, FFGame.grid_size g = n → FFGame.reposition g direction = f (FFGame.player_pos g)) →
  ∀ k g, wf_game g → FFGame.grid_size g = n →
  ∃ g', run_moves (replicate k direction) g = Some g'
    ∧ FFGame.player_pos g' = Nat.iter k f (FFGame.player_pos g).
Proof.
  intros Hf k. induction k as [|k IH]; intros g Hwf Hsize.
  - by exists g.
  - destruct (move_departures g direction Hwf) as (g1 & Hmove & Hwf1 & Hsize1 & _).
    destruct (move_keeps_clock g direction g1 Hwf Hmove) as [_ Hpos].
    destruct (IH g1 Hwf1) as (g' & Hrun & Hfinal); [congruence|].
    exists g'. split.
    + unfold run_moves in *. simpl replicate. rewrite for_each_cons. cbv beta.
      rewrite Hmove. exact Hrun.
    + rewrite Hfinal, Hpos, (Hf g Hsize). apply Nat.iter_swap.
Qed.

Lemma reposition_single g :
  let '(x, y) := FFGame.player_pos g in
  let n := FFGame.grid_size g in
  FFGame.reposition g {["UP"]} = (if x >? 0 then x - 1 else x, y)
  ∧ FFGame.reposition g {["DOWN"]} = (if x <? n - 3 then x + 1 else x, y)
  ∧ FFGame.reposition g {["LEFT"]} = (x, if y >? 0 then y - 1 else y)
  ∧ FFGame.reposition g {["RIGHT"]} = (x, if y <? n - 3 then y + 1 else y).
Proof.
  unfold FFGame.reposition. destruct (FFGame.player_pos g) as [x y].
  by repeat split.
Qed.

Lemma iter_towards_zero k x :
  0 ≤ x → Nat.iter k (λ x, if x >? 0 then x - 1 else x) x = Z.max 0 (x - Z.of_nat k).
Proof.
  intros Hx. induction k as [|k IH]; [simpl; lia|].
  simpl Nat.iter. rewrite IH. destruct (Z.gtb_spec (Z.max 0 (x - Z.of_nat k)) 0); lia.
Qed.

Lemma iter_towards_bound k x b :
  x ≤ b → Nat.iter k (λ x, if x <? b then x + 1 else x) x = Z.min b (x + Z.of_nat k).
Proof.
  intros Hx. induction k as [|k IH]; [simpl; lia|].
  simpl Nat.iter. rewrite IH. destruct (Z.ltb_spec (Z.min b (x + Z.of_nat k)) b); lia.
Qed.

Lemma iter_fst {A B} (f : A → A) k (a : A) (b : B) :
  Nat.iter k (λ p, (f p.1, p.2)) (a, b) = (Nat.iter k f a, b).
Proof. induction k as [|k IH]; [done|]. simpl. by rewrite IH. Qed.

Lemma iter_snd {A B} (f : B → B) k (a : A) (b : B) :
  Nat.iter k (λ p, (p.1, f p.2)) (a, b) = (a, Nat.iter k f b).
Proof. induction k as [|k IH]; [done|]. simpl. by rewrite IH. Qed.

(** X16: a single direction held for [k] calls of [move_player] takes the
    anchor [k] cells that way and no further than the border: from (x, y)
    inside the range, UP ends at row [max 0 (x - k)], DOWN at row
    [min (size - 3) (x + k)], LEFT and RIGHT likewise on the columns. *)
Theorem held_direction_stops_at_border (g : FFGame.ForestFireGame) (k : nat) :
  wf_game g →
  anchor_ok (FFGame.grid_size g) (FFGame.player_pos g) →
  let x := (FFGame.player_pos g).1 in
  let y := (FFGame.player_pos g).2 in
  let b := FFGame.grid_size g - 3 in
  (∃ g', run_moves (replicate k {["UP"]}) g = Some g'
     ∧ FFGame.player_pos g' = (Z.max 0 (x - Z.of_nat k), y))
  ∧ (∃ g', run_moves (replicate k {["DOWN"]}) g = Some g'
       ∧ FFGame.player_pos g' = (Z.min b (x + Z.of_nat k), y))
  ∧ (∃ g', run_moves (replicate k {["LEFT"]}) g = Some g'
       ∧ FFGame.player_pos g' = (x, Z.max 0 (y - Z.of_nat k)))
  ∧ (∃ g', run_moves (replicate k {["RIGHT"]}) g = Some g'
       ∧ FFGame.player_pos g' = (x, Z.min b (y + Z.of_nat k))).
Proof.
  intros Hwf [Hx Hy]. destruct (FFGame.player_pos g) as [x y] eqn:Hpos.
  simpl in Hx, Hy. simpl.
  set (n := FFGame.grid_size g) in *.
  assert (Hsingle : ∀ g0, FFGame.grid_size g0 = n →
            FFGame.reposition g0 {["UP"]}
            = (λ p, ((λ x, if x >? 0 then x - 1 else x) p.1, p.2)) (FFGame.player_pos g0)
            ∧ FFGame.reposition g0 {["DOWN"]}
              = (λ p, ((λ x, if x <? n - 3 then x + 1 else x) p.1, p.2)) (FFGame.player_pos g0)
            ∧ FFGame.reposition g0 {["LEFT"]}
              = (λ p, (p.1, (λ y, if y >? 0 then y - 1 else y) p.2)) (FFGame.player_pos g0)
            ∧ FFGame.reposition g0 {["RIGHT"]}
              = (λ p, (p.1, (λ y, if y <? n - 3 then y + 1 else y) p.2)) (FFGame.player_pos g0)).
  { intros g0 Hsize. pose proof (reposition_single g0) as H.
    destruct (FFGame.player_pos g0) as [x0 y0]. rewrite Hsize in H. exact H. }
  split; [|split; [|split]].
  - destruct (run_moves_replicate {["UP"]} _ n (λ g0 H0, proj1 (Hsingle g0 H0)) k g Hwf eq_refl)
      as (g' & Hrun & Hfinal).
    exists g'. split; [done|]. rewrite Hfinal, Hpos.
    etrans; [apply (iter_fst (λ x, if x >? 0 then x - 1 else x))|].
    by rewrite iter_towards_zero by lia.
  - destruct (run_moves_replicate {["DOWN"]} _ n
                (λ g0 H0, proj1 (proj2 (Hsingle g0 H0))) k g Hwf eq_refl)
      as (g' & Hrun & Hfinal).
    exists g'. split; [done|]. rewrite Hfinal, Hpos.
    etrans; [apply (iter_fst (λ x, if x <? n - 3 then x + 1 else x))|].
    by rewrite iter_towards_bound by lia.
  - destruct (run_moves_replicate {["LEFT"]} _ n
                (λ g0 H0, proj1 (proj2 (proj2 (Hsingle g0 H0)))) k g Hwf eq_refl)
      as (g' & Hrun & Hfinal).
    exists g'. split; [done|]. rewrite Hfinal, Hpos.
    etrans; [apply (iter_snd (λ y, if y >? 0 then y - 1 else y))|].
    by rewrite iter_towards_zero by lia.
  - destruct (run_moves_replicate {["RIGHT"]} _ n
                (λ g0 H0, proj2 (proj2 (proj2 (Hsingle g0 H0)))) k g Hwf eq_refl)
      as (g' & Hrun & Hfinal).
    exists g'. split; [done|]. rewrite Hfinal, Hpos.
    etrans; [apply (iter_snd (λ y, if y <? n - 3 then y + 1 else y))|].
    by rewrite iter_towards_bound by lia.
Qed.

Lemma held_direction_stops_at_border_witness :
  let x := (FFGame.player_pos roaming_example).1 in
  let y := (FFGame.player_pos roaming_example).2 in
  let b := FFGame.grid_size roaming_example - 3 in
  (∃ g', run_moves (replicate 4 {["UP"]}) roaming_example = Some g'
     ∧ FFGame.player_pos g' = (Z.max 0 (x - Z.of_nat 4), y))
  ∧ (∃ g', run_moves (replicate 4 {["DOWN"]}) roaming_example = Some g'
       ∧ FFGame.player_pos g' = (Z.min b (x + Z.of_nat 4), y))
  ∧ (∃ g', run_moves (replicate 4 {["LEFT"]}) roaming_example = Some g'
       ∧ FFGame.player_pos g' = (x, Z.max 0 (y - Z.of_nat 4)))
  ∧ (∃ g', run_moves (replicate 4 {["RIGHT"]}) roaming_example = Some g'
       ∧ FFGame.player_pos g' = (x, Z.min b (y + Z.of_nat 4))).
Proof.
  apply (held_direction_stops_at_border roaming_example 4).
  - split; (split; [reflexivity | repeat constructor]).
  - unfold anchor_ok. simpl. lia.
Defined.

(** ** The cadence of the game loop *)

(** One frame never raises on a well-formed game; it ticks when the counter
    is a multiple of 5. *)
Lemma frame_spec keys g c rng :
  wf_game g →
  ∃ g' rng', FFGame.frame keys (g, c, rng) = Some (g', c + 1, rng')
    ∧ wf_game g' ∧ FFGame.grid_size g' = FFGame.grid_size g
    ∧ FFGame.time_step g'
      = FFGame.time_step g + (if c `mod` 5 =? 0 then 1 else 0).
Proof.
  intros Hwf. unfold FFGame.frame, FFGame.simulation_step_interval.
  assert (Hmoved : ∃ g1, (if bool_decide (keys ≠ ∅) then FFGame.move_player g keys
                           else Some g) = Some g1
                    ∧ wf_game g1 ∧ FFGame.grid_size g1 = FFGame.grid_size g
                    ∧ FFGame.time_step g1 = FFGame.time_step g).
  { destruct (bool_decide (keys ≠ ∅)); [|by exists g].
    destruct (move_departures g keys Hwf) as (g1 & Hmove & Hwf1 & Hsize & _).
    exists g1. split; [done|]. split; [done|]. split; [done|].
    by destruct (move_keeps_clock g keys g1 Hwf Hmove). }
  destruct Hmoved as (g1 & -> & Hwf1 & Hsize1 & Hclock1). simpl.
  destruct (c `mod` 5 =? 0).
  - destruct (tick_departures g1 rng Hwf1) as (g2 & rng2 & Hstep & Hwf2 & Hsize2 & _).
    exists g2, rng2. rewrite Hstep. simpl. split; [done|]. split; [done|].
    split; [congruence|].
    rewrite FFGame_step_spec in Hstep by apply Hwf1. injection Hstep as <- _.
    simpl. lia.
  - exists g1, rng. simpl. split; [done|]. split; [done|]. split; [done|]. lia.
Qed.

Lemma run_frames_spec keys g c rng :
  wf_game g → 0 ≤ c →
  ∃ g' rng',
    run_frames keys (g, c, rng) = Some (g', c + Z.of_nat (length keys), rng')
    ∧ wf_game g'
    ∧ FFGame.time_step g'
      = FFGame.time_step g + ((c + Z.of_nat (length keys) + 4) `div` 5 - (c + 4) `div` 5).
Proof.
  revert g c rng. induction keys as [|d keys IH]; intros g c rng Hwf Hc.
  - exists g, rng. simpl. rewrite !Z.add_0_r. split; [done|]. split; [done|]. lia.
  - destruct (frame_spec d g c rng Hwf) as (g1 & rng1 & Hframe & Hwf1 & _ & Hclock).
    destruct (IH g1 (c + 1) rng1 Hwf1) as (g' & rng' & Hrun & Hwf' & Hclock'); [lia|].
    exists g', rng'. split; [|split; [done|]].
    + unfold run_frames in *. rewrite for_each_cons, Hframe. simpl.
      rewrite Hrun. do 3 f_equal. simpl length. lia.
    + rewrite Hclock', Hclock. simpl length.
      replace (c + 1 + Z.of_nat (length keys)) with (c + Z.of_nat (S (length keys))) by lia.
      destruct (Z.eqb_spec (c `mod` 5) 0); Z.div_mod_to_equations; lia.
Qed.

(** X17: from a game just built, the loop of [main] runs any number of
    frames, whatever keys are held, without an index error; the engine ticks
    at the first frame and then every fifth one, so that after [k] frames
    [time_step] is [k / 5] rounded up. *)
Theorem one_tick_every_five_frames (mem n : Z) (pt pf : Q) (g : FFGame.ForestFireGame)
    (keys : list (gset string)) (rng : Rng) :
  FFGame.init mem n pt pf = Some g →
  ∃ g' rng',
    run_frames keys (g, 0, rng) = Some (g', Z.of_nat (length keys), rng')
    ∧ FFGame.time_step g' = (Z.of_nat (length keys) + 4) `div` 5.
Proof.
  intros Hinit.
  destruct (run_frames_spec keys g 0 rng (init_wf mem n pt pf g Hinit)) as
    (g' & rng' & Hrun & _ & Hclock); [lia|].
  exists g', rng'. split; [done|]. rewrite Hclock.
  unfold FFGame.init in Hinit. destruct (np_zeros mem n); [|done].
  simpl in Hinit. injection Hinit as <-. simpl.
  rewrite !Z.add_0_l. change (4 `div` 5) with 0. lia.
Qed.

Lemma one_tick_every_five_frames_witness :
  ∃ g' rng',
    run_frames [∅; ∅; {["UP"]}; ∅; ∅; ∅; {["LEFT"]}] (roaming_example, 0, centre_draws)
    = Some (g', Z.of_nat 7, rng')
    ∧ FFGame.time_step g' = (Z.of_nat 7 + 4) `div` 5.
Proof.
  apply (one_tick_every_five_frames gibibyte 5 (1 # 2) (1 # 4) roaming_example
           [∅; ∅; {["UP"]}; ∅; ∅; ∅; {["LEFT"]}] centre_draws).
  reflexivity.
Defined.

(** ** The speed of the fire *)

Lemma within_step e e1 k x y i j dx dy :
  (match e with Model _ => ∃ m, e1 = Model m | Game _ => ∃ g, e1 = Game g end) →
  within e1 k x y i j → (dx, dy) ∈ neighbourhood e →
  within e (k + 1) x y (i + dx) (j + dy).
Proof.
  destruct e as [m|g]; intros [? ->] Hin Hd; simpl in *.
  - apply von_neumann_geometry in Hd. lia.
  - apply moore_geometry in Hd. lia.
Qed.

(** X18: when no draw is below [p_fire], so that lightning never strikes, a
    cell on fire after [k] ticks lies within [k] steps, for the neighbourhood
    of the class, of a cell that was on fire at the start: the fire travels at
    most one cell per tick, and a grid without fire stays without fire. *)
Theorem fire_travels_one_cell_per_tick (e e' : Engine) (rng rng' : Rng) (k : nat)
    (x y : Z) :
  wf_engine e →
  never_below rng (engine_p_fire e) →
  engine_ticks k (e, rng) = Some (e', rng') →
  inb (engine_size e) (x, y) →
  np_get (engine_grid e') x y = Some 2 →
  ∃ i j, inb (engine_size e) (i, j)
    ∧ np_get (engine_grid e) i j = Some 2
    ∧ within e (Z.of_nat k) x y i j.
Proof.
  revert e rng. induction k as [|k IH]; intros e rng Hwf Hdry Hticks Hc Hfire.
  - injection Hticks as <- <-. exists x, y. split; [done|]. split; [done|].
    destruct e; simpl; lia.
  - simpl in Hticks.
    destruct (engine_step_full e rng Hwf)
      as (e1 & Hstep & Hwf1 & Hsize & _ & Hpf & Hsame & _).
    rewrite Hstep in Hticks. simpl in Hticks.
    set (rng1 := skip (draws_taken (engine_grid e) (cells (engine_size e))) rng) in *.
    assert (Hdry1 : never_below rng1 (engine_p_fire e1)) by (rewrite Hpf; exact Hdry).
    assert (Hcx : inb (engine_size e1) (x, y)) by (by rewrite Hsize).
    destruct (IH e1 rng1 Hwf1 Hdry1 Hticks Hcx Hfire) as (i1 & j1 & Hc1 & Hfire1 & Hnear).
    rewrite Hsize in Hc1.
    destruct (step_fire_cause e e1 rng _ (i1, j1) Hwf Hc1 Hstep Hfire1)
      as [_ [Hdraw|Hspread]].
    + apply Qltb_lt in Hdraw. by destruct (Hdry _ Hdraw).
    + apply fire_among_spec in Hspread as (dx & dy & Hin & Hb & Hlit).
      exists (i1 + dx), (j1 + dy). split; [done|]. split; [done|].
      replace (Z.of_nat (S k)) with (Z.of_nat k + 1) by lia.
      by apply (within_step e e1).
Qed.

Lemma fire_travels_one_cell_per_tick_witness :
  ∃ i j, inb (engine_size diagonal_example) (i, j)
    ∧ np_get (engine_grid diagonal_example) i j = Some 2
    ∧ within diagonal_example (Z.of_nat 1) 1 1 i j.
Proof.
  eapply (fire_travels_one_cell_per_tick diagonal_example _ (const_rng (3 # 4)) _ 1 1 1).
  - split; (split; [reflexivity | repeat constructor]).
  - intros k H. by apply Qltb_lt in H.
  - vm_compute. reflexivity.
  - unfold inb. simpl. lia.
  - vm_compute. reflexivity.
Defined.

(** ** The event loop *)

Lemma handle_event_spec event running directions :
  (directions ⊆ known_names →
   (FFGame.handle_event event (running, directions)).2 ⊆ known_names)
  ∧ (FFGame.handle_event event (running, directions)).1
    = running && negb (bool_decide (event = FFGame.QUIT)).
Proof.
  destruct event as [|[]|[]|]; simpl; rewrite ?andb_true_r, ?andb_false_r;
    (split; [intros Hknown | done]); try done;
    first [ apply union_least; [done | compute_done]
          | by apply subseteq_difference_l ].
Qed.

Lemma handle_events_names events running directions :
  directions ⊆ known_names →
  (handle_events events (running, directions)).2 ⊆ known_names.
Proof.
  revert running directions.
  induction events as [|event events IH]; intros running directions Hknown; [done|].
  change ((handle_events events (FFGame.handle_event event (running, directions))).2
          ⊆ known_names).
  destruct (handle_event_spec event running directions) as [Hknown' _].
  destruct (FFGame.handle_event event (running, directions)) as [running' directions'].
  apply IH. by apply Hknown'.
Qed.

Lemma handle_events_running events running directions :
  (handle_events events (running, directions)).1 = true
  ↔ running = true ∧ FFGame.QUIT ∉ events.
Proof.
  revert running directions.
  induction events as [|event events IH]; intros running directions.
  - simpl. split; [intros ->; split; [done|apply not_elem_of_nil] | tauto].
  - change (handle_events (event :: events) (running, directions))
      with (handle_events events (FFGame.handle_event event (running, directions))).
    destruct (handle_event_spec event running directions) as [_ Hrun].
    destruct (FFGame.handle_event event (running, directions)) as [running' directions'].
    simpl in *. rewrite IH, Hrun, not_elem_of_cons, andb_true_iff, negb_true_iff.
    rewrite bool_decide_eq_false. clear IH Hrun. intuition congruence.
Qed.

(** X19: handling the events of a frame keeps [directions] within the four
    names UP, DOWN, LEFT and RIGHT, and never sets [running] back to true:
    [running] holds afterwards exactly when it held before and no QUIT is
    among the events. *)
Theorem events_keep_known_names (events : list FFGame.Event) (running : bool)
    (directions : gset string) :
  directions ⊆ known_names →
  (handle_events events (running, directions)).2 ⊆ known_names
  ∧ ((handle_events events (running, directions)).1 = true
     ↔ running = true ∧ FFGame.QUIT ∉ events).
Proof.
  intros Hknown. split; [by apply handle_events_names | apply handle_events_running].
Qed.

Lemma events_keep_known_names_witness :
  (handle_events [FFGame.KEYDOWN FFGame.K_UP; FFGame.KEYDOWN FFGame.K_other;
                  FFGame.KEYUP FFGame.K_LEFT; FFGame.QUIT; FFGame.KEYDOWN FFGame.K_RIGHT]
     (true, {["LEFT"]})).2 ⊆ known_names
  ∧ ((handle_events [FFGame.KEYDOWN FFGame.K_UP; FFGame.KEYDOWN FFGame.K_other;
                     FFGame.KEYUP FFGame.K_LEFT; FFGame.QUIT; FFGame.KEYDOWN FFGame.K_RIGHT]
        (true, {["LEFT"]})).1 = true
     ↔ true = true
       ∧ FFGame.QUIT ∉ [FFGame.KEYDOWN FFGame.K_UP; FFGame.KEYDOWN FFGame.K_other;
                        FFGame.KEYUP FFGame.K_LEFT; FFGame.QUIT;
                        FFGame.KEYDOWN FFGame.K_RIGHT]).
Proof.
  apply (events_keep_known_names _ true {["LEFT"]}).
  compute_done.
Defined.




Lemma iteration_spec events s :
  wf_game (FFGame.game s) →
  ∃ g1 rng1,
    FFGame.iteration events s
    = Some (FFGame.mkSession
              (handle_events events (FFGame.running s, FFGame.directions s)).1
              (handle_events events (FFGame.running s, FFGame.directions s)).2
              g1 (FFGame.simulation_counter s + 1) rng1)
    ∧ wf_game g1
    ∧ FFGame.time_step g1
      = FFGame.time_step (FFGame.game s)
        + (if FFGame.simulation_counter s `mod` 5 =? 0 then 1 else 0).
Proof.
  intros Hwf. unfold FFGame.iteration.
  fold (handle_events events (FFGame.running s, FFGame.directions s)).
  destruct (handle_events events _) as [running' directions'].
  destruct (frame_spec directions' (FFGame.game s) (FFGame.simulation_counter s)
              (FFGame.session_rng s) Hwf) as (g1 & rng1 & -> & Hwf1 & _ & Hclock).
  by exists g1, rng1.
Qed.

Lemma main_loop_stopped feed s :
  FFGame.running s = false → FFGame.main_loop feed s = Some s.
Proof. intros Hrun. destruct feed; simpl; [done|]. by rewrite Hrun. Qed.

Lemma main_loop_spec feed s :
  FFGame.running s = true →
  wf_game (FFGame.game s) →
  FFGame.directions s ⊆ known_names →
  ∃ s', FFGame.main_loop feed s = Some s'
    ∧ wf_game (FFGame.game s')
    ∧ FFGame.directions s' ⊆ known_names
    ∧ FFGame.simulation_counter s'
      = FFGame.simulation_counter s + Z.of_nat (frames_played feed)
    ∧ FFGame.time_step (FFGame.game s')
      = FFGame.time_step (FFGame.game s)
        + ((FFGame.simulation_counter s' + 4) `div` 5
           - (FFGame.simulation_counter s + 4) `div` 5)
    ∧ (FFGame.running s' = true ↔ ∀ events, events ∈ feed → FFGame.QUIT ∉ events).
Proof.
  revert s. induction feed as [|events feed IH]; intros s Hrun Hwf Hknown.
  - exists s. simpl. rewrite Z.add_0_r. repeat (split; [done || lia|]).
    split; [by intros _ events ?%elem_of_nil | done].
  - destruct (iteration_spec events s Hwf) as (g1 & rng1 & Hit & Hwf1 & Hclock).
    pose proof (handle_events_names events (FFGame.running s) (FFGame.directions s)
                  Hknown) as Hknown1.
    pose proof (handle_events_running events (FFGame.running s) (FFGame.directions s))
      as Hrun1.
    set (s1 := FFGame.mkSession _ _ g1 _ rng1) in Hit.
    assert (Hstep : FFGame.main_loop (events :: feed) s = FFGame.main_loop feed s1).
    { simpl. by rewrite Hrun, Hit. }
    rewrite Hstep. cbn [frames_played].
    destruct (decide (FFGame.QUIT ∈ events)) as [Hquit|Hquit].
    + rewrite (bool_decide_eq_true_2 _ Hquit).
      assert (Hoff : FFGame.running s1 = false).
      { subst s1. simpl. destruct (handle_events events _).1; [|done].
        by destruct Hrun1 as [[_ Hno] _]. }
      exists s1. rewrite (main_loop_stopped feed s1 Hoff). split; [done|].
      split; [done|]. split; [done|]. split; [subst s1; simpl; lia|].
      split.
      * subst s1. simpl. rewrite Hclock.
        destruct (Z.eqb_spec (FFGame.simulation_counter s `mod` 5) 0);
          Z.div_mod_to_equations; lia.
      * rewrite Hoff. split; [done|]. intros Hno.
        destruct (Hno events (list_elem_of_here _ _) Hquit).
    + rewrite (bool_decide_eq_false_2 _ Hquit).
      assert (Hon : FFGame.running s1 = true).
      { subst s1. simpl. by apply Hrun1. }
      destruct (IH s1 Hon Hwf1 Hknown1) as (s' & Hloop & Hwf' & Hknown' & Hc & Hclock' & Hiff).
      exists s'. split; [done|]. split; [done|]. split; [done|].
      split; [subst s1; simpl in *; lia|]. split.
      * rewrite Hclock'. subst s1. simpl. rewrite Hclock.
        destruct (Z.eqb_spec (FFGame.simulation_counter s `mod` 5) 0);
          Z.div_mod_to_equations; lia.
      * rewrite Hiff. split.
        -- intros Hall ev [->|Hin]%elem_of_cons; [done | by apply Hall].
        -- intros Hall ev Hin. by apply Hall, list_elem_of_further.
Qed.

(** X21: the loop of [main], started on a game just built, handles any
    sequence of events without an index error.  It plays one frame for each
    batch of events up to the first batch with a QUIT, that one included,
    and then stops; the engine has ticked once every five frames played, and
    [directions] holds only the names UP, DOWN, LEFT and RIGHT. *)
Theorem main_plays_until_quit (mem n : Z) (pt pf : Q) (g : FFGame.ForestFireGame)
    (feed : list (list FFGame.Event)) (rng : Rng) :
  FFGame.init mem n pt pf = Some g →
  ∃ s', FFGame.main_loop feed (FFGame.start g rng) = Some s'
    ∧ FFGame.simulation_counter s' = Z.of_nat (frames_played feed)
    ∧ FFGame.time_step (FFGame.game s') = (Z.of_nat (frames_played feed) + 4) `div` 5
    ∧ FFGame.directions s' ⊆ known_names
    ∧ (FFGame.running s' = true ↔ ∀ events, events ∈ feed → FFGame.QUIT ∉ events).
Proof.
  intros Hinit.
  destruct (main_loop_spec feed (FFGame.start g rng) eq_refl (init_wf mem n pt pf g Hinit))
    as (s' & Hloop & _ & Hknown & Hc & Hclock & Hiff); [simpl; apply empty_subseteq|].
  exists s'. simpl in Hc, Hclock. rewrite Z.add_0_l in Hc.
  split; [done|]. split; [done|]. split; [|done].
  rewrite Hclock, Hc. unfold FFGame.init in Hinit. destruct (np_zeros mem n); [|done].
  simpl in Hinit. injection Hinit as <-. simpl.
  change ((0 + 4) `div` 5) with 0. lia.
Qed.

Lemma main_plays_until_quit_witness :
  ∃ s', FFGame.main_loop
          [[FFGame.KEYDOWN FFGame.K_UP]; []; [FFGame.KEYUP FFGame.K_UP; FFGame.QUIT];
           [FFGame.KEYDOWN FFGame.K_LEFT]]
          (FFGame.start roaming_example centre_draws) = Some s'
    ∧ FFGame.simulation_counter s'
      = Z.of_nat (frames_played
                    [[FFGame.KEYDOWN FFGame.K_UP]; [];
                     [FFGame.KEYUP FFGame.K_UP; FFGame.QUIT];
                     [FFGame.KEYDOWN FFGame.K_LEFT]])
    ∧ FFGame.time_step (FFGame.game s')
      = (Z.of_nat (frames_played
                     [[FFGame.KEYDOWN FFGame.K_UP]; [];
                      [FFGame.KEYUP FFGame.K_UP; FFGame.QUIT];
                      [FFGame.KEYDOWN FFGame.K_LEFT]]) + 4) `div` 5
    ∧ FFGame.directions s' ⊆ known_names
    ∧ (FFGame.running s' = true
       ↔ ∀ events,
           events ∈ [[FFGame.KEYDOWN FFGame.K_UP]; [];
                     [FFGame.KEYUP FFGame.K_UP; FFGame.QUIT];
                     [FFGame.KEYDOWN FFGame.K_LEFT]] →
           FFGame.QUIT ∉ events).
Proof.
  apply (main_plays_until_quit gibibyte 5 (1 # 2) (1 # 4) roaming_example).
  reflexivity.
Defined.

(** ** The two classes on one grid *)

Lemma fire_among_beside grid n x y :
  fire_among grid n von_neumann x y = true ↔ burning_beside grid n x y.
Proof.
  rewrite fire_among_spec. unfold burning_beside. split.
  - intros (dx & dy & Hin & Hc & Hfire). exists (x + dx), (y + dy).
    apply von_neumann_geometry in Hin. split; [done|]. split; [lia | done].
  - intros (i & j & Hc & Hd & Hfire). exists (i - x), (j - y).
    rewrite von_neumann_geometry.
    replace (x + (i - x)) with i by lia. replace (y + (j - y)) with j by lia.
    done.
Qed.

Lemma fire_among_around grid n x y :
  fire_among grid n moore x y = true
  ↔ burning_beside grid n x y ∨ burning_diagonally grid n x y.
Proof.
  rewrite fire_among_spec. unfold burning_beside, burning_diagonally. split.
  - intros (dx & dy & Hin & Hc & Hfire). apply moore_geometry in Hin.
    destruct (decide (Z.abs dx + Z.abs dy = 1)) as [Hd|Hd].
    + left. exists (x + dx), (y + dy). split; [done|]. split; [lia | done].
    + right. exists (x + dx), (y + dy). split; [done|].
      split; [lia|]. split; [lia | done].
  - intros [(i & j & Hc & Hd & Hfire) | (i & j & Hc & Hdx & Hdy & Hfire)];
      exists (i - x), (j - y); rewrite moore_geometry;
      replace (x + (i - x)) with i by lia; replace (y + (j - y)) with j by lia;
      (split; [lia | done]).
Qed.

(** X22: [ForestFireModel] and [ForestFireGame] on the same grid, with the
    same probabilities and the same random draws, take the same number of
    draws in a tick and differ afterwards on exactly the trees that lose
    their draw against [p_fire] and have a burning neighbour on a diagonal
    but none on their row or column: each of these is still a tree in the
    model and is on fire in the game, and every other cell holds the same
    value in both. *)
Theorem game_differs_on_diagonals (m : FF.ForestFireModel) (g : FFGame.ForestFireGame)
    (rng : Rng) :
  wf_game g →
  FF.grid_size m = FFGame.grid_size g →
  FF.grid m = FFGame.grid g →
  FF.p_tree m = FFGame.p_tree g →
  FF.p_fire m = FFGame.p_fire g →
  ∃ m' g' rng',
    FF.step m rng = Some (m', rng')
    ∧ FFGame.step g rng = Some (g', rng')
    ∧ ∀ x y, inb (FFGame.grid_size g) (x, y) →
        let r := draw_at (FFGame.grid g) (FFGame.grid_size g) rng x y in
        (diagonal_only (FFGame.grid g) (FFGame.grid_size g) (FFGame.p_fire g) r x y →
           np_get (FF.grid m') x y = Some 1 ∧ np_get (FFGame.grid g') x y = Some 2)
        ∧ (¬ diagonal_only (FFGame.grid g) (FFGame.grid_size g) (FFGame.p_fire g) r x y →
             np_get (FF.grid m') x y = np_get (FFGame.grid g') x y).
Proof.
  intros [Hwf Hov] Hsize Hgrid Hpt Hpf.
  rewrite FF_step_spec by (by rewrite Hsize, Hgrid).
  rewrite FFGame_step_spec by done.
  rewrite Hsize, Hgrid, Hpt, Hpf.
  eexists _, _, _. split; [reflexivity|]. split; [reflexivity|].
  intros x y Hc r. cbn [FF.grid FFGame.grid FFGame.finish_step].
  rewrite (next_grid_get moore _ _ _ _ _ (x, y)) by done.
  rewrite (next_grid_get von_neumann _ _ _ _ _ (x, y)) by done.
  unfold diagonal_only.
  pose proof (snap_get _ _ (x, y) Hwf Hc) as Hsnap. cbn [fst snd] in Hsnap.
  rewrite Hsnap. clear Hsnap.
  pose proof (fire_among_beside (FFGame.grid g) (FFGame.grid_size g) x y) as Hbeside.
  pose proof (fire_among_around (FFGame.grid g) (FFGame.grid_size g) x y) as Haround.
  unfold next_state, outcome, fire_near. cbn [fst snd]. fold r.
  destruct (Z.eqb_spec (snap (FFGame.grid g) (x, y)) 0) as [E0|H0].
  { split; [|done]. intros ([= E1] & _). lia. }
  destruct (Z.eqb_spec (snap (FFGame.grid g) (x, y)) 1) as [E1|H1].
  2: { split; [|done]. by intros ([= E1] & _). }
  destruct (Qltb r (FFGame.p_fire g)) eqn:Hdraw.
  { split; [|done]. intros (_ & Hlose & _). by apply Qltb_lt in Hdraw. }
  apply Qltb_ge in Hdraw.
  destruct (fire_among _ _ von_neumann x y) eqn:Hvn.
  { assert (fire_among (FFGame.grid g) (FFGame.grid_size g) moore x y = true) as ->
      by (apply Haround; left; by apply Hbeside).
    split; [|done]. intros (_ & _ & Hnone & _). destruct Hnone. by apply Hbeside. }
  assert (Hnone : ¬ burning_beside (FFGame.grid g) (FFGame.grid_size g) x y).
  { intros Hb. apply Hbeside in Hb. congruence. }
  destruct (fire_among _ _ moore x y) eqn:Hmo.
  - simpl. rewrite E1. split; [done|]. intros Hnot. destruct Hnot.
    split; [done|]. split; [done|]. split; [done|].
    destruct Haround as [Hfind _]. by destruct (Hfind eq_refl).
  - split; [|done]. intros (_ & _ & _ & Hdiag).
    destruct Haround as [_ Hback]. by specialize (Hback (or_intror Hdiag)).
Qed.

Lemma game_differs_on_diagonals_witness :
  ∃ m' g' rng',
    FF.step diagonal_model (const_rng (3 # 4)) = Some (m', rng')
    ∧ FFGame.step diagonal_game (const_rng (3 # 4)) = Some (g', rng')
    ∧ np_get (FF.grid m') 1 1 = Some 1
    ∧ np_get (FFGame.grid g') 1 1 = Some 2
    ∧ np_get (FF.grid m') 0 0 = np_get (FFGame.grid g') 0 0.
Proof.
  destruct (game_differs_on_diagonals diagonal_model diagonal_game (const_rng (3 # 4)))
    as (m' & g' & rng' & Hm & Hg & Hcells);
    [split; vm_compute; repeat split; repeat constructor | reflexivity..|].
  exists m', g', rng'. split; [exact Hm|]. split; [exact Hg|].
  destruct (Hcells 1 1) as [Hdiffer _]; [unfold inb; simpl; lia|].
  destruct (Hcells 0 0) as [_ Hagree]; [unfold inb; simpl; lia|].
  assert (Hhere : np_get (FF.grid m') 1 1 = Some 1
                  ∧ np_get (FFGame.grid g') 1 1 = Some 2).
  { apply Hdiffer. split; [reflexivity|].
    split; [intros Hlt; vm_compute in Hlt; discriminate|]. split.
    - intros (i & j & [Hi Hj] & Hd & Hfire). simpl in Hi, Hj.
      assert (i = 0 ∧ j = 1 ∨ i = 1 ∧ j = 0 ∨ i = 1 ∧ j = 2 ∨ i = 2 ∧ j = 1)
        as [[-> ->] | [[-> ->] | [[-> ->] | [-> ->]]]] by lia;
        vm_compute in Hfire; discriminate.
    - exists 0, 0. split; [unfold inb; simpl; lia|].
      split; [reflexivity|]. split; reflexivity. }
  split; [apply Hhere|]. split; [apply Hhere|].
  apply Hagree. intros (Htree & _). vm_compute in Htree. discriminate.
Defined.
